(** * Pooled upload heap and bucketized buffer allocator of the DML execution provider

    A shallow embedding of
    [onnxruntime/core/providers/dml/DmlExecutionProvider/src/PooledUploadHeap.cpp]
    and of the ID and bucket arithmetic declared in [BucketizedBufferAllocator.h],
    with the properties the specification states about them. *)

From stdpp Require Import base option list sorting gmap.
From Stdlib Require Import ZArith Lia Bool.

Local Open Scope Z_scope.

(** ** [size_t] arithmetic: 64-bit unsigned integers with wrap-around *)

Module SizeT.

Definition bits : Z := 64.
Definition modulus : Z := 2 ^ bits.

(** conversion of a mathematical integer to [size_t] *)
Definition wrap (x : Z) : Z := x mod modulus.

Definition add (x y : Z) : Z := wrap (x + y).
Definition sub (x y : Z) : Z := wrap (x - y).
(** bitwise complement [~x] *)
Definition lnot (x : Z) : Z := wrap (Z.lnot x).

Definition in_range (x : Z) : Prop := 0 <= x < modulus.

End SizeT.

(** ** The bucketized buffer allocator: bucket arithmetic and allocation IDs

    [BucketizedBufferAllocator.h] declares these members; their bodies are
    taken from the specification. *)

Module BucketAllocator.

(** [c_minResourceSizeExponent]: 2^16 = 64KB *)
Definition c_minResourceSizeExponent : Z := 16.

(** Modelled from the spec: the body of [GetBucketIndexFromSize] is missing;
    the bucket index of a size is max(0, ceil(log2(size)) - 16). *)
Definition GetBucketIndexFromSize (size : Z) : Z :=
  Z.max 0 (Z.log2_up size - c_minResourceSizeExponent).

(** Modelled from the spec: the body of [GetBucketSizeFromIndex] is missing;
    the bucket size of an index is 1 << (16 + index). *)
Definition GetBucketSizeFromIndex (index : Z) : Z :=
  Z.shiftl 1 (c_minResourceSizeExponent + index).

(** Modelled from the spec: the body of [ComputeRequiredSize] is missing; it
    rounds a size up to the size of its bucket. *)
Definition ComputeRequiredSize (size : Z) : Z :=
  GetBucketSizeFromIndex (GetBucketIndexFromSize size).

(** the largest value of the 32-bit [current_allocation_id_] *)
Definition kMaxAllocationID : Z := 2 ^ 32 - 1.

Record AllocationInfo := mkAllocationInfo {
  allocationId : Z;
  requestedSize : Z;
  bucketIndex : Z;
  backingSize : Z
}.

Record Allocator := mkAllocator {
  current_allocation_id_ : Z;
  (** a [std::vector]; a released ID is appended to it *)
  free_allocation_ids_ : list Z;
  allocations_by_id_ : gmap Z AllocationInfo
}.

(** a freshly constructed allocator *)
Definition fresh : Allocator := mkAllocator 0 [] ∅.

(** the smallest element of a list of IDs *)
Definition smallest (ids : list Z) : option Z :=
  match ids with
  | [] => None
  | id :: ids' => Some (foldr Z.min id ids')
  end.

(** a list of IDs without the first occurrence of [id] *)
Fixpoint erase (id : Z) (ids : list Z) : list Z :=
  match ids with
  | [] => []
  | id' :: ids' => if decide (id' = id) then ids' else id' :: erase id ids'
  end.

(** Modelled from the spec: the body of [TryReserveAllocationID] is missing.
    "Prefer popping from [free_allocation_ids]; otherwise increment
    [current_allocation_id] (starting at 0, so first ID = 1)"; of the ID that
    is popped the spec says that "IDs are drawn from the smallest available
    value", so the smallest ID of the pool is taken out of it. A reservation
    fails when the pool is empty and the 32-bit counter is at its largest
    value. *)
Definition TryReserveAllocationID (a : Allocator) : option (Z * Allocator) :=
  match smallest (free_allocation_ids_ a) with
  | Some id =>
      Some (id, mkAllocator (current_allocation_id_ a)
                            (erase id (free_allocation_ids_ a))
                            (allocations_by_id_ a))
  | None =>
      if decide (current_allocation_id_ a = kMaxAllocationID) then None
      else
        let id := current_allocation_id_ a + 1 in
        Some (id, mkAllocator id (free_allocation_ids_ a) (allocations_by_id_ a))
  end.

(** Modelled from the spec: the body of [ReleaseAllocationID] is missing. It
    returns the ID to [free_allocation_ids_] without reordering. *)
Definition ReleaseAllocationID (id : Z) (a : Allocator) : Allocator :=
  mkAllocator (current_allocation_id_ a) (free_allocation_ids_ a ++ [id])
              (allocations_by_id_ a).

(** Modelled from the spec: the body of [Alloc] is missing. It selects the
    bucket of the size, reserves an allocation ID and stores an
    [AllocationInfo] under it; the ID identifies the pointer it returns. *)
Definition Alloc (size : Z) (a : Allocator) : option (AllocationInfo * Allocator) :=
  let index := GetBucketIndexFromSize size in
  '(id, a') ← TryReserveAllocationID a;
  let info := mkAllocationInfo id size index (GetBucketSizeFromIndex index) in
  Some (info, mkAllocator (current_allocation_id_ a') (free_allocation_ids_ a')
                          (<[id := info]> (allocations_by_id_ a'))).

(** Modelled from the spec: the body of [Free] is missing. It looks the
    allocation up, erases the mapping and releases the ID; freeing an unknown
    pointer is an error of the caller. *)
Definition Free (id : Z) (a : Allocator) : option Allocator :=
  match allocations_by_id_ a !! id with
  | Some _ =>
      Some (ReleaseAllocationID id
              (mkAllocator (current_allocation_id_ a) (free_allocation_ids_ a)
                           (delete id (allocations_by_id_ a))))
  | None => None
  end.

(** the allocators a fresh one can become by calls of [Alloc] and [Free] *)
Inductive reachable : Allocator -> Prop :=
| reachable_fresh : reachable fresh
| reachable_Alloc a size info a' :
    reachable a -> 0 < size -> Alloc size a = Some (info, a') -> reachable a'
| reachable_Free a id a' :
    reachable a -> Free id a = Some a' -> reachable a'.



End BucketAllocator.

(** ** The pooled upload heap

    The structs and constants of [PooledUploadHeap.h] are used here as
    [PooledUploadHeap.cpp] uses them: the records have the fields the code
    reads and writes, and the constants are parameters of the development. *)

Module UploadHeap.

(** handles stand for the identity of objects owned by the driver:
    resources, command lists, command allocators, source buffers *)
Definition Handle := nat.

(** a completion event, identified by its fence value *)
Definition GpuEvent := Z.

Record Allocation := mkAllocation {
  (** ghost: the address of the node of [std::list<Allocation>] that holds the
      record; [&chunk->allocations.back()] evaluates to it *)
  address : nat;
  sizeInBytes : Z;
  offsetInChunk : Z;
  (** the event which gets signaled when the GPU is done with the memory *)
  doneEvent : GpuEvent;
  locked : bool
}.

Record ID3D12Resource := mkResource {
  com_ptr : Handle;
  (** [GetDesc().Width] *)
  Width : Z
}.

Record Chunk := mkChunk {
  capacityInBytes : Z;
  resource : ID3D12Resource;
  allocations : list Allocation
}.

Definition D3D12_RESOURCE_STATE_COPY_DEST : Z := 0x400.
Definition D3D12_RESOURCE_STATE_GENERIC_READ : Z := 0xAC3.

(** [ReusableCopyKey]: the key that identifies a cached copy command list *)
Record ReusableCopyKey := mkReusableCopyKey {
  dstResource : Handle;
  dstOffset : Z;
  srcSizeInBytes : Z
}.

#[global] Instance ReusableCopyKey_eq_dec : EqDecision ReusableCopyKey.
Proof. solve_decision. Defined.

#[global] Instance ReusableCopyKey_countable : Countable ReusableCopyKey :=
  inj_countable'
    (fun k => (dstResource k, dstOffset k, srcSizeInBytes k))
    (fun t => mkReusableCopyKey t.1.1 t.1.2 t.2)
    (fun k => match k with mkReusableCopyKey _ _ _ => eq_refl end).

Record ReusableCopyCommandListState := mkCommandListState {
  (** ghost: the address of the node of [std::list<ReusableCopyCommandListState>]
      that holds the record; an iterator into the list is such an address *)
  node : nat;
  commandAllocator : Handle;
  commandList : Handle;
  (** pointer to an [Allocation]: the address of a node of a chunk's allocation list *)
  allocation : nat;
  (** raw pointer to the chunk's resource *)
  chunkResource : Handle
}.

Record PooledUploadHeap := mkHeap {
  m_chunks : list Chunk;
  m_totalCapacity : Z;
  m_reusableCommandLists : list ReusableCopyCommandListState;
  m_reusableCommandListsCache : gmap ReusableCopyKey nat;
  (** ghost: the next address the node allocator hands out *)
  next_address : nat
}.

Definition set_chunks (f : list Chunk -> list Chunk) (h : PooledUploadHeap) :=
  mkHeap (f (m_chunks h)) (m_totalCapacity h) (m_reusableCommandLists h)
         (m_reusableCommandListsCache h) (next_address h).
Definition set_totalCapacity (f : Z -> Z) (h : PooledUploadHeap) :=
  mkHeap (m_chunks h) (f (m_totalCapacity h)) (m_reusableCommandLists h)
         (m_reusableCommandListsCache h) (next_address h).
Definition set_reusableCommandLists
    (f : list ReusableCopyCommandListState -> list ReusableCopyCommandListState)
    (h : PooledUploadHeap) :=
  mkHeap (m_chunks h) (m_totalCapacity h) (f (m_reusableCommandLists h))
         (m_reusableCommandListsCache h) (next_address h).
Definition set_reusableCommandListsCache
    (f : gmap ReusableCopyKey nat -> gmap ReusableCopyKey nat) (h : PooledUploadHeap) :=
  mkHeap (m_chunks h) (m_totalCapacity h) (m_reusableCommandLists h)
         (f (m_reusableCommandListsCache h)) (next_address h).
Definition set_next_address (f : nat -> nat) (h : PooledUploadHeap) :=
  mkHeap (m_chunks h) (m_totalCapacity h) (m_reusableCommandLists h)
         (m_reusableCommandListsCache h) (f (next_address h)).

Definition set_allocations (f : list Allocation -> list Allocation) (c : Chunk) : Chunk :=
  mkChunk (capacityInBytes c) (resource c) (f (allocations c)).

(** the heap right after construction *)
Definition empty_heap : PooledUploadHeap := mkHeap [] 0 [] ∅ 0%nat.

(** a [gsl::span<const std::byte>]: the source bytes are identified by their buffer *)
Record Span := mkSpan {
  span_data : Handle;
  span_size : Z
}.

(** ** The device and the execution context

    Both are external. A call on them is recorded in a log; what it answers is
    given by an [Env], one per public operation of the heap. *)

Inductive Call :=
| CreateCommittedResource (sizeInBytes : Z)
| CreateCommandAllocator
| CreateCommandList (allocator : Handle)
| Map (res : Handle)
| Memcpy (res : Handle) (offsetInChunk : Z) (src : Span)
| Unmap (res : Handle)
| QueueReference (object : Handle)
| CopyBufferRegion (dst : Handle) (dstOffset dstState : Z)
                   (src : Handle) (srcOffset srcState byteCount : Z)
| ListResourceBarrier (list dst : Handle) (stateBefore stateAfter : Z)
| ListCopyBufferRegion (list dst : Handle) (dstOffset : Z)
                       (src : Handle) (srcOffset byteCount : Z)
| ListClose (list : Handle)
| ExecuteCommandList (list : Handle).

Record Env := mkEnv {
  (** [GpuEvent::IsSignaled] *)
  env_IsSignaled : GpuEvent -> bool;
  (** [ExecutionContext::GetCurrentCompletionEvent], which depends on what has
      been submitted so far *)
  env_GetCurrentCompletionEvent : list Call -> GpuEvent;
  (** the buffer the device creates, [None] when it fails *)
  env_CreateCommittedResource : option Handle;
  env_CreateCommandAllocator : option Handle;
  env_CreateCommandList : option Handle;
  (** whether mapping, the copy submission and the execution succeed *)
  env_Map : bool;
  env_CopyBufferRegion : bool;
  env_ExecuteCommandList : bool
}.

Record State := mkState {
  heap : PooledUploadHeap;
  log : list Call
}.

(** what a call does: it returns, it throws, or its behaviour is undefined
    (a dangling pointer or iterator is dereferenced, [front] of an empty list) *)
Inductive Outcome (A : Type) : Type :=
| Returns (a : A) (s : State)
| Throws (s : State)
| Undefined.
Arguments Returns {A} a s.
Arguments Throws {A} s.
Arguments Undefined {A}.

Definition M (A : Type) : Type := State -> Outcome A.

#[global] Instance M_ret : MRet M := fun A a s => Returns a s.
#[global] Instance M_bind : MBind M := fun A B f m s =>
  match m s with
  | Returns a s' => f a s'
  | Throws s' => Throws s'
  | Undefined => Undefined
  end.

Definition get_heap : M PooledUploadHeap := fun s => Returns (heap s) s.
Definition modify_heap (f : PooledUploadHeap -> PooledUploadHeap) : M unit :=
  fun s => Returns tt (mkState (f (heap s)) (log s)).
Definition get_log : M (list Call) := fun s => Returns (log s) s.
Definition call (c : Call) : M unit :=
  fun s => Returns tt (mkState (heap s) (log s ++ [c])).
Definition throw {A} : M A := fun s => Throws s.
Definition undefined {A} : M A := fun _ => Undefined.

Definition ORT_THROW_IF_FAILED (succeeded : bool) : M unit :=
  if succeeded then mret tt else throw.
Definition ORT_THROW_IF_NULL {A} (result : option A) : M A :=
  match result with Some a => mret a | None => throw end.
(** [if (condition) { ... }] *)
Definition when (condition : bool) (body : M unit) : M unit :=
  if condition then body else mret tt.
(** dereferences a pointer or an iterator *)
Definition deref {A} (target : option A) : M A :=
  match target with Some a => mret a | None => undefined end.

(** the record an [Allocation] pointer points to *)
Definition find_allocation (p : nat) (chunks : list Chunk) : option Allocation :=
  snd <$> list_find (fun a => address a = p) (chunks ≫= allocations).
(** assignment through an [Allocation] pointer *)
Definition update_allocation (p : nat) (f : Allocation -> Allocation)
    (chunks : list Chunk) : list Chunk :=
  set_allocations (fmap (fun a => if decide (address a = p) then f a else a)) <$> chunks.
Definition set_locked (v : bool) (a : Allocation) : Allocation :=
  mkAllocation (address a) (sizeInBytes a) (offsetInChunk a) (doneEvent a) v.
Definition set_doneEvent (v : GpuEvent) (a : Allocation) : Allocation :=
  mkAllocation (address a) (sizeInBytes a) (offsetInChunk a) v (locked a).
(** the entry an iterator into [m_reusableCommandLists] points to *)
Definition find_node (it : nat) (l : list ReusableCopyCommandListState)
    : option ReusableCopyCommandListState :=
  snd <$> list_find (fun e => node e = it) l.
(** [std::list::empty] *)
Definition empty {A} (l : list A) : bool :=
  match l with [] => true | _ => false end.
(** whether a raw resource pointer still points to the buffer of a chunk *)
Definition find_resource (p : Handle) (chunks : list Chunk) : option Chunk :=
  snd <$> list_find (fun c => com_ptr (resource c) = p) chunks.

(** the public operations of the heap *)
Inductive Operation :=
| OpBeginUploadToGpu (dst : Handle) (dstOffset dstState : Z) (src : Span)
| OpBeginReusableUploadToGpu (dst : Handle) (dstOffset dstState : Z) (src : Span)
| OpTrim.

(** the heap a call leaves behind, whether it returns or throws *)
Definition final_heap {A} (o : Outcome A) : option PooledUploadHeap :=
  match o with
  | Returns _ s => Some (heap s)
  | Throws s => Some (heap s)
  | Undefined => None
  end.

(** the heap after a call that returns or throws, for chaining calls *)
Definition heap_after {A} (o : Outcome A) : PooledUploadHeap :=
  default empty_heap (final_heap o).

(** the log of a call that returns or throws *)
Definition log_after {A} (o : Outcome A) : list Call :=
  match o with
  | Returns _ s => log s
  | Throws s => log s
  | Undefined => []
  end.

(** an environment in which every call succeeds and no event is signaled yet;
    [n] numbers the objects the device creates *)
Definition env_ok (n : nat) : Env :=
  mkEnv (fun _ => false) (fun submitted => Z.of_nat (n + length submitted))
        (Some (100 + n)%nat) (Some (200 + n)%nat) (Some (300 + n)%nat) true true true.

(** the same environment, except that the execution of a command list fails *)
Definition env_execute_fails (n : nat) : Env :=
  mkEnv (fun _ => false) (fun submitted => Z.of_nat (n + length submitted))
        (Some (100 + n)%nat) (Some (200 + n)%nat) (Some (300 + n)%nat) true true false.

(** a source buffer of [size] bytes *)
Definition bytes (size : Z) : Span := mkSpan 1%nat size.

Section Placement.

(** constants of [PooledUploadHeap.h] *)
Variable c_minChunkSize : Z.
Variable c_allocationAlignment : Z.
Variable maxReusableCommandLists : nat.

Definition Align (offset alignment : Z) : Z :=
  Z.land (SizeT.sub (SizeT.add offset alignment) 1)
         (SizeT.lnot (SizeT.sub alignment 1)).

Definition FindOffsetForAllocation (chunk : Chunk) (size : Z) : option Z :=
  if capacityInBytes chunk <? size then None
  else
    match allocations chunk, last (allocations chunk) with
    | firstAllocation :: _, Some lastAllocation =>
        let newAllocationBegin :=
          SizeT.add (offsetInChunk lastAllocation) (sizeInBytes lastAllocation) in
        let newAllocationBegin := Align newAllocationBegin c_allocationAlignment in
        if SizeT.add newAllocationBegin size <? newAllocationBegin then None
        else if offsetInChunk firstAllocation <=? offsetInChunk lastAllocation then
          if SizeT.add newAllocationBegin size <=? capacityInBytes chunk
          then Some newAllocationBegin
          else
            let newAllocationBegin := 0 in
            if SizeT.add newAllocationBegin size <=? offsetInChunk firstAllocation
            then Some newAllocationBegin
            else None
        else
          if SizeT.add newAllocationBegin size <=? offsetInChunk firstAllocation
          then Some newAllocationBegin
          else None
    | _, _ => Some 0
    end.

(** the loop of [Reserve] over [m_chunks]; a chunk pointer is an index *)
Fixpoint Reserve_loop (chunks : list Chunk) (index : nat) (sizeInBytes : Z)
    : option (nat * Z) :=
  match chunks with
  | [] => None
  | chunk :: rest =>
      match FindOffsetForAllocation chunk sizeInBytes with
      | Some offsetForAllocation => Some (index, offsetForAllocation)
      | None => Reserve_loop rest (S index) sizeInBytes
      end
  end.

Definition reclaimable (env : Env) (allocation : Allocation) : bool :=
  negb (locked allocation) && env_IsSignaled env (doneEvent allocation).

(** [std::is_sorted] with [chunkCapacityComparer] *)
Fixpoint is_sorted (chunks : list Chunk) : bool :=
  match chunks with
  | lhs :: (rhs :: _) as rest =>
      negb (capacityInBytes rhs <? capacityInBytes lhs) && is_sorted rest
  | _ => true
  end.

Definition allocOffsetComparer (lhs rhs : Allocation) : Prop :=
  offsetInChunk lhs < offsetInChunk rhs.

(** the order [std::sort] establishes: no element is followed by one that
    compares less *)
Definition not_after (lhs rhs : Allocation) : Prop := ~ allocOffsetComparer rhs lhs.

#[global] Instance not_after_dec : RelDecision not_after.
Proof. intros lhs rhs. unfold not_after, allocOffsetComparer. apply _. Defined.

(** [std::sort] with [allocOffsetComparer] *)
Definition sort_by_offset (l : list Allocation) : list Allocation :=
  merge_sort not_after l.

(** the loop over [allocationsSortedByOffset] *)
Fixpoint no_overlap_sorted (l : list Allocation) : bool :=
  match l with
  | alloc :: (nextAlloc :: _) as rest =>
      (SizeT.add (offsetInChunk alloc) (sizeInBytes alloc) <=? offsetInChunk nextAlloc)
      && no_overlap_sorted rest
  | _ => true
  end.

Definition calculatedCapacity (chunks : list Chunk) : Z :=
  fold_left (fun total chunk => SizeT.add total (capacityInBytes chunk)) chunks 0.

(** whether every assertion of [AssertInvariants] passes *)
Definition AssertInvariants (h : PooledUploadHeap) : bool :=
  is_sorted (m_chunks h)
  && forallb (fun chunk => capacityInBytes chunk =? Width (resource chunk)) (m_chunks h)
  && forallb (fun chunk =>
       forallb (fun alloc =>
         (SizeT.add (offsetInChunk alloc) (sizeInBytes alloc) <=? capacityInBytes chunk)
         && (offsetInChunk alloc mod c_allocationAlignment =? 0))
         (allocations chunk)) (m_chunks h)
  && forallb (fun chunk => no_overlap_sorted (sort_by_offset (allocations chunk)))
       (m_chunks h)
  && (calculatedCapacity (m_chunks h) =? m_totalCapacity h).

Section Operations.

Variable env : Env.

Definition CreateChunk (sizeInBytes : Z) : M Chunk :=
  call (CreateCommittedResource sizeInBytes);;
  uploadBuffer ← ORT_THROW_IF_NULL (env_CreateCommittedResource env);
  mret (mkChunk sizeInBytes (mkResource uploadBuffer sizeInBytes) []).

Definition Reserve (sizeInBytes : Z) : M (nat * Z) :=
  h ← get_heap;
  match Reserve_loop (m_chunks h) 0 sizeInBytes with
  | Some found => mret found
  | None =>
      let newChunkSize :=
        Z.max (Z.max (m_totalCapacity h) c_minChunkSize) sizeInBytes in
      chunk ← CreateChunk newChunkSize;
      modify_heap (set_chunks (fun chunks => chunks ++ [chunk]));;
      modify_heap (set_totalCapacity (fun total => SizeT.add total newChunkSize));;
      h ← get_heap;
      mret (Nat.pred (length (m_chunks h)), 0)
  end.

Definition ReclaimAllocations : M unit :=
  modify_heap (set_chunks (fmap (set_allocations
    (filter (fun allocation => ¬ reclaimable env allocation))))).

Definition GetCurrentCompletionEvent : M GpuEvent :=
  submitted ← get_log;
  mret (env_GetCurrentCompletionEvent env submitted).

(** [chunk->allocations.push_back(...)]; returns [&chunk->allocations.back()] *)
Definition push_back_allocation (chunk : nat) (size offset : Z)
    (done : GpuEvent) (lock : bool) : M nat :=
  h ← get_heap;
  let back := next_address h in
  modify_heap (set_chunks (alter (set_allocations
    (fun l => l ++ [mkAllocation back size offset done lock])) chunk));;
  modify_heap (set_next_address S);;
  mret back.

(** map, copy the source bytes, unmap *)
Definition MapCopyUnmap (res : Handle) (offsetInChunk : Z) (src : Span) : M unit :=
  call (Map res);;
  ORT_THROW_IF_FAILED (env_Map env);;
  call (Memcpy res offsetInChunk src);;
  call (Unmap res).

Definition BeginUploadToGpu (dst : Handle) (dstOffset dstState : Z) (src : Span)
    : M GpuEvent :=
  ReclaimAllocations;;
  '(chunk, offsetInChunk) ← Reserve (span_size src);
  h ← get_heap;
  c ← deref (m_chunks h !! chunk);
  MapCopyUnmap (com_ptr (resource c)) offsetInChunk src;;
  call (CopyBufferRegion dst dstOffset dstState (com_ptr (resource c)) offsetInChunk
          D3D12_RESOURCE_STATE_GENERIC_READ (span_size src));;
  ORT_THROW_IF_FAILED (env_CopyBufferRegion env);;
  doneEvent ← GetCurrentCompletionEvent;
  push_back_allocation chunk (span_size src) offsetInChunk doneEvent false;;
  mret doneEvent.

(** the body of [if (cacheIter == end() && size() == maxReusableCommandLists)] *)
Definition EvictFront (key : ReusableCopyKey) : M unit :=
  h ← get_heap;
  front ← deref (head (m_reusableCommandLists h));
  call (QueueReference (commandList front));;
  call (QueueReference (commandAllocator front));;
  _ ← deref (find_allocation (allocation front) (m_chunks h));
  modify_heap (set_chunks (update_allocation (allocation front) (set_locked false)));;
  modify_heap (set_reusableCommandLists (@tail _));;
  modify_heap (set_reusableCommandListsCache (delete key)).

Definition needs_transition (dstState : Z) : bool :=
  Z.land dstState D3D12_RESOURCE_STATE_COPY_DEST =? 0.

(** the branch [cacheIter == end()] *)
Definition RecordAndExecute (key : ReusableCopyKey)
    (dst : Handle) (dstOffset dstState : Z) (src : Span) : M unit :=
  '(chunk, offsetInChunk) ← Reserve (span_size src);
  h ← get_heap;
  c ← deref (m_chunks h !! chunk);
  call CreateCommandAllocator;;
  allocator ← ORT_THROW_IF_NULL (env_CreateCommandAllocator env);
  call (CreateCommandList allocator);;
  commandList ← ORT_THROW_IF_NULL (env_CreateCommandList env);
  MapCopyUnmap (com_ptr (resource c)) offsetInChunk src;;
  when (needs_transition dstState)
    (call (ListResourceBarrier commandList dst dstState D3D12_RESOURCE_STATE_COPY_DEST));;
  call (ListCopyBufferRegion commandList dst dstOffset (com_ptr (resource c))
          offsetInChunk (span_size src));;
  when (needs_transition dstState)
    (call (ListResourceBarrier commandList dst D3D12_RESOURCE_STATE_COPY_DEST dstState));;
  call (ListClose commandList);;
  doneEvent ← GetCurrentCompletionEvent;
  back ← push_back_allocation chunk (span_size src) offsetInChunk doneEvent true;
  call (ExecuteCommandList commandList);;
  ORT_THROW_IF_FAILED (env_ExecuteCommandList env);;
  h ← get_heap;
  let it := next_address h in
  let commandListState :=
    mkCommandListState it allocator commandList back (com_ptr (resource c)) in
  modify_heap (set_reusableCommandLists (fun l => l ++ [commandListState]));;
  modify_heap (set_next_address S);;
  (** [emplace] inserts only when the key is absent *)
  modify_heap (set_reusableCommandListsCache (fun cache =>
    match cache !! key with Some _ => cache | None => <[key := it]> cache end)).

(** the branch [cacheIter != end()] *)
Definition ReExecute (cacheIter : nat) (src : Span) : M unit :=
  h ← get_heap;
  entry ← deref (find_node cacheIter (m_reusableCommandLists h));
  staging ← deref (find_allocation (allocation entry) (m_chunks h));
  let offsetInChunk := offsetInChunk staging in
  let chunkResource := chunkResource entry in
  _ ← deref (find_resource chunkResource (m_chunks h));
  MapCopyUnmap chunkResource offsetInChunk src;;
  call (ExecuteCommandList (commandList entry));;
  ORT_THROW_IF_FAILED (env_ExecuteCommandList env);;
  current ← GetCurrentCompletionEvent;
  modify_heap (set_chunks (update_allocation (allocation entry) (set_doneEvent current))).

Definition BeginReusableUploadToGpu (dst : Handle) (dstOffset dstState : Z) (src : Span)
    : M GpuEvent :=
  let key := mkReusableCopyKey dst dstOffset (span_size src) in
  h ← get_heap;
  let cacheIter := m_reusableCommandListsCache h !! key in
  when (bool_decide (cacheIter = None)
        && Nat.eqb (length (m_reusableCommandLists h)) maxReusableCommandLists)
    (EvictFront key);;
  ReclaimAllocations;;
  match cacheIter with
  | None => RecordAndExecute key dst dstOffset dstState src
  | Some it => ReExecute it src
  end;;
  doneEvent ← GetCurrentCompletionEvent;
  mret doneEvent.

Definition Trim : M unit :=
  ReclaimAllocations;;
  modify_heap (set_chunks (filter (fun c => ¬ empty (allocations c))));;
  modify_heap (set_totalCapacity (fun _ => 0));;
  h ← get_heap;
  modify_heap (set_totalCapacity (fun _ => calculatedCapacity (m_chunks h))).

End Operations.


(** ** The placement algorithm in the words of the specification *)

(** the smallest multiple of [alignment] that is not below [x] *)
Definition align (x alignment : Z) : Z := (x + alignment - 1) / alignment * alignment.

Definition spec_place_in_chunk (chunk : Chunk) (size : Z) : option Z :=
  if decide (capacityInBytes chunk < size) then None
  else
    match head (allocations chunk), last (allocations chunk) with
    | Some first, Some last =>
        let candidate :=
          align (offsetInChunk last + sizeInBytes last) c_allocationAlignment in
        if decide (SizeT.wrap (candidate + size) < candidate) then None
        else if decide (offsetInChunk first <= offsetInChunk last) then
          (* Case A: the live span does not wrap *)
          if decide (candidate + size <= capacityInBytes chunk) then Some candidate
          else if decide (size <= offsetInChunk first) then Some 0
          else None
        else
          (* Case B: the live span wraps *)
          if decide (candidate + size <= offsetInChunk first) then Some candidate
          else None
    | _, _ => Some 0
    end.

Inductive Placement :=
| InChunk (chunk : nat) (offset : Z)
| InNewChunk (capacity : Z).

Definition spec_placement (chunks : list Chunk) (totalCapacity size : Z) : Placement :=
  match list_find (fun chunk => is_Some (spec_place_in_chunk chunk size)) chunks with
  | Some (index, chunk) => InChunk index (default 0 (spec_place_in_chunk chunk size))
  | None => InNewChunk (Z.max totalCapacity (Z.max c_minChunkSize size))
  end.

(** ** Public operations and the heaps they reach *)

Definition perform (env : Env) (op : Operation) : M (option GpuEvent) :=
  match op with
  | OpBeginUploadToGpu dst dstOffset dstState src =>
      doneEvent ← BeginUploadToGpu env dst dstOffset dstState src; mret (Some doneEvent)
  | OpBeginReusableUploadToGpu dst dstOffset dstState src =>
      doneEvent ← BeginReusableUploadToGpu env dst dstOffset dstState src;
      mret (Some doneEvent)
  | OpTrim => Trim env;; mret None
  end.

(** what the operations assert about their arguments: the source is not
    empty; its size is a [size_t] *)
Definition valid_operation (op : Operation) : Prop :=
  match op with
  | OpBeginUploadToGpu _ _ _ src | OpBeginReusableUploadToGpu _ _ _ src =>
      0 < span_size src < SizeT.modulus
  | OpTrim => True
  end.

(** the heaps reached from the empty one by public operations, each of which
    returns or throws, all the heaps on the way satisfying [P] *)
Inductive reachable (P : PooledUploadHeap -> Prop) : PooledUploadHeap -> Prop :=
| reachable_empty : P empty_heap -> reachable P empty_heap
| reachable_perform h env op h' :
    reachable P h ->
    valid_operation op ->
    final_heap (perform env op (mkState h [])) = Some h' ->
    P h' ->
    reachable P h'.

(** ** The invariants of the upload heap *)

Definition ascending_capacity (chunks : list Chunk) : Prop :=
  StronglySorted (fun lhs rhs => capacityInBytes lhs <= capacityInBytes rhs) chunks.

(** the byte ranges of two allocations have a byte in common *)
Definition overlap (a b : Allocation) : Prop :=
  offsetInChunk a < offsetInChunk b + sizeInBytes b
  /\ offsetInChunk b < offsetInChunk a + sizeInBytes a.

Definition no_overlap (l : list Allocation) : Prop :=
  forall (i j : nat) a b, i <> j -> l !! i = Some a -> l !! j = Some b -> ~ overlap a b.

Definition sum_capacity (chunks : list Chunk) : Z :=
  foldr (fun chunk total => capacityInBytes chunk + total) 0 chunks.

Record Invariants (h : PooledUploadHeap) : Prop := mkInvariants {
  inv_sorted : ascending_capacity (m_chunks h);
  inv_resource :
    Forall (fun chunk => capacityInBytes chunk = Width (resource chunk)) (m_chunks h);
  inv_allocation :
    Forall (fun chunk =>
      Forall (fun alloc =>
        offsetInChunk alloc + sizeInBytes alloc <= capacityInBytes chunk
        /\ offsetInChunk alloc mod c_allocationAlignment = 0) (allocations chunk))
      (m_chunks h);
  inv_no_overlap : Forall (fun chunk => no_overlap (allocations chunk)) (m_chunks h);
  inv_total : m_totalCapacity h = sum_capacity (m_chunks h)
}.

(** the alignment is a power of two below the word size *)
Definition power_of_two (a : Z) : Prop := exists k, 0 <= k < SizeT.bits /\ a = 2 ^ k.

(** the buffers of the pool, and one alignment unit more, fit in the range of
    [size_t] *)
Definition fits_address_space (h : PooledUploadHeap) : Prop :=
  sum_capacity (m_chunks h) + c_allocationAlignment <= SizeT.modulus.

(** *** What the proofs maintain *)

(** the byte range of an allocation: where it starts and how long it is *)
Definition extent (a : Allocation) : Z * Z := (offsetInChunk a, sizeInBytes a).

Definition before (x y : Z * Z) : Prop := x.1 + x.2 <= y.1.

(** a ring buffer in allocation order: one ascending run, followed by a
    second ascending run that lies below the first *)
Definition ring (l : list (Z * Z)) : Prop :=
  exists l1 l2, l = l1 ++ l2
    /\ StronglySorted before l1 /\ StronglySorted before l2
    /\ forall x y, x ∈ l2 -> y ∈ l1 -> before x y.

(** the byte ranges of two allocations follow each other, in either order *)
Definition separate (a b : Allocation) : Prop :=
  before (extent a) (extent b) \/ before (extent b) (extent a).

Definition allocation_wf (capacity : Z) (a : Allocation) : Prop :=
  0 <= offsetInChunk a /\ 0 < sizeInBytes a
  /\ offsetInChunk a + sizeInBytes a <= capacity
  /\ offsetInChunk a mod c_allocationAlignment = 0.

Definition chunk_wf (chunk : Chunk) : Prop :=
  0 <= capacityInBytes chunk
  /\ capacityInBytes chunk = Width (resource chunk)
  /\ Forall (allocation_wf (capacityInBytes chunk)) (allocations chunk)
  /\ ring (extent <$> allocations chunk).

Definition heap_wf (h : PooledUploadHeap) : Prop :=
  Forall chunk_wf (m_chunks h)
  /\ ascending_capacity (m_chunks h)
  /\ m_totalCapacity h = SizeT.wrap (sum_capacity (m_chunks h)).

(** the capacities of the chunks, in their order *)
Definition capacities (h : PooledUploadHeap) : list Z :=
  capacityInBytes <$> m_chunks h.

(** an allocation of [size] bytes may be added to the chunk at [offset] *)
Definition placeable (h : PooledUploadHeap) (chunk : nat) (offset size : Z) : Prop :=
  exists c, m_chunks h !! chunk = Some c
    /\ forall p done lock,
         chunk_wf (set_allocations (fun l => l ++ [mkAllocation p size offset done lock]) c).

(** the heap stays well-formed and its chunks keep their capacities *)
Definition keeps_wf (h h' : PooledUploadHeap) : Prop :=
  (heap_wf h -> heap_wf h') /\ capacities h' = capacities h.

(** the addresses of the allocation records of all chunks *)
Definition addresses (chunks : list Chunk) : list nat :=
  address <$> (chunks ≫= allocations).

(** the node allocator has not handed out the addresses from [next_address]
    on: every allocation record and every cached command list lies below *)
Definition below_next (h : PooledUploadHeap) : Prop :=
  Forall (fun p => (p < next_address h)%nat) (addresses (m_chunks h))
  /\ Forall (fun e => (node e < next_address h)%nat) (m_reusableCommandLists h).

(** the node allocator only moves forward *)
Definition keeps_below (h h' : PooledUploadHeap) : Prop :=
  (below_next h -> below_next h') /\ (next_address h <= next_address h')%nat.

(** [h'] comes from [h] without a new node and without a cache entry for
    [key]: allocation records and cached command lists are at most removed *)
Definition settles (key : ReusableCopyKey) (h h' : PooledUploadHeap) : Prop :=
  next_address h' = next_address h
  /\ addresses (m_chunks h') ⊆ addresses (m_chunks h)
  /\ m_reusableCommandLists h' ⊆ m_reusableCommandLists h
  /\ (m_reusableCommandListsCache h !! key = None ->
      m_reusableCommandListsCache h' !! key = None).

(** the cache maps [key] to the command list [entry], which is in the list
    and refers to the locked allocation [staging] of a chunk that exists *)
Definition cached (key : ReusableCopyKey) (h : PooledUploadHeap)
    (entry : ReusableCopyCommandListState) (staging : Allocation) : Prop :=
  m_reusableCommandListsCache h !! key = Some (node entry)
  /\ find_node (node entry) (m_reusableCommandLists h) = Some entry
  /\ find_allocation (allocation entry) (m_chunks h) = Some staging
  /\ locked staging = true
  /\ is_Some (find_resource (chunkResource entry) (m_chunks h)).

(** what [ReclaimAllocations] leaves of the chunks *)
Definition reclaimed (env : Env) (chunks : list Chunk) : list Chunk :=
  set_allocations (filter (fun allocation => ¬ reclaimable env allocation)) <$> chunks.

(** the chunk's allocations fit the range of [size_t] with room for alignment *)
Definition chunk_in_range (chunk : Chunk) : Prop :=
  0 <= capacityInBytes chunk
  /\ capacityInBytes chunk + c_allocationAlignment <= SizeT.modulus
  /\ Forall (fun a => 0 <= offsetInChunk a /\ 0 <= sizeInBytes a
                      /\ offsetInChunk a + sizeInBytes a <= capacityInBytes chunk)
       (allocations chunk).

(** the cached command list [e] refers to a locked allocation of one of the
    chunks, and to the buffer of that chunk *)
Definition entry_live (chunks : list Chunk) (e : ReusableCopyCommandListState) : Prop :=
  exists c staging,
    c ∈ chunks /\ com_ptr (resource c) = chunkResource e
    /\ staging ∈ allocations c /\ address staging = allocation e
    /\ locked staging = true.

(** no cached command list dangles, and no two share their allocation *)
Definition live (h : PooledUploadHeap) : Prop :=
  NoDup (allocation <$> m_reusableCommandLists h)
  /\ Forall (entry_live (m_chunks h)) (m_reusableCommandLists h).

Definition keeps_live (h h' : PooledUploadHeap) : Prop := live h -> live h'.


(** the nodes of the lists have distinct addresses, none of which the node
    allocator hands out again *)
Definition distinct (h : PooledUploadHeap) : Prop :=
  below_next h
  /\ NoDup (addresses (m_chunks h))
  /\ NoDup (node <$> m_reusableCommandLists h).

Definition keeps_distinct (h h' : PooledUploadHeap) : Prop := distinct h -> distinct h'.


(** the iterator the cache holds for the key of a reusable upload, if it
    holds one, points to a node of [m_reusableCommandLists] *)
Definition iterator_valid (h : PooledUploadHeap) (op : Operation) : Prop :=
  match op with
  | OpBeginReusableUploadToGpu dst dstOffset _ src =>
      forall it,
        m_reusableCommandListsCache h !! mkReusableCopyKey dst dstOffset (span_size src)
          = Some it ->
        is_Some (find_node it (m_reusableCommandLists h))
  | _ => True
  end.


(** the cache keeps its entries *)
Definition keeps_cache (h h' : PooledUploadHeap) : Prop :=
  m_reusableCommandListsCache h ⊆ m_reusableCommandListsCache h'.



(** the allocation records and the node allocator are the same in both heaps *)
Definition same_allocations (h h' : PooledUploadHeap) : Prop :=
  m_chunks h' ≫= allocations = m_chunks h ≫= allocations
  /\ next_address h' = next_address h.


(** the commands of a reusable copy: the copy, between a transition of the
    destination to the copy state and back where it is not in that state *)
Definition recorded_copy (commandList dst : Handle) (dstOffset dstState : Z)
    (res : Handle) (offsetInChunk size : Z) : list Call :=
  (if needs_transition dstState
   then [ListResourceBarrier commandList dst dstState D3D12_RESOURCE_STATE_COPY_DEST]
   else [])
  ++ [ListCopyBufferRegion commandList dst dstOffset res offsetInChunk size]
  ++ (if needs_transition dstState
      then [ListResourceBarrier commandList dst D3D12_RESOURCE_STATE_COPY_DEST dstState]
      else [])
  ++ [ListClose commandList].

(** what a reusable upload that misses the cache leaves: a cached command
    list at the back of the list, its staging allocation at the back of a
    chunk, and the calls it made, the execution being the last *)
Definition recorded (env : Env) (key : ReusableCopyKey) (dstState : Z) (src : Span)
    (s' : State) : Prop :=
  exists entry staging c pre,
    let res := chunkResource entry in
    let before :=
      pre ++ [Map res; Memcpy res (offsetInChunk staging) src; Unmap res]
          ++ recorded_copy (commandList entry) (dstResource key) (dstOffset key) dstState
               res (offsetInChunk staging) (span_size src) in
    last (m_reusableCommandLists (heap s')) = Some entry
    /\ m_reusableCommandListsCache (heap s') !! key = Some (node entry)
    /\ c ∈ m_chunks (heap s') /\ com_ptr (resource c) = res
    /\ last (allocations c) = Some staging
    /\ address staging = allocation entry
    /\ sizeInBytes staging = span_size src /\ locked staging = true
    /\ log s' = before ++ [ExecuteCommandList (commandList entry)]
    /\ doneEvent staging = env_GetCurrentCompletionEvent env before.


(** the sizes of the heap are sizes of memory: no allocation reaches beyond
    the range of [size_t], and neither does the sum of the capacities *)
Definition no_wrap (h : PooledUploadHeap) : Prop :=
  Forall (fun c =>
    0 <= capacityInBytes c
    /\ Forall (fun a => 0 <= offsetInChunk a /\ 0 <= sizeInBytes a
                        /\ offsetInChunk a + sizeInBytes a < SizeT.modulus)
         (allocations c)) (m_chunks h)
  /\ sum_capacity (m_chunks h) < SizeT.modulus.


(** the chunks of a pool that grows by doubling: every chunk has at least
    the minimal size and is at least as large as [base] and the chunks
    before it together *)
Fixpoint doubling_from (base : Z) (chunks : list Chunk) : Prop :=
  match chunks with
  | [] => True
  | c :: rest =>
      c_minChunkSize <= capacityInBytes c /\ base <= capacityInBytes c
      /\ doubling_from (base + capacityInBytes c) rest
  end.

Definition doubling (h : PooledUploadHeap) : Prop := doubling_from 0 (m_chunks h).

(** the chunks keep their capacities *)
Definition keeps_capacities (h h' : PooledUploadHeap) : Prop :=
  capacities h' = capacities h.


(** the allocation record [a] of the chunk [c] is still in the heap: in a
    chunk with the same buffer, at the same address, with the same offset
    and size *)
Definition kept (h' : PooledUploadHeap) (c : Chunk) (a : Allocation) : Prop :=
  exists c' a',
    c' ∈ m_chunks h' /\ resource c' = resource c
    /\ capacityInBytes c' = capacityInBytes c
    /\ a' ∈ allocations c' /\ address a' = address a
    /\ offsetInChunk a' = offsetInChunk a /\ sizeInBytes a' = sizeInBytes a.

(** the allocations that wait for an event that is not signaled are still
    in the heap, as they are but for the lock *)
Definition keeps_busy (env : Env) (h h' : PooledUploadHeap) : Prop :=
  forall c a, c ∈ m_chunks h -> a ∈ allocations c ->
    env_IsSignaled env (doneEvent a) = false ->
    exists c' a',
      c' ∈ m_chunks h' /\ resource c' = resource c
      /\ capacityInBytes c' = capacityInBytes c
      /\ a' ∈ allocations c' /\ address a' = address a
      /\ offsetInChunk a' = offsetInChunk a /\ sizeInBytes a' = sizeInBytes a
      /\ doneEvent a' = doneEvent a.


(** no allocation is left that could be reclaimed, but for the one at the
    address [n] *)
Definition all_reclaimed (env : Env) (n : nat) (h : PooledUploadHeap) : Prop :=
  forall a, a ∈ m_chunks h ≫= allocations ->
    locked a = true \/ env_IsSignaled env (doneEvent a) = false \/ address a = n.


(** the buffers of the pool with their capacities, in the order of the chunks *)
Definition buffers (h : PooledUploadHeap) : list (ID3D12Resource * Z) :=
  (fun c => (resource c, capacityInBytes c)) <$> m_chunks h.

Definition same_buffers (h h' : PooledUploadHeap) : Prop := buffers h' = buffers h.


(** ** A calculus for the outcomes of calls *)

(** [wp m Q T s]: from [s], if [m] returns then [Q] holds of the result and
    the state, and if it throws then [T] holds of the state *)
Definition wp {A} (m : M A) (Q : A -> State -> Prop) (T : State -> Prop) (s : State) : Prop :=
  match m s with
  | Returns a s' => Q a s'
  | Throws s' => T s'
  | Undefined => True
  end.

(** [m] leaves the heap in relation [R] to the heap it started from, whether
    it returns or throws *)
Definition preserves {A} (R : relation PooledUploadHeap) (m : M A) : Prop :=
  forall s, wp m (fun _ s' => R (heap s) (heap s')) (fun s' => R (heap s) (heap s')) s.

(** the cached command lists are the same in both heaps *)
Definition same_lists (h h' : PooledUploadHeap) : Prop :=
  m_reusableCommandLists h' = m_reusableCommandLists h
  /\ m_reusableCommandListsCache h' = m_reusableCommandListsCache h.

(** [total m Q T s]: from [s], [m] returns and [Q] holds of the result and
    the state, or it throws and [T] holds of the state; its behaviour is
    defined *)
Definition total {A} (m : M A) (Q : A -> State -> Prop) (T : State -> Prop) (s : State)
    : Prop :=
  match m s with
  | Returns a s' => Q a s'
  | Throws s' => T s'
  | Undefined => False
  end.


(** ** Arithmetic of [size_t] and of [Align] *)

Lemma modulus_eq : SizeT.modulus = 18446744073709551616.
Proof. reflexivity. Qed.

Lemma wrap_small x : 0 <= x < SizeT.modulus -> SizeT.wrap x = x.
Proof. intros. unfold SizeT.wrap. by apply Z.mod_small. Qed.

Lemma wrap_range x : 0 <= SizeT.wrap x < SizeT.modulus.
Proof. unfold SizeT.wrap. apply Z.mod_pos_bound. by rewrite modulus_eq. Qed.

Lemma wrap_wrap_add x y : SizeT.wrap (SizeT.wrap x + y) = SizeT.wrap (x + y).
Proof. unfold SizeT.wrap. by rewrite Zplus_mod_idemp_l. Qed.

Lemma wrap_wrap_sub x y : SizeT.wrap (SizeT.wrap x - y) = SizeT.wrap (x - y).
Proof. unfold SizeT.wrap. by rewrite Zminus_mod_idemp_l. Qed.

(** an addition that does not wrap is at least its first operand *)
Lemma add_overflow x y :
  0 <= x < SizeT.modulus -> 0 <= y < SizeT.modulus ->
  (SizeT.add x y <? x) = false -> SizeT.add x y = x + y.
Proof.
  intros Hx Hy H. apply Z.ltb_ge in H. unfold SizeT.add in *.
  destruct (decide (x + y < SizeT.modulus)) as [Hlt|Hge].
  - apply wrap_small. lia.
  - exfalso. unfold SizeT.wrap in H.
    assert ((x + y) mod SizeT.modulus = x + y - SizeT.modulus) as E.
    { symmetry. apply (Z.mod_unique_pos _ _ 1); lia. }
    lia.
Qed.

Lemma pow2_le_modulus k : 0 <= k < SizeT.bits -> 0 < 2 ^ k < SizeT.modulus.
Proof.
  intros Hk. unfold SizeT.modulus. split.
  - apply Z.pow_pos_nonneg; lia.
  - apply Z.pow_lt_mono_r; lia.
Qed.

(** masking with the complement of [2^k - 1] clears the low [k] bits *)
Lemma land_lnot_ones y k :
  0 <= k < SizeT.bits -> 0 <= y < SizeT.modulus ->
  Z.land y (SizeT.lnot (2 ^ k - 1)) = y / 2 ^ k * 2 ^ k.
Proof.
  intros Hk Hy.
  rewrite <- Z.shiftr_div_pow2, <- Z.shiftl_mul_pow2 by lia.
  rewrite <- Z.ldiff_ones_r by lia.
  apply Z.bits_inj'. intros i Hi.
  rewrite Z.land_spec, Z.ldiff_spec. unfold SizeT.lnot, SizeT.wrap, SizeT.modulus.
  destruct (decide (i < SizeT.bits)) as [Hlt|Hge].
  - rewrite Z.mod_pow2_bits_low by lia. rewrite Z.lnot_spec by lia.
    by rewrite Z.ones_equiv, <- Z.sub_1_r.
  - rewrite Z.mod_pow2_bits_high by (unfold SizeT.bits in *; lia).
    rewrite andb_false_r.
    assert (Z.testbit y i = false) as ->; [|done].
    destruct (decide (y = 0)) as [->|Hnz]; [apply Z.bits_0|].
    apply Z.bits_above_log2; [lia|].
    apply Z.log2_lt_pow2; [lia|].
    eapply Z.lt_le_trans; [apply Hy|].
    unfold SizeT.modulus. apply Z.pow_le_mono_r; lia.
Qed.

(** [Align] rounds up to a multiple of a power of two, as long as the sum of
    the offset and the alignment is in range *)
Lemma Align_align x k :
  0 <= k < SizeT.bits -> 0 <= x -> x + 2 ^ k <= SizeT.modulus ->
  Align x (2 ^ k) = align x (2 ^ k).
Proof.
  intros Hk Hx Hsum. pose proof (pow2_le_modulus k Hk) as Hp.
  unfold Align, align, SizeT.sub, SizeT.add.
  rewrite wrap_wrap_sub.
  rewrite (wrap_small (x + 2 ^ k - 1)) by lia.
  rewrite (wrap_small (2 ^ k - 1)) by lia.
  apply land_lnot_ones; [done|lia].
Qed.

Lemma align_bounds x a : 0 < a -> x <= align x a < x + a.
Proof.
  intros Ha. unfold align.
  pose proof (Z.div_mod (x + a - 1) a ltac:(lia)) as Hdm.
  pose proof (Z.mod_pos_bound (x + a - 1) a Ha) as Hm. nia.
Qed.

Lemma align_mod x a : 0 < a -> align x a mod a = 0.
Proof. intros Ha. unfold align. apply Z.mod_mul. lia. Qed.

(** ** The placement of [Reserve] *)

Lemma chunk_in_range_last chunk a :
  chunk_in_range chunk -> last (allocations chunk) = Some a ->
  0 <= offsetInChunk a /\ 0 <= sizeInBytes a
  /\ offsetInChunk a + sizeInBytes a <= capacityInBytes chunk.
Proof.
  intros (_ & _ & Hall) Hlast. rewrite Forall_forall in Hall.
  apply Hall. rewrite last_Some in Hlast. destruct Hlast as [l' ->].
  apply elem_of_app. right. by apply list_elem_of_singleton.
Qed.

(** the code places an allocation in a chunk where the specification does *)
Lemma FindOffsetForAllocation_spec chunk size :
  power_of_two c_allocationAlignment ->
  0 < size < SizeT.modulus ->
  chunk_in_range chunk ->
  FindOffsetForAllocation chunk size = spec_place_in_chunk chunk size.
Proof.
  intros (k & Hk & HA) Hsize Hrange.
  unfold FindOffsetForAllocation, spec_place_in_chunk.
  destruct (Z.ltb_spec (capacityInBytes chunk) size); case_decide; try lia; [done|].
  destruct (allocations chunk) as [|firstAllocation rest] eqn:Hal; [done|].
  destruct (last (firstAllocation :: rest)) as [lastAllocation|] eqn:Hlast; [|done].
  rewrite <- Hal in Hlast.
  destruct (chunk_in_range_last _ _ Hrange Hlast) as (Ho & Hs & Hend).
  destruct Hrange as (Hcap0 & Hcap & _).
  pose proof (pow2_le_modulus k Hk) as Hp.
  cbn [head].
  assert (SizeT.add (offsetInChunk lastAllocation) (sizeInBytes lastAllocation)
          = offsetInChunk lastAllocation + sizeInBytes lastAllocation) as ->.
  { unfold SizeT.add. apply wrap_small. lia. }
  rewrite HA in *. rewrite Align_align by lia.
  set (candidate := align _ _).
  assert (0 <= candidate < SizeT.modulus) as Hcand.
  { pose proof (align_bounds (offsetInChunk lastAllocation + sizeInBytes lastAllocation)
                  (2 ^ k) ltac:(lia)). subst candidate. lia. }
  fold (SizeT.add candidate size).
  destruct (SizeT.add candidate size <? candidate) eqn:Hov.
  { apply Z.ltb_lt in Hov. by rewrite decide_True. }
  rewrite decide_False by (apply Z.ltb_ge in Hov; lia).
  rewrite (add_overflow candidate size) by (done || lia).
  assert (SizeT.add 0 size = size) as ->.
  { unfold SizeT.add. apply wrap_small. lia. }
  repeat (case_decide; repeat
    match goal with
    | |- context [?x <=? ?y] => destruct (Z.leb_spec x y)
    end; try lia; try done).
Qed.

Lemma Reserve_loop_spec chunks index size :
  power_of_two c_allocationAlignment ->
  0 < size < SizeT.modulus ->
  Forall chunk_in_range chunks ->
  Reserve_loop chunks index size =
    match list_find (fun chunk => is_Some (spec_place_in_chunk chunk size)) chunks with
    | Some (i, chunk) =>
        Some ((index + i)%nat, default 0 (spec_place_in_chunk chunk size))
    | None => None
    end.
Proof.
  intros HA Hsize Hall. revert index.
  induction Hall as [|chunk chunks Hchunk Hall IH]; intros index; [done|].
  cbn [Reserve_loop list_find]. rewrite FindOffsetForAllocation_spec by done.
  destruct (spec_place_in_chunk chunk size) as [offset|] eqn:Hplace.
  - rewrite decide_True by eauto. cbn. by rewrite Nat.add_0_r, Hplace.
  - rewrite decide_False by (intros [? ?]; done).
    rewrite IH. destruct (list_find _ chunks) as [[i c]|]; cbn; [|done].
    do 2 f_equal. lia.
Qed.

(** C1: for a request of size s > 0, [Reserve] returns the chunk and the offset
    of the specification's placement algorithm: the first chunk in iteration
    order that accepts the request, at the aligned end of its last allocation
    (Case A and Case B, with the overflow guard) or at offset 0, and when no
    chunk accepts, a new chunk of size max(total capacity, minChunkSize, s),
    appended, at offset 0. *)
Theorem C1_Reserve_placement (env : Env) (h : PooledUploadHeap) (submitted : list Call)
    (size : Z) :
  power_of_two c_allocationAlignment ->
  0 < size < SizeT.modulus ->
  Forall chunk_in_range (m_chunks h) ->
  Reserve env size (mkState h submitted) =
    match spec_placement (m_chunks h) (m_totalCapacity h) size with
    | InChunk chunk offset => Returns (chunk, offset) (mkState h submitted)
    | InNewChunk capacity =>
        let submitted' := submitted ++ [CreateCommittedResource capacity] in
        match env_CreateCommittedResource env with
        | Some buffer =>
            Returns (length (m_chunks h), 0)
              (mkState
                 (mkHeap (m_chunks h ++ [mkChunk capacity (mkResource buffer capacity) []])
                         (SizeT.wrap (m_totalCapacity h + capacity))
                         (m_reusableCommandLists h) (m_reusableCommandListsCache h)
                         (next_address h))
                 submitted')
        | None => Throws (mkState h submitted')
        end
    end.
Proof.
  intros HA Hsize Hall.
  unfold Reserve, spec_placement. unfold mbind at 1, M_bind, get_heap. cbn [heap].
  rewrite Reserve_loop_spec by done.
  destruct (list_find _ (m_chunks h)) as [[i c]|]; [done|].
  rewrite (Z.max_assoc (m_totalCapacity h)).
  set (capacity := Z.max (Z.max _ _) _).
  unfold CreateChunk, mbind, M_bind, call, ORT_THROW_IF_NULL, modify_heap, get_heap.
  cbn [heap log].
  destruct (env_CreateCommittedResource env) as [buffer|]; [|done].
  cbn. rewrite length_app. cbn. do 3 f_equal. lia.
Qed.

(** ** Rules of the calculus *)

Lemma wp_bind {A B} (m : M A) (f : A -> M B) Q T s :
  wp m (fun a s' => wp (f a) Q T s') T s -> wp (m ≫= f) Q T s.
Proof. unfold wp, mbind, M_bind. by destruct (m s). Qed.

Lemma wp_mono {A} (m : M A) (Q Q' : A -> State -> Prop) (T T' : State -> Prop) s :
  wp m Q T s -> (forall a s', Q a s' -> Q' a s') -> (forall s', T s' -> T' s') ->
  wp m Q' T' s.
Proof. unfold wp. destruct (m s); auto. Qed.

Lemma wp_ret {A} (a : A) Q T s : Q a s -> wp (mret a) Q T s.
Proof. done. Qed.

Lemma wp_get_heap Q T s : Q (heap s) s -> wp get_heap Q T s.
Proof. done. Qed.

Lemma wp_get_log Q T s : Q (log s) s -> wp get_log Q T s.
Proof. done. Qed.

Lemma wp_modify_heap f Q T s :
  Q tt (mkState (f (heap s)) (log s)) -> wp (modify_heap f) Q T s.
Proof. done. Qed.

Lemma wp_call c Q T s : Q tt (mkState (heap s) (log s ++ [c])) -> wp (call c) Q T s.
Proof. done. Qed.

Lemma wp_throw {A} (Q : A -> State -> Prop) T s : T s -> wp throw Q T s.
Proof. done. Qed.

Lemma wp_undefined {A} (Q : A -> State -> Prop) T s : wp undefined Q T s.
Proof. done. Qed.

Lemma wp_ORT_THROW_IF_FAILED b Q T s :
  (b = true -> Q tt s) -> (b = false -> T s) -> wp (ORT_THROW_IF_FAILED b) Q T s.
Proof. destruct b; cbn; auto. Qed.

Lemma wp_ORT_THROW_IF_NULL {A} (o : option A) Q T s :
  (forall a, o = Some a -> Q a s) -> (o = None -> T s) -> wp (ORT_THROW_IF_NULL o) Q T s.
Proof. destruct o; cbn; auto. Qed.

Lemma wp_deref {A} (o : option A) Q T s :
  (forall a, o = Some a -> Q a s) -> wp (deref o) Q T s.
Proof. destruct o; cbn; auto. Qed.

Lemma wp_when b m Q T s :
  (b = true -> wp m Q T s) -> (b = false -> Q tt s) -> wp (when b m) Q T s.
Proof. destruct b; cbn; auto. Qed.

Lemma wp_MapCopyUnmap env res offset src Q T s :
  (env_Map env = true ->
   Q tt (mkState (heap s) (log s ++ [Map res; Memcpy res offset src; Unmap res]))) ->
  (env_Map env = false -> T (mkState (heap s) (log s ++ [Map res]))) ->
  wp (MapCopyUnmap env res offset src) Q T s.
Proof.
  intros HQ HT. unfold wp, MapCopyUnmap, mbind, M_bind, call, ORT_THROW_IF_FAILED.
  cbn. destruct (env_Map env); cbn.
  - rewrite <- !(assoc_L (++)). by apply HQ.
  - by apply HT.
Qed.

Lemma wp_GetCurrentCompletionEvent env Q T s :
  Q (env_GetCurrentCompletionEvent env (log s)) s ->
  wp (GetCurrentCompletionEvent env) Q T s.
Proof. done. Qed.


(** *** Calls that relate the heap before to the heap after *)

Lemma preserves_wp {A} R (m : M A) (Q : A -> State -> Prop) (T : State -> Prop) s :
  preserves R m ->
  (forall a s', R (heap s) (heap s') -> Q a s') ->
  (forall s', R (heap s) (heap s') -> T s') ->
  wp m Q T s.
Proof. intros Hm HQ HT. eapply wp_mono; [apply Hm|..]; cbn; auto. Qed.

Section Preserves.

Context (R : relation PooledUploadHeap) `{!PreOrder R}.

Lemma preserves_bind {A B} (m : M A) (f : A -> M B) :
  preserves R m -> (forall a, preserves R (f a)) -> preserves R (m ≫= f).
Proof.
  intros Hm Hf s. apply wp_bind. eapply wp_mono; [apply Hm|..]; cbn; [|done].
  intros a s' Hs'. eapply wp_mono; [apply Hf|..]; cbn; intros; by etrans.
Qed.

Lemma preserves_ret {A} (a : A) : preserves R (mret a).
Proof. intros s. by apply wp_ret. Qed.

Lemma preserves_get_heap : preserves R get_heap.
Proof. intros s. by apply wp_get_heap. Qed.

Lemma preserves_get_log : preserves R get_log.
Proof. intros s. by apply wp_get_log. Qed.

Lemma preserves_call c : preserves R (call c).
Proof. intros s. by apply wp_call. Qed.

Lemma preserves_throw {A} : preserves R (@throw A).
Proof. intros s. by apply wp_throw. Qed.

Lemma preserves_undefined {A} : preserves R (@undefined A).
Proof. intros s. apply wp_undefined. Qed.

Lemma preserves_deref {A} (o : option A) : preserves R (deref o).
Proof. intros s. by apply wp_deref. Qed.

Lemma preserves_ORT_THROW_IF_FAILED b : preserves R (ORT_THROW_IF_FAILED b).
Proof. intros s. by apply wp_ORT_THROW_IF_FAILED. Qed.

Lemma preserves_ORT_THROW_IF_NULL {A} (o : option A) : preserves R (ORT_THROW_IF_NULL o).
Proof. intros s. by apply wp_ORT_THROW_IF_NULL. Qed.

Lemma preserves_modify_heap f : (forall h, R h (f h)) -> preserves R (modify_heap f).
Proof. intros Hf s. apply wp_modify_heap. apply Hf. Qed.

Lemma preserves_GetCurrentCompletionEvent env :
  preserves R (GetCurrentCompletionEvent env).
Proof. intros s. by apply wp_GetCurrentCompletionEvent. Qed.

Lemma preserves_when b m : preserves R m -> preserves R (when b m).
Proof. intros Hm. destruct b; [done|]. intros s. by apply wp_ret. Qed.

Lemma preserves_MapCopyUnmap env res offset src :
  preserves R (MapCopyUnmap env res offset src).
Proof.
  unfold MapCopyUnmap.
  repeat (apply preserves_bind; [|intros ?]);
    auto using preserves_call, preserves_ORT_THROW_IF_FAILED.
Qed.

End Preserves.

Create HintDb preserves discriminated.

#[local] Hint Resolve preserves_ret preserves_get_heap preserves_get_log preserves_call
  preserves_throw preserves_undefined preserves_deref preserves_ORT_THROW_IF_FAILED
  preserves_ORT_THROW_IF_NULL preserves_GetCurrentCompletionEvent
  preserves_MapCopyUnmap preserves_when : preserves.

(** steps through a call, one rule of [preserves] after the other; what is
    left are the modifications of the heap *)
Ltac preserving :=
  repeat first
    [ solve [auto 2 with preserves typeclass_instances]
    | simple apply preserves_bind; [..|intros ?]
    | match goal with
      | |- preserves _ (let '(_, _) := ?x in _) => destruct x
      | |- preserves _ (match ?x with Some _ => _ | None => _ end) => destruct x
      | |- preserves _ (if ?b then _ else _) => destruct b
      end ].

#[global] Instance same_lists_preorder : PreOrder same_lists.
Proof.
  split.
  - by intros h.
  - intros h1 h2 h3 [H1 H2] [H3 H4]. split; congruence.
Qed.

(** the calls that leave the cached command lists alone *)

Lemma ReclaimAllocations_same_lists env : preserves same_lists (ReclaimAllocations env).
Proof. unfold ReclaimAllocations. by apply preserves_modify_heap. Qed.

Lemma CreateChunk_preserves R `{!PreOrder R} env size : preserves R (CreateChunk env size).
Proof. unfold CreateChunk. preserving. Qed.

#[local] Hint Resolve ReclaimAllocations_same_lists CreateChunk_preserves : preserves.

Lemma Reserve_same_lists env size : preserves same_lists (Reserve env size).
Proof. unfold Reserve. preserving; by apply preserves_modify_heap. Qed.

Lemma push_back_allocation_same_lists chunk size offset done lock :
  preserves same_lists (push_back_allocation chunk size offset done lock).
Proof. unfold push_back_allocation. preserving; by apply preserves_modify_heap. Qed.

#[local] Hint Resolve Reserve_same_lists push_back_allocation_same_lists : preserves.

Lemma BeginUploadToGpu_same_lists env dst dstOffset dstState src :
  preserves same_lists (BeginUploadToGpu env dst dstOffset dstState src).
Proof. unfold BeginUploadToGpu. preserving. Qed.

Lemma Trim_same_lists env : preserves same_lists (Trim env).
Proof. unfold Trim. preserving; by apply preserves_modify_heap. Qed.

Lemma ReExecute_same_lists env it src : preserves same_lists (ReExecute env it src).
Proof. unfold ReExecute. preserving. by apply preserves_modify_heap. Qed.

#[local] Hint Resolve BeginUploadToGpu_same_lists Trim_same_lists
  ReExecute_same_lists : preserves.

(** steps through a call with the rules of [wp] *)
Ltac wp_step :=
  lazymatch goal with
  | |- wp (mbind _ _) _ _ _ => simple apply wp_bind
  | |- wp (mret _) _ _ _ => simple apply wp_ret
  | |- wp get_heap _ _ _ => simple apply wp_get_heap
  | |- wp get_log _ _ _ => simple apply wp_get_log
  | |- wp (call _) _ _ _ => simple apply wp_call
  | |- wp (modify_heap _) _ _ _ => simple apply wp_modify_heap
  | |- wp (GetCurrentCompletionEvent _) _ _ _ => simple apply wp_GetCurrentCompletionEvent
  | |- wp undefined _ _ _ => simple apply wp_undefined
  | |- wp throw _ _ _ => simple apply wp_throw
  | |- wp (deref _) _ _ _ => simple apply wp_deref; intros ? ?
  | |- wp (ORT_THROW_IF_FAILED _) _ _ _ => simple apply wp_ORT_THROW_IF_FAILED; intros ?
  | |- wp (ORT_THROW_IF_NULL _) _ _ _ =>
      simple apply wp_ORT_THROW_IF_NULL; [intros ? ?|intros ?]
  | |- wp (MapCopyUnmap _ _ _ _) _ _ _ => simple apply wp_MapCopyUnmap; intros ?
  | |- wp (when _ _) _ _ _ => simple apply wp_when; intros ?; try discriminate
  end;
  cbn [heap log].

Ltac wp_steps := repeat wp_step.

(** a call that is known to preserve [R], inside a proof with [wp] *)
Tactic Notation "wp_preserved" constr(R) "as" ident(a) ident(s) ident(H) :=
  try simple apply wp_bind;
  simple apply (preserves_wp R); [solve [auto 3 with preserves typeclass_instances]|..];
  [intros a s H|intros s H].

(** ** The bound of the list of cached command lists *)

Lemma EvictFront_shrinks key s :
  wp (EvictFront key)
     (fun _ s' =>
        S (length (m_reusableCommandLists (heap s'))) = length (m_reusableCommandLists (heap s)))
     (fun _ => False) s.
Proof.
  unfold EvictFront. wp_steps.
  cbn. by destruct (m_reusableCommandLists (heap s)).
Qed.

Lemma RecordAndExecute_grows env key dst dstOffset dstState src s :
  wp (RecordAndExecute env key dst dstOffset dstState src)
     (fun _ s' =>
        length (m_reusableCommandLists (heap s')) = S (length (m_reusableCommandLists (heap s))))
     (fun s' => m_reusableCommandLists (heap s') = m_reusableCommandLists (heap s)) s.
Proof.
  unfold RecordAndExecute.
  wp_preserved same_lists as r s1 Hs1; [|by destruct Hs1].
  destruct r as [chunk offsetInChunk]. destruct Hs1 as [Hl _]. wp_steps; try done.
  all: wp_preserved same_lists as back s2 Hs2; destruct Hs2 as [Hl' _]; cbn in Hl';
    [|congruence].
  all: wp_steps; try congruence.
  all: cbn; rewrite length_app; cbn; rewrite Hl', Hl; lia.
Qed.

(** a public operation keeps the list of cached command lists within its bound *)
Lemma perform_bound env op s :
  (length (m_reusableCommandLists (heap s)) <= maxReusableCommandLists)%nat ->
  wp (perform env op)
     (fun _ s' =>
        (length (m_reusableCommandLists (heap s')) <= maxReusableCommandLists)%nat)
     (fun s' =>
        (length (m_reusableCommandLists (heap s')) <= maxReusableCommandLists)%nat) s.
Proof.
  intros Hbound. destruct op as [dst dstOffset dstState src|dst dstOffset dstState src|];
    unfold perform.
  - wp_preserved same_lists as r s1 Hs1; [wp_steps|]; destruct Hs1 as [-> _]; done.
  - wp_step. unfold BeginReusableUploadToGpu. do 3 wp_step.
    destruct (m_reusableCommandListsCache (heap s) !! _) as [it|] eqn:Hfind.
    + (* hit: nothing is evicted and nothing is added *)
      rewrite bool_decide_eq_false_2 by done. cbn [andb].
      wp_steps.
      wp_preserved same_lists as r s1 Hs1; [|by destruct Hs1 as [-> _]].
      destruct Hs1 as [Hl _]. cbn in Hl.
      wp_preserved same_lists as r2 s2 Hs2; [wp_steps|]; destruct Hs2 as [-> _];
        by rewrite Hl.
    + (* miss: room is made before the new entry is added *)
      rewrite bool_decide_eq_true_2 by done. cbn [andb].
      assert (wp (when (length (m_reusableCommandLists (heap s)) =? maxReusableCommandLists)%nat
                       (EvictFront (mkReusableCopyKey dst dstOffset (span_size src))))
                 (fun _ s' => (length (m_reusableCommandLists (heap s')) < maxReusableCommandLists)%nat)
                 (fun _ => False) s) as Hevict.
      { wp_step.
        - eapply wp_mono; [apply EvictFront_shrinks|..]; cbn; [|done].
          intros _ s' Hs'. apply Nat.eqb_eq in H. lia.
        - apply Nat.eqb_neq in H. lia. }
      eapply wp_mono; [apply Hevict|..]; cbn; [|done].
      intros _ s1 Hs1.
      wp_preserved same_lists as r s2 Hs2; [|destruct Hs2 as [-> _]; lia].
      destruct Hs2 as [Hl _]. cbn in Hl.
      wp_step. eapply wp_mono; [apply RecordAndExecute_grows|..]; cbn.
      * intros _ s3 Hs3. wp_steps. rewrite Hs3, Hl. lia.
      * intros s3 Hs3. rewrite Hs3, Hl. lia.
  - wp_preserved same_lists as r s1 Hs1; [wp_steps|]; destruct Hs1 as [-> _]; done.
Qed.

(** C6: between public operations, the number of entries of
    [m_reusableCommandLists] is at most [maxReusableCommandLists]. *)
Theorem C6_reusable_command_lists_bounded (h : PooledUploadHeap) :
  reachable (fun _ => True) h ->
  (length (m_reusableCommandLists h) <= maxReusableCommandLists)%nat.
Proof.
  induction 1 as [|h env op h' Hreach IH Hvalid Hfinal _].
  - cbn. lia.
  - pose proof (perform_bound env op (mkState h []) IH) as Hwp.
    unfold wp in Hwp. destruct (perform env op (mkState h [])) as [r s'|s'|];
      cbn in Hfinal; simplify_eq; done.
Qed.

(** ** [Trim] *)

(** what [ReclaimAllocations] leaves of a chunk *)
Lemma ReclaimAllocations_returns env s :
  ReclaimAllocations env s =
    Returns tt (mkState
      (set_chunks (fmap (set_allocations
         (filter (fun allocation => ¬ reclaimable env allocation)))) (heap s))
      (log s)).
Proof. done. Qed.

Lemma Trim_returns env s :
  Trim env s =
    let chunks :=
      filter (fun c => ¬ empty (allocations c))
        (set_allocations (filter (fun allocation => ¬ reclaimable env allocation))
           <$> m_chunks (heap s)) in
    Returns tt (mkState
      (mkHeap chunks (calculatedCapacity chunks)
              (m_reusableCommandLists (heap s)) (m_reusableCommandListsCache (heap s))
              (next_address (heap s)))
      (log s)).
Proof. done. Qed.

(** C7: [Trim] never removes a chunk that holds a locked allocation:
    reclamation removes only allocations that are unlocked and whose event is
    signaled, and only the chunks left without allocations are erased. *)
Theorem C7_Trim_keeps_locked_chunks (env : Env) (h : PooledUploadHeap)
    (submitted : list Call) (chunk : Chunk) (a : Allocation) :
  chunk ∈ m_chunks h ->
  a ∈ allocations chunk ->
  locked a = true ->
  exists h' chunk',
    Trim env (mkState h submitted) = Returns tt (mkState h' submitted)
    /\ chunk' ∈ m_chunks h'
    /\ resource chunk' = resource chunk
    /\ capacityInBytes chunk' = capacityInBytes chunk
    /\ allocations chunk' =
         filter (fun x => ~ (locked x = false /\ env_IsSignaled env (doneEvent x) = true))
                (allocations chunk)
    /\ a ∈ allocations chunk'.
Proof.
  intros Hchunk Ha Hlocked.
  set (keep := fun allocation : Allocation => ¬ reclaimable env allocation).
  assert (a ∈ filter keep (allocations chunk)) as Hkept.
  { apply list_elem_of_filter. split; [|done].
    unfold keep, reclaimable. rewrite Hlocked. cbn. tauto. }
  eexists _, (set_allocations (filter keep) chunk).
  split; [apply Trim_returns|]. cbn.
  repeat split; [|apply list_filter_iff|done].
  - apply list_elem_of_filter. split.
    + cbn. destruct (filter keep (allocations chunk)); [inversion Hkept|]. cbn. tauto.
    + apply list_elem_of_fmap. by exists chunk.
  - intros x. unfold keep, reclaimable.
    destruct (locked x), (env_IsSignaled env (doneEvent x)); cbn; intuition congruence.
Qed.

(** ** Ring buffers *)

Lemma StronglySorted_sublist {A} (R : relation A) (l k : list A) :
  l `sublist_of` k -> StronglySorted R k -> StronglySorted R l.
Proof.
  induction 1 as [|x l k Hsub IH|x l k Hsub IH]; [done|..];
    rewrite !StronglySorted_cons; intros [Hall Hk].
  - split; [|by apply IH]. rewrite Forall_forall in *.
    intros y Hy. apply Hall. by eapply elem_of_sublist.
  - by apply IH.
Qed.

Lemma StronglySorted_snoc {A} (R : relation A) (l : list A) (y : A) :
  StronglySorted R l -> (forall x, x ∈ l -> R x y) -> StronglySorted R (l ++ [y]).
Proof.
  intros Hl Hy. apply StronglySorted_app_2; [|done|repeat constructor].
  intros x1 x2 Hx1 ->%list_elem_of_singleton. by apply Hy.
Qed.

Lemma StronglySorted_lookup {A} (R : relation A) (l : list A) (i j : nat) x y :
  StronglySorted R l -> (i < j)%nat -> l !! i = Some x -> l !! j = Some y -> R x y.
Proof.
  intros Hl. revert i j. induction Hl as [|z l Hl IH Hall]; intros i j Hij Hi Hj; [done|].
  destruct j as [|j]; [lia|]. destruct i as [|i]; cbn in *.
  - simplify_eq. rewrite Forall_forall in Hall. apply Hall. by eapply list_elem_of_lookup_2.
  - apply (IH i j); [lia|done..].
Qed.

Lemma ring_nil : ring [].
Proof. exists [], []. repeat split; try constructor. intros x y Hx. inversion Hx. Qed.

Lemma ring_sublist l k : l `sublist_of` k -> ring k -> ring l.
Proof.
  intros Hsub (k1 & k2 & -> & Hk1 & Hk2 & Hcross).
  apply sublist_app_r in Hsub as (l1 & l2 & -> & Hl1 & Hl2).
  exists l1, l2. repeat split; eauto using StronglySorted_sublist.
  intros x y Hx Hy. apply Hcross; by eapply elem_of_sublist.
Qed.

(** in an ascending run, the head starts first and the last element ends last *)
Lemma run_head (l : list (Z * Z)) first x :
  (forall x, x ∈ l -> 0 < x.2) ->
  StronglySorted before l -> head l = Some first -> x ∈ l -> first.1 <= x.1.
Proof.
  intros Hpos Hl [l' ->]%head_Some Hx. apply StronglySorted_cons in Hl as [Hall _].
  apply elem_of_cons in Hx as [->|Hx]; [done|].
  rewrite Forall_forall in Hall. specialize (Hall x Hx). unfold before in Hall.
  specialize (Hpos first ltac:(left)). lia.
Qed.

Lemma run_last (l : list (Z * Z)) final x :
  (forall x, x ∈ l -> 0 < x.2) ->
  StronglySorted before l -> last l = Some final -> x ∈ l ->
  x.1 + x.2 <= final.1 + final.2.
Proof.
  intros Hpos Hl [l' ->]%last_Some Hx.
  apply StronglySorted_app in Hl as (Hcross & _ & _).
  apply elem_of_app in Hx as [Hx| ->%list_elem_of_singleton]; [|done].
  specialize (Hcross x final Hx ltac:(by apply list_elem_of_singleton)).
  unfold before in Hcross.
  specialize (Hpos final ltac:(apply elem_of_app; right; by apply list_elem_of_singleton)).
  lia.
Qed.

(** a ring whose head does not start after its last element is one run *)
Lemma ring_one_run (l : list (Z * Z)) first final :
  (forall x, x ∈ l -> 0 < x.2) ->
  ring l -> head l = Some first -> last l = Some final -> first.1 <= final.1 ->
  StronglySorted before l.
Proof.
  intros Hpos (l1 & l2 & -> & Hl1 & Hl2 & Hcross) Hfirst Hlast Hle.
  destruct l1 as [|x l1]; [done|]. destruct l2 as [|y l2 _] using rev_ind.
  { by rewrite (right_id_L [] (++)). }
  exfalso. cbn in Hfirst. simplify_eq.
  rewrite (assoc_L (++)), last_snoc in Hlast. simplify_eq.
  specialize (Hcross final first
    ltac:(apply elem_of_app; right; by apply list_elem_of_singleton) ltac:(left)).
  unfold before in Hcross.
  specialize (Hpos final ltac:(rewrite (assoc_L (++)); apply elem_of_app; right;
                               by apply list_elem_of_singleton)).
  lia.
Qed.

(** a ring whose head starts after its last element has two runs *)
Lemma ring_two_runs (l : list (Z * Z)) first final :
  (forall x, x ∈ l -> 0 < x.2) ->
  ring l -> head l = Some first -> last l = Some final -> final.1 < first.1 ->
  exists l1 l2, l = l1 ++ l2
    /\ StronglySorted before l1 /\ StronglySorted before l2
    /\ (forall x y, x ∈ l2 -> y ∈ l1 -> before x y)
    /\ head l1 = Some first /\ last l2 = Some final.
Proof.
  intros Hpos (l1 & l2 & -> & Hl1 & Hl2 & Hcross) Hfirst Hlast Hlt.
  exists l1, l2. repeat split; try done.
  - destruct l1 as [|x l1]; [|done]. exfalso. cbn in *.
    pose proof (run_head l2 first final Hpos Hl2 Hfirst (last_Some_elem_of _ _ Hlast)). lia.
  - destruct l2 as [|y l2 _] using rev_ind.
    + exfalso. rewrite (right_id_L [] (++)) in *.
      pose proof (run_head l1 first final Hpos Hl1 Hfirst (last_Some_elem_of _ _ Hlast)).
      lia.
    + rewrite (assoc_L (++)), last_snoc in Hlast. by rewrite last_snoc.
Qed.

(** the three ways in which [FindOffsetForAllocation] extends a ring *)

Lemma ring_append (l : list (Z * Z)) first final candidate size :
  (forall x, x ∈ l -> 0 < x.2) ->
  ring l -> head l = Some first -> last l = Some final -> first.1 <= final.1 ->
  final.1 + final.2 <= candidate ->
  ring (l ++ [(candidate, size)]).
Proof.
  intros Hpos Hring Hfirst Hlast Hle Hcand.
  pose proof (ring_one_run l _ _ Hpos Hring Hfirst Hlast Hle) as Hrun.
  exists (l ++ [(candidate, size)]), []. rewrite (right_id_L [] (++)).
  repeat split; [|constructor|intros x y Hx; inversion Hx].
  apply StronglySorted_snoc; [done|]. intros x Hx.
  pose proof (run_last l final x Hpos Hrun Hlast Hx). unfold before. cbn. lia.
Qed.

Lemma ring_wrap (l : list (Z * Z)) first final size :
  (forall x, x ∈ l -> 0 < x.2) ->
  ring l -> head l = Some first -> last l = Some final -> first.1 <= final.1 ->
  size <= first.1 ->
  ring (l ++ [(0, size)]).
Proof.
  intros Hpos Hring Hfirst Hlast Hle Hsize.
  pose proof (ring_one_run l _ _ Hpos Hring Hfirst Hlast Hle) as Hrun.
  exists l, [(0, size)]. repeat split; [done|repeat constructor|].
  intros x y ->%list_elem_of_singleton Hy.
  pose proof (run_head l first y Hpos Hrun Hfirst Hy). unfold before. cbn. lia.
Qed.

Lemma ring_fill (l : list (Z * Z)) first final candidate size :
  (forall x, x ∈ l -> 0 < x.2) ->
  ring l -> head l = Some first -> last l = Some final -> final.1 < first.1 ->
  final.1 + final.2 <= candidate -> candidate + size <= first.1 ->
  ring (l ++ [(candidate, size)]).
Proof.
  intros Hpos Hring Hfirst Hlast Hlt Hcand Hfit.
  destruct (ring_two_runs l _ _ Hpos Hring Hfirst Hlast Hlt)
    as (l1 & l2 & -> & Hl1 & Hl2 & Hcross & Hf & Hl).
  exists l1, (l2 ++ [(candidate, size)]). rewrite (assoc_L (++)).
  assert (forall x, x ∈ l1 -> 0 < x.2) as Hpos1.
  { intros x Hx. apply Hpos, elem_of_app. by left. }
  assert (forall x, x ∈ l2 -> 0 < x.2) as Hpos2.
  { intros x Hx. apply Hpos, elem_of_app. by right. }
  repeat split; [done| |].
  - apply StronglySorted_snoc; [done|]. intros x Hx.
    pose proof (run_last l2 final x Hpos2 Hl2 Hl Hx). unfold before. cbn. lia.
  - intros x y [Hx| ->%list_elem_of_singleton]%elem_of_app Hy; [by apply Hcross|].
    pose proof (run_head l1 first y Hpos1 Hl1 Hf Hy). unfold before. cbn. lia.
Qed.

(** the allocations of a ring do not overlap *)
Lemma ring_no_overlap (l : list Allocation) :
  ring (extent <$> l) -> no_overlap l.
Proof.
  intros (l1 & l2 & El & Hl1 & Hl2 & Hcross) i j a b Hij Ha Hb [Hab Hba].
  assert (forall i j a b, (i < j)%nat -> l !! i = Some a -> l !! j = Some b ->
            before (extent a) (extent b) \/ before (extent b) (extent a)) as Hlt.
  { clear i j a b Hij Ha Hb Hab Hba. intros i j a b Hij Ha Hb.
    apply (list_lookup_fmap_Some_2 extent) in Ha, Hb. rewrite El in Ha, Hb.
    apply lookup_app_Some in Ha as [Ha|[Hi Ha]], Hb as [Hb|[Hj Hb]].
    - left. by eapply (StronglySorted_lookup _ l1 i j).
    - right. apply Hcross; by eapply list_elem_of_lookup_2.
    - apply lookup_lt_Some in Hb. lia.
    - left. eapply (StronglySorted_lookup _ l2 (i - length l1) (j - length l1)); [done|lia|done..]. }
  destruct (decide (i < j)%nat) as [Hlt'|Hge].
  - destruct (Hlt i j a b Hlt' Ha Hb) as [H|H]; unfold before, extent in H; cbn in H; lia.
  - destruct (Hlt j i b a ltac:(lia) Hb Ha) as [H|H]; unfold before, extent in H; cbn in H; lia.
Qed.

(** ** Well-formed chunks *)

Lemma chunk_wf_in_range chunk :
  chunk_wf chunk -> capacityInBytes chunk + c_allocationAlignment <= SizeT.modulus ->
  chunk_in_range chunk.
Proof.
  intros (Hcap & _ & Hall & _) Hfit. repeat split; [done..|].
  eapply Forall_impl; [apply Hall|]. intros a (? & ? & ? & ?). lia.
Qed.

Lemma chunk_wf_positive chunk x :
  chunk_wf chunk -> x ∈ extent <$> allocations chunk -> 0 < x.2.
Proof.
  intros (_ & _ & Hall & _) (a & -> & Ha)%list_elem_of_fmap.
  rewrite Forall_forall in Hall. by destruct (Hall a Ha) as (_ & ? & _).
Qed.

(** an allocation placed by [FindOffsetForAllocation] keeps the chunk a ring
    of aligned allocations within its capacity *)
Lemma FindOffsetForAllocation_sound chunk size offset p event lock :
  power_of_two c_allocationAlignment ->
  0 < size < SizeT.modulus ->
  chunk_wf chunk ->
  capacityInBytes chunk + c_allocationAlignment <= SizeT.modulus ->
  FindOffsetForAllocation chunk size = Some offset ->
  chunk_wf (set_allocations (fun l => l ++ [mkAllocation p size offset event lock]) chunk).
Proof.
  intros HA Hsize Hwf Hfit Hfind.
  rewrite FindOffsetForAllocation_spec in Hfind by auto using chunk_wf_in_range.
  pose proof (fun x => chunk_wf_positive chunk x Hwf) as Hpos.
  destruct Hwf as (Hcap & Hres & Hall & Hring).
  destruct HA as (k & Hk & HA). pose proof (pow2_le_modulus k Hk) as Hp.
  assert (forall o, 0 <= o -> o + size <= capacityInBytes chunk ->
            o mod c_allocationAlignment = 0 ->
            ring ((extent <$> allocations chunk) ++ [(o, size)]) ->
            chunk_wf (set_allocations
              (fun l => l ++ [mkAllocation p size o event lock]) chunk)) as Hdone.
  { intros o Ho Hend Hmod Hr. repeat split; cbn; [done..| |by rewrite fmap_app].
    apply Forall_app. split; [done|]. repeat constructor; cbn; lia. }
  unfold spec_place_in_chunk in Hfind.
  case_decide as Hbig; [done|].
  destruct (head (allocations chunk)) as [first|] eqn:Hfirst; cycle 1.
  { simplify_eq. apply head_None in Hfirst. apply Hdone; [lia..| |].
    - apply Z.mod_0_l. lia.
    - rewrite Hfirst. exists [(0, size)], []. repeat split; repeat constructor.
      intros x y Hx. inversion Hx. }
  destruct (last (allocations chunk)) as [final|] eqn:Hlast; cycle 1.
  { apply last_None in Hlast. by rewrite Hlast in Hfirst. }
  cbn zeta in Hfind.
  assert (allocation_wf (capacityInBytes chunk) first) as (Hf0 & Hf1 & Hf2 & _).
  { rewrite Forall_forall in Hall. by apply Hall, head_Some_elem_of. }
  assert (allocation_wf (capacityInBytes chunk) final) as (Hl0 & Hl1 & Hl2 & _).
  { rewrite Forall_forall in Hall. by apply Hall, last_Some_elem_of. }
  assert (head (extent <$> allocations chunk) = Some (extent first)) as Hfirst'.
  { apply head_Some in Hfirst as [l' E]. by rewrite E. }
  assert (last (extent <$> allocations chunk) = Some (extent final)) as Hlast'.
  { by rewrite fmap_last, Hlast. }
  pose proof (align_bounds (offsetInChunk final + sizeInBytes final)
                c_allocationAlignment ltac:(lia)) as Hcand.
  pose proof (align_mod (offsetInChunk final + sizeInBytes final)
                c_allocationAlignment ltac:(lia)) as Hmod.
  set (candidate := align _ _) in *.
  repeat case_decide; simplify_eq.
  - apply Hdone; [lia..|done|]. eapply ring_append; eauto. cbn. lia.
  - apply Hdone; [lia..| |].
    + apply Z.mod_0_l. lia.
    + eapply ring_wrap; eauto.
  - apply Hdone; [lia..|done|]. eapply ring_fill; eauto; cbn; lia.
Qed.

(** removing allocations keeps a chunk well-formed *)
Lemma chunk_wf_filter (P : Allocation -> Prop) `{!forall a, Decision (P a)} chunk :
  chunk_wf chunk -> chunk_wf (set_allocations (filter P) chunk).
Proof.
  intros (Hcap & Hres & Hall & Hring). repeat split; cbn; [done..| |].
  - rewrite Forall_forall in *. intros a [_ Ha]%list_elem_of_filter. by apply Hall.
  - eapply ring_sublist; [|done]. apply fmap_sublist, sublist_filter.
Qed.

(** so does a change of the records that leaves their byte ranges alone *)
Lemma chunk_wf_fmap (g : Allocation -> Allocation) chunk :
  (forall a, extent (g a) = extent a) ->
  chunk_wf chunk -> chunk_wf (set_allocations (fmap g) chunk).
Proof.
  intros Hg (Hcap & Hres & Hall & Hring). repeat split; cbn; [done..| |].
  - apply Forall_fmap. eapply Forall_impl; [done|]. intros a Ha.
    specialize (Hg a). unfold extent in Hg. unfold allocation_wf, compose.
    simplify_eq. by rewrite H, H0.
  - rewrite <- list_fmap_compose.
    by rewrite (list_fmap_ext (extent ∘ g) extent (allocations chunk)) by (intros; apply Hg).
Qed.

Lemma extent_update p (f : Allocation -> Allocation) a :
  (forall a, extent (f a) = extent a) ->
  extent (if decide (address a = p) then f a else a) = extent a.
Proof. intros Hf. by case_decide. Qed.

(** ** Well-formed heaps *)

Lemma ascending_capacity_capacities chunks :
  ascending_capacity chunks <-> StronglySorted Z.le (capacityInBytes <$> chunks).
Proof.
  unfold ascending_capacity. induction chunks as [|c chunks IH]; cbn.
  - split; constructor.
  - rewrite !StronglySorted_cons, IH, Forall_fmap. done.
Qed.

Lemma sum_capacity_capacities chunks :
  sum_capacity chunks = foldr Z.add 0 (capacityInBytes <$> chunks).
Proof.
  unfold sum_capacity. induction chunks as [|c chunks IH]; cbn; [done|]. by rewrite <- IH.
Qed.

Lemma sum_capacity_app chunks chunks' :
  sum_capacity (chunks ++ chunks') = sum_capacity chunks + sum_capacity chunks'.
Proof.
  unfold sum_capacity. induction chunks as [|c chunks IH]; cbn; [done|]. rewrite IH. lia.
Qed.

(** a heap with well-formed chunks, the same capacities and the same total is
    well-formed *)
Lemma heap_wf_same_capacities h h' :
  heap_wf h ->
  capacities h' = capacities h ->
  m_totalCapacity h' = m_totalCapacity h ->
  Forall chunk_wf (m_chunks h') ->
  heap_wf h'.
Proof.
  unfold capacities. intros (_ & Hsorted & Htotal) Hcaps Ht Hall. repeat split; [done|..].
  - apply ascending_capacity_capacities. rewrite Hcaps.
    by apply ascending_capacity_capacities.
  - by rewrite Ht, Htotal, !sum_capacity_capacities, Hcaps.
Qed.

#[global] Instance keeps_wf_preorder : PreOrder keeps_wf.
Proof.
  split.
  - by intros h.
  - intros h1 h2 h3 [H1 H2] [H3 H4]. split; [auto|congruence].
Qed.

(** a change of every chunk that keeps it well-formed, with its capacity *)
Lemma keeps_wf_fmap (F : Chunk -> Chunk) h :
  (forall c, capacityInBytes (F c) = capacityInBytes c) ->
  (forall c, chunk_wf c -> chunk_wf (F c)) ->
  keeps_wf h (set_chunks (fmap F) h).
Proof.
  intros Hcap HF.
  assert (capacities (set_chunks (fmap F) h) = capacities h) as Hcaps.
  { unfold capacities. cbn. rewrite <- list_fmap_compose.
    apply list_fmap_ext. intros _ c _. apply Hcap. }
  split; [|done]. intros Hwf. eapply heap_wf_same_capacities; [done..|].
  cbn. apply Forall_fmap. eapply Forall_impl; [apply Hwf|]. apply HF.
Qed.

Lemma keeps_wf_update p (f : Allocation -> Allocation) h :
  (forall a, extent (f a) = extent a) ->
  keeps_wf h (set_chunks (update_allocation p f) h).
Proof.
  intros Hf. apply keeps_wf_fmap; [done|].
  intros c. apply chunk_wf_fmap. intros a. by apply extent_update.
Qed.

Lemma keeps_wf_lists f g h :
  keeps_wf h (set_reusableCommandLists f h)
  /\ keeps_wf h (set_reusableCommandListsCache g h)
  /\ keeps_wf h (set_next_address S h).
Proof. unfold keeps_wf, heap_wf, capacities. cbn. tauto. Qed.

Lemma ReclaimAllocations_keeps_wf env : preserves keeps_wf (ReclaimAllocations env).
Proof.
  unfold ReclaimAllocations. apply preserves_modify_heap. intros h.
  apply keeps_wf_fmap; [done|]. intros c. apply chunk_wf_filter.
Qed.

Lemma EvictFront_keeps_wf key : preserves keeps_wf (EvictFront key).
Proof.
  unfold EvictFront. preserving; apply preserves_modify_heap; intros h.
  - by apply keeps_wf_update.
  - apply keeps_wf_lists; exact id.
  - apply keeps_wf_lists; exact id.
Qed.

Lemma ReExecute_keeps_wf env it src : preserves keeps_wf (ReExecute env it src).
Proof.
  unfold ReExecute. preserving. apply preserves_modify_heap. intros h.
  by apply keeps_wf_update.
Qed.

#[local] Hint Resolve ReclaimAllocations_keeps_wf EvictFront_keeps_wf
  ReExecute_keeps_wf : preserves.

(** *** [Reserve] and the allocation it prepares *)

Lemma Reserve_loop_Some chunks index size i offset :
  Reserve_loop chunks index size = Some (i, offset) ->
  exists c, chunks !! (i - index)%nat = Some c /\ (index <= i)%nat
    /\ FindOffsetForAllocation c size = Some offset.
Proof.
  revert index. induction chunks as [|c chunks IH]; intros index; cbn; [done|].
  destruct (FindOffsetForAllocation c size) as [o|] eqn:Hfind.
  - intros [= <- <-]. exists c. by rewrite Nat.sub_diag.
  - intros (c' & Hc' & Hle & Hf)%IH. exists c'. split; [|split; [lia|done]].
    replace (i - index)%nat with (S (i - S index)) by lia. done.
Qed.

Lemma sum_capacity_cons c chunks :
  sum_capacity (c :: chunks) = capacityInBytes c + sum_capacity chunks.
Proof. done. Qed.

Lemma sum_capacity_nonneg chunks : Forall chunk_wf chunks -> 0 <= sum_capacity chunks.
Proof.
  induction 1 as [|c ? [? _] ? IH]; [done|]. rewrite sum_capacity_cons. lia.
Qed.

Lemma sum_capacity_bounds chunks c :
  Forall chunk_wf chunks -> c ∈ chunks ->
  0 <= capacityInBytes c <= sum_capacity chunks.
Proof.
  induction 1 as [|c' chunks Hc' Hall IH]; [by intros ?%elem_of_nil|].
  pose proof (sum_capacity_nonneg _ Hall).
  destruct Hc' as [? _]. rewrite sum_capacity_cons.
  intros [->|Hc]%elem_of_cons; [lia|]. specialize (IH Hc). lia.
Qed.

Lemma Reserve_wf env size s :
  power_of_two c_allocationAlignment ->
  0 < size < SizeT.modulus ->
  heap_wf (heap s) -> fits_address_space (heap s) ->
  wp (Reserve env size)
     (fun r s' => heap_wf (heap s') /\ placeable (heap s') r.1 r.2 size
                  /\ same_lists (heap s) (heap s'))
     (fun s' => heap s' = heap s) s.
Proof.
  intros HA Hsize Hwf Hfits. unfold Reserve. wp_steps.
  pose proof Hwf as (Hall & Hsorted & Htotal).
  destruct HA as (k & Hk & HA). pose proof (pow2_le_modulus k Hk) as Hp.
  pose proof (sum_capacity_nonneg _ Hall) as Hsum.
  destruct (Reserve_loop _ _ _) as [[i offset]|] eqn:Hloop.
  - wp_steps. split; [done|]. split; [|done].
    apply Reserve_loop_Some in Hloop as (c & Hc & _ & Hfind).
    rewrite Nat.sub_0_r in Hc. exists c. split; [done|]. intros p event lock.
    apply FindOffsetForAllocation_sound; [by exists k|done| |  |done].
    + eapply Forall_lookup_1; [apply Hall|done].
    + pose proof (sum_capacity_bounds _ c Hall ltac:(by eapply list_elem_of_lookup_2)).
      unfold fits_address_space in Hfits. lia.
  - unfold CreateChunk. wp_steps; [|done].
    set (capacity := Z.max _ size).
    set (chunk := mkChunk capacity _ []).
    assert (chunk_wf chunk) as Hchunk.
    { unfold chunk_wf. cbn. split_and!; [lia|done|constructor|apply ring_nil]. }
    cbn [fst snd m_chunks set_totalCapacity set_chunks].
    rewrite length_app, Nat.add_comm. cbn [length Nat.add Nat.pred].
    split; [|split; [|done]].
    + repeat split; cbn.
      * apply Forall_app. split; [done|by constructor].
      * apply StronglySorted_snoc; [done|]. intros c Hc. cbn.
        pose proof (sum_capacity_bounds _ c Hall Hc).
        unfold fits_address_space in Hfits.
        subst capacity. rewrite Htotal, wrap_small by lia. lia.
      * rewrite sum_capacity_app, Htotal. cbn. unfold SizeT.add.
        rewrite wrap_wrap_add. f_equal. lia.
    + exists chunk. split.
      { cbn. rewrite lookup_app_r by lia. by rewrite Nat.sub_diag. }
      intros p event lock. unfold chunk_wf. cbn. split_and!; [lia|done| |].
      * repeat constructor; cbn; lia.
      * exists [(0, size)], []. split_and!; [done|repeat constructor..|].
        intros x y Hx. inversion Hx.
Qed.

Lemma push_back_allocation_wf chunk size offset event lock s :
  heap_wf (heap s) -> placeable (heap s) chunk offset size ->
  wp (push_back_allocation chunk size offset event lock)
     (fun _ s' => heap_wf (heap s') /\ same_lists (heap s) (heap s'))
     (fun _ => False) s.
Proof.
  intros Hwf (c & Hc & Hplace). unfold push_back_allocation. wp_steps.
  split; [|done]. eapply heap_wf_same_capacities; [done| |done|]; cbn.
  - unfold capacities. cbn. apply list_eq. intros i.
    rewrite !list_lookup_fmap, list_lookup_alter. case_decide; [|done].
    subst i. by rewrite Hc.
  - destruct Hwf as (Hall & _). apply Forall_lookup. intros i c'.
    rewrite list_lookup_alter. case_decide.
    + subst i. rewrite Hc. cbn. intros [= <-]. apply Hplace.
    + by apply Forall_lookup_1.
Qed.

(** uses the specification [lem] of the next call *)
Ltac wp_use lem :=
  try simple apply wp_bind;
  eapply wp_mono; [eapply lem; eauto|intros ? ?; cbn beta|intros ?; cbn beta].

Lemma fits_address_space_capacities h h' :
  capacities h' = capacities h -> fits_address_space h -> fits_address_space h'.
Proof.
  unfold fits_address_space, capacities. intros Hcaps.
  by rewrite !sum_capacity_capacities, Hcaps.
Qed.

Lemma BeginUploadToGpu_wf env dst dstOffset dstState src s :
  power_of_two c_allocationAlignment ->
  0 < span_size src < SizeT.modulus ->
  heap_wf (heap s) -> fits_address_space (heap s) ->
  wp (BeginUploadToGpu env dst dstOffset dstState src)
     (fun _ s' => heap_wf (heap s')) (fun s' => heap_wf (heap s')) s.
Proof.
  intros HA Hsize Hwf Hfits. unfold BeginUploadToGpu.
  wp_preserved keeps_wf as r s1 Hs1; destruct Hs1 as [Hwf1 Hcaps]; [|auto].
  specialize (Hwf1 Hwf). pose proof (fits_address_space_capacities _ _ Hcaps Hfits).
  wp_use Reserve_wf; [|by intros ->].
  intros (Hwf2 & Hplace & _). destruct a as [chunk offsetInChunk].
  wp_steps; try done.
  wp_use push_back_allocation_wf; [|done]. intros [Hwf3 _]. by wp_steps.
Qed.

Lemma RecordAndExecute_wf env key dst dstOffset dstState src s :
  power_of_two c_allocationAlignment ->
  0 < span_size src < SizeT.modulus ->
  heap_wf (heap s) -> fits_address_space (heap s) ->
  wp (RecordAndExecute env key dst dstOffset dstState src)
     (fun _ s' => heap_wf (heap s')) (fun s' => heap_wf (heap s')) s.
Proof.
  intros HA Hsize Hwf Hfits. unfold RecordAndExecute.
  wp_use Reserve_wf; [|by intros ->].
  intros (Hwf2 & Hplace & _). destruct a as [chunk offsetInChunk].
  wp_steps; try done.
  all: wp_use push_back_allocation_wf; [|done]; intros [Hwf3 _]; by wp_steps.
Qed.

Lemma BeginReusableUploadToGpu_wf env dst dstOffset dstState src s :
  power_of_two c_allocationAlignment ->
  0 < span_size src < SizeT.modulus ->
  heap_wf (heap s) -> fits_address_space (heap s) ->
  wp (BeginReusableUploadToGpu env dst dstOffset dstState src)
     (fun _ s' => heap_wf (heap s')) (fun s' => heap_wf (heap s')) s.
Proof.
  intros HA Hsize Hwf Hfits. unfold BeginReusableUploadToGpu. do 2 wp_step.
  wp_preserved keeps_wf as r s1 Hs1; destruct Hs1 as [Hwf1 Hcaps1]; [|auto].
  wp_preserved keeps_wf as r2 s2 Hs2; destruct Hs2 as [Hwf2 Hcaps2]; [|auto].
  assert (fits_address_space (heap s2)) as Hfits2.
  { eapply fits_address_space_capacities; [|done]. congruence. }
  destruct (m_reusableCommandListsCache (heap s) !! _) as [it|].
  - wp_preserved keeps_wf as r3 s3 Hs3; destruct Hs3 as [Hwf3 _]; [|auto].
    wp_steps. auto.
  - wp_use RecordAndExecute_wf; [|done]. intros Hwf3. by wp_steps.
Qed.

Lemma calculatedCapacity_wrap chunks :
  calculatedCapacity chunks = SizeT.wrap (sum_capacity chunks).
Proof.
  unfold calculatedCapacity.
  assert (forall acc,
    fold_left (fun total chunk => SizeT.add total (capacityInBytes chunk)) chunks
              (SizeT.wrap acc) = SizeT.wrap (acc + sum_capacity chunks)) as H.
  { induction chunks as [|c chunks IH]; intros acc.
    - cbn. by rewrite Z.add_0_r.
    - cbn [fold_left]. rewrite sum_capacity_cons.
      change (SizeT.add (SizeT.wrap acc) (capacityInBytes c))
        with (SizeT.wrap (SizeT.wrap acc + capacityInBytes c)).
      rewrite wrap_wrap_add, IH. f_equal. lia. }
  apply (H 0).
Qed.

Lemma Trim_wf env s :
  heap_wf (heap s) ->
  wp (Trim env) (fun _ s' => heap_wf (heap s')) (fun s' => heap_wf (heap s')) s.
Proof.
  intros (Hall & Hsorted & _). unfold wp. rewrite Trim_returns. cbn.
  set (reclaimed := _ <$> m_chunks (heap s)).
  assert (Forall chunk_wf reclaimed) as Hall'.
  { apply Forall_fmap. eapply Forall_impl; [done|]. intros c. apply chunk_wf_filter. }
  assert (ascending_capacity reclaimed) as Hsorted'.
  { apply ascending_capacity_capacities. subst reclaimed.
    rewrite <- list_fmap_compose.
    by apply ascending_capacity_capacities in Hsorted. }
  split_and!; cbn.
  - rewrite Forall_forall in *. intros c [_ Hc]%list_elem_of_filter. by apply Hall'.
  - eapply StronglySorted_sublist; [apply sublist_filter|done].
  - apply calculatedCapacity_wrap.
Qed.

Lemma perform_wf env op s :
  power_of_two c_allocationAlignment ->
  valid_operation op ->
  heap_wf (heap s) -> fits_address_space (heap s) ->
  wp (perform env op) (fun _ s' => heap_wf (heap s')) (fun s' => heap_wf (heap s')) s.
Proof.
  intros HA Hvalid Hwf Hfits.
  destruct op as [dst dstOffset dstState src|dst dstOffset dstState src|]; cbn.
  - wp_use BeginUploadToGpu_wf; [|done]. intros ?. by wp_steps.
  - wp_use BeginReusableUploadToGpu_wf; [|done]. intros ?. by wp_steps.
  - wp_use Trim_wf; [|done]. intros ?. by wp_steps.
Qed.

Lemma reachable_holds P h : reachable P h -> P h.
Proof. by destruct 1. Qed.

Lemma empty_heap_wf : heap_wf empty_heap.
Proof. split_and!; by constructor. Qed.

Lemma reachable_wf h :
  power_of_two c_allocationAlignment ->
  reachable fits_address_space h -> heap_wf h.
Proof.
  intros HA. induction 1 as [|h env op h' Hreach IH Hvalid Hfinal _].
  - apply empty_heap_wf.
  - pose proof (perform_wf env op (mkState h []) HA Hvalid IH
                  (reachable_holds _ _ Hreach)) as Hwp.
    unfold wp in Hwp. destruct (perform env op (mkState h [])) as [r s'|s'|];
      cbn in Hfinal; by simplify_eq.
Qed.

Lemma heap_wf_Invariants h :
  power_of_two c_allocationAlignment ->
  heap_wf h -> fits_address_space h -> Invariants h.
Proof.
  intros (k & Hk & HA) (Hall & Hsorted & Htotal) Hfits.
  pose proof (pow2_le_modulus k Hk) as Hp.
  split; [done|..].
  - eapply Forall_impl; [done|]. by intros c (_ & ? & _).
  - eapply Forall_impl; [done|]. intros c (_ & _ & Hallocs & _).
    eapply Forall_impl; [done|]. by intros a (_ & _ & ? & ?).
  - eapply Forall_impl; [done|]. intros c (_ & _ & _ & Hring).
    by apply ring_no_overlap.
  - rewrite Htotal. apply wrap_small.
    pose proof (sum_capacity_nonneg _ Hall). unfold fits_address_space in Hfits. lia.
Qed.

(** ** The assertions of [AssertInvariants] *)

Lemma StronglySorted_fmap_inv {A B} (f : A -> B) (R1 : relation A) (R2 : relation B) l :
  (forall x y, R2 (f x) (f y) -> R1 x y) ->
  StronglySorted R2 (f <$> l) -> StronglySorted R1 l.
Proof.
  intros HR. induction l as [|x l IH]; [constructor|]. cbn.
  rewrite !StronglySorted_cons, Forall_fmap. intros [Hall Hl]. split; [|by apply IH].
  eapply Forall_impl; [done|]. intros y. apply HR.
Qed.

Lemma StronglySorted_Permutation {A} (R : relation A) `{!Symmetric R} l l' :
  l ≡ₚ l' -> StronglySorted R l -> StronglySorted R l'.
Proof.
  induction 1 as [|x l l' Hperm IH|x y l|l l' l'' _ IH1 _ IH2]; [done|..].
  - rewrite !StronglySorted_cons. intros [Hall Hl]. split; [|by apply IH].
    by rewrite <- Hperm.
  - rewrite !StronglySorted_cons, !Forall_cons.
    intros [[Hyx Hy] [Hx Hl]]. by repeat split.
  - auto.
Qed.

#[global] Instance separate_symmetric : Symmetric separate.
Proof. intros a b [?|?]; [by right|by left]. Qed.

#[global] Instance not_after_total : Total not_after.
Proof. intros a b. unfold not_after, allocOffsetComparer. lia. Qed.

Lemma ring_separate (l : list Allocation) :
  ring (extent <$> l) -> StronglySorted separate l.
Proof.
  intros (k1 & k2 & (l1 & l2 & -> & -> & ->)%fmap_app_inv & Hl1 & Hl2 & Hcross).
  apply StronglySorted_app_2.
  - intros a b Ha Hb. right. apply Hcross; by apply list_elem_of_fmap_2.
  - eapply StronglySorted_fmap_inv; [|done]. intros a b. by left.
  - eapply StronglySorted_fmap_inv; [|done]. intros a b. by left.
Qed.

Lemma no_overlap_sorted_true capacity (l : list Allocation) :
  capacity < SizeT.modulus ->
  Forall (allocation_wf capacity) l ->
  StronglySorted separate l -> Sorted not_after l ->
  no_overlap_sorted l = true.
Proof.
  intros Hcap Hall Hsep Hsorted.
  induction l as [|a [|b l] IH]; [done..|].
  apply StronglySorted_cons in Hsep as [Hab Hsep].
  apply Sorted_inv in Hsorted as [Hsorted Hhd].
  apply Forall_cons in Hall as [Ha Hall].
  change (no_overlap_sorted (a :: b :: l))
    with ((SizeT.add (offsetInChunk a) (sizeInBytes a) <=? offsetInChunk b)
          && no_overlap_sorted (b :: l)).
  rewrite IH by done. rewrite andb_true_r.
  apply Forall_cons in Hab as [Hab _]. apply HdRel_inv in Hhd.
  pose proof Hall as [Hb _]%Forall_cons.
  destruct Ha as (? & ? & ? & _), Hb as (? & ? & ? & _).
  unfold SizeT.add. rewrite wrap_small by lia. apply Z.leb_le.
  unfold not_after, allocOffsetComparer in Hhd.
  unfold separate, before, extent in Hab. cbn in Hab. lia.
Qed.

Lemma is_sorted_true chunks : ascending_capacity chunks -> is_sorted chunks = true.
Proof.
  induction chunks as [|lhs [|rhs chunks] IH]; [done..|].
  intros [[Hle _]%Forall_cons Hrest]%StronglySorted_cons.
  change (is_sorted (lhs :: rhs :: chunks))
    with (negb (capacityInBytes rhs <? capacityInBytes lhs) && is_sorted (rhs :: chunks)).
  rewrite IH by done. rewrite andb_true_r.
  apply negb_true_iff, Z.ltb_ge. done.
Qed.

Lemma forallb_elem_of {A} (f : A -> bool) (l : list A) :
  (forall x, x ∈ l -> f x = true) -> forallb f l = true.
Proof. intros Hf. apply forallb_forall. intros x Hx%list_elem_of_In. by apply Hf. Qed.

(** on a well-formed heap whose buffers fit the address space, every
    assertion of [AssertInvariants] passes *)
Lemma heap_wf_AssertInvariants h :
  power_of_two c_allocationAlignment ->
  heap_wf h -> fits_address_space h -> AssertInvariants h = true.
Proof.
  intros (k & Hk & HA) (Hall & Hsorted & Htotal) Hfits.
  pose proof (pow2_le_modulus k Hk) as Hp.
  assert (forall c, c ∈ m_chunks h -> chunk_wf c /\ capacityInBytes c < SizeT.modulus)
    as Hchunk.
  { intros c Hc. split; [by eapply Forall_forall in Hall|].
    pose proof (sum_capacity_bounds _ c Hall Hc). unfold fits_address_space in Hfits.
    lia. }
  unfold AssertInvariants. rewrite !andb_true_iff. split_and!.
  - by apply is_sorted_true.
  - apply forallb_elem_of. intros c [(_ & ? & _) _]%Hchunk. by apply Z.eqb_eq.
  - apply forallb_elem_of. intros c [(? & _ & Hallocs & _) ?]%Hchunk.
    apply forallb_elem_of. rewrite Forall_forall in Hallocs.
    intros a (? & ? & ? & ?)%Hallocs. apply andb_true_iff. split.
    + unfold SizeT.add. rewrite wrap_small by lia. by apply Z.leb_le.
    + by apply Z.eqb_eq.
  - apply forallb_elem_of. intros c [(? & _ & Hallocs & Hring) ?]%Hchunk.
    unfold sort_by_offset.
    apply (no_overlap_sorted_true (capacityInBytes c)); [done|..].
    + by rewrite merge_sort_Permutation.
    + eapply StronglySorted_Permutation; [apply _| |by apply ring_separate].
      by rewrite merge_sort_Permutation.
    + apply Sorted_merge_sort, _.
  - apply Z.eqb_eq. by rewrite calculatedCapacity_wrap.
Qed.

(** C2: after every public operation of the pooled upload heap the five
    invariants hold: the chunks are sorted by ascending capacity, the capacity
    of a chunk is the size of its resource, every allocation lies within its
    chunk at an aligned offset, no two allocations of a chunk overlap, and
    [m_totalCapacity] is the sum of the capacities; the assertions of the
    debug invariant checker pass. *)
Theorem C2_invariants_after_every_operation (h : PooledUploadHeap) :
  power_of_two c_allocationAlignment ->
  reachable fits_address_space h ->
  Invariants h /\ AssertInvariants h = true.
Proof.
  intros HA Hreach.
  pose proof (reachable_wf h HA Hreach) as Hwf.
  pose proof (reachable_holds _ _ Hreach) as Hfits.
  split; [by apply heap_wf_Invariants|by apply heap_wf_AssertInvariants].
Qed.

(** ** Addresses of allocation records and of cached command lists *)

Lemma allocations_filter (P : Allocation -> Prop) `{!forall a, Decision (P a)} chunks :
  (set_allocations (filter P) <$> chunks) ≫= allocations
  = filter P (chunks ≫= allocations).
Proof.
  induction chunks as [|c chunks IH]; [done|].
  rewrite fmap_cons, !bind_cons, filter_app, IH. done.
Qed.

Lemma allocations_fmap (g : Allocation -> Allocation) chunks :
  (set_allocations (fmap g) <$> chunks) ≫= allocations = g <$> (chunks ≫= allocations).
Proof.
  induction chunks as [|c chunks IH]; [done|].
  rewrite fmap_cons, !bind_cons, fmap_app, IH. done.
Qed.

Lemma allocations_push chunks i c x :
  chunks !! i = Some c ->
  alter (set_allocations (fun l => l ++ [x])) i chunks ≫= allocations
  ≡ₚ x :: (chunks ≫= allocations).
Proof.
  revert i. induction chunks as [|c' chunks IH]; intros i Hi; [done|].
  destruct i as [|i]; cbn in Hi.
  - simplify_eq. cbn [alter list_alter]. rewrite !bind_cons. cbn.
    rewrite <- (assoc_L (++)). cbn. by rewrite <- Permutation_middle.
  - cbn [alter list_alter]. rewrite !bind_cons, (IH i Hi).
    by rewrite <- Permutation_middle.
Qed.

Lemma alter_None {A} (f : A -> A) (l : list A) (i : nat) :
  l !! i = None -> alter f i l = l.
Proof.
  intros Hi. apply list_eq. intros j. rewrite list_lookup_alter.
  case_decide; [|done]. subst j. by rewrite Hi.
Qed.

Lemma addresses_filter (P : Allocation -> Prop) `{!forall a, Decision (P a)} chunks :
  addresses (set_allocations (filter P) <$> chunks) ⊆ addresses chunks.
Proof.
  unfold addresses. rewrite allocations_filter.
  intros p (a & -> & [_ Ha]%list_elem_of_filter)%list_elem_of_fmap.
  by apply list_elem_of_fmap_2.
Qed.

Lemma addresses_update p (f : Allocation -> Allocation) chunks :
  (forall a, address (f a) = address a) ->
  addresses (update_allocation p f chunks) = addresses chunks.
Proof.
  intros Hf. unfold addresses, update_allocation.
  rewrite allocations_fmap, <- list_fmap_compose.
  apply list_fmap_ext. intros _ a _. cbn. case_decide; [apply Hf|done].
Qed.

Lemma addresses_app chunks chunks' :
  addresses (chunks ++ chunks') = addresses chunks ++ addresses chunks'.
Proof. unfold addresses. by rewrite bind_app, fmap_app. Qed.

Lemma addresses_chunks_filter (P : Chunk -> Prop) `{!forall c, Decision (P c)} chunks :
  addresses (filter P chunks) ⊆ addresses chunks.
Proof.
  unfold addresses.
  intros p (a & -> & (c & Ha & [_ Hc]%list_elem_of_filter)%list_elem_of_bind)%list_elem_of_fmap.
  apply list_elem_of_fmap_2, list_elem_of_bind. eauto.
Qed.

#[global] Instance keeps_below_preorder : PreOrder keeps_below.
Proof.
  split.
  - by intros h.
  - intros h1 h2 h3 [H1 H2] [H3 H4]. split; [auto|lia].
Qed.

Lemma keeps_below_chunks f h :
  addresses (f (m_chunks h)) ⊆ addresses (m_chunks h) ->
  keeps_below h (set_chunks f h).
Proof.
  intros Hsub. split; [|done]. intros [Ha Hn]. split; [|done].
  rewrite Forall_forall in *. intros p Hp. by apply Ha, Hsub.
Qed.

Lemma keeps_below_lists f h :
  f (m_reusableCommandLists h) ⊆ m_reusableCommandLists h ->
  keeps_below h (set_reusableCommandLists f h).
Proof.
  intros Hsub. split; [|done]. intros [Ha Hn]. split; [done|].
  rewrite Forall_forall in *. intros e He. by apply Hn, Hsub.
Qed.

Lemma keeps_below_other f g h :
  keeps_below h (set_totalCapacity f h)
  /\ keeps_below h (set_reusableCommandListsCache g h).
Proof. by split. Qed.

Lemma ReclaimAllocations_keeps_below env : preserves keeps_below (ReclaimAllocations env).
Proof.
  apply preserves_modify_heap. intros h. apply keeps_below_chunks, addresses_filter.
Qed.

Lemma tail_subseteq {A} (l : list A) : tail l ⊆ l.
Proof. destruct l; [done|]. intros x Hx. by right. Qed.

Lemma EvictFront_keeps_below key : preserves keeps_below (EvictFront key).
Proof.
  unfold EvictFront. preserving; apply preserves_modify_heap; intros h.
  - apply keeps_below_chunks. by rewrite addresses_update.
  - apply keeps_below_lists, tail_subseteq.
  - apply keeps_below_other; exact id.
Qed.

Lemma ReExecute_keeps_below env it src : preserves keeps_below (ReExecute env it src).
Proof.
  unfold ReExecute. preserving. apply preserves_modify_heap. intros h.
  apply keeps_below_chunks. by rewrite addresses_update.
Qed.

Lemma Reserve_keeps_below env size : preserves keeps_below (Reserve env size).
Proof.
  intros s. unfold Reserve, CreateChunk. wp_steps.
  destruct (Reserve_loop _ _ _) as [found|]; wp_steps; [done| |done].
  etrans; [|apply keeps_below_other; exact id].
  apply keeps_below_chunks. rewrite addresses_app. cbn. by rewrite (right_id_L [] (++)).
Qed.

Lemma push_back_allocation_keeps_below chunk size offset event lock :
  preserves keeps_below (push_back_allocation chunk size offset event lock).
Proof.
  intros s. unfold push_back_allocation. wp_steps. split; [|cbn; lia].
  intros [Ha Hn]. split; cbn.
  - destruct (m_chunks (heap s) !! chunk) as [c|] eqn:Hc.
    + unfold addresses. rewrite (allocations_push _ _ c) by done.
      rewrite fmap_cons. constructor; [cbn; lia|].
      eapply Forall_impl; [done|]. cbn. lia.
    + rewrite alter_None by done.
      eapply Forall_impl; [done|]. cbn. lia.
  - eapply Forall_impl; [done|]. cbn. lia.
Qed.

#[local] Hint Resolve ReclaimAllocations_keeps_below EvictFront_keeps_below
  ReExecute_keeps_below Reserve_keeps_below push_back_allocation_keeps_below : preserves.

Lemma BeginUploadToGpu_keeps_below env dst dstOffset dstState src :
  preserves keeps_below (BeginUploadToGpu env dst dstOffset dstState src).
Proof. unfold BeginUploadToGpu. preserving. Qed.

Lemma Trim_keeps_below env : preserves keeps_below (Trim env).
Proof.
  unfold Trim. preserving; apply preserves_modify_heap; intros h.
  - apply keeps_below_chunks, addresses_chunks_filter.
  - apply keeps_below_other; exact id.
  - apply keeps_below_other; exact id.
Qed.

Lemma RecordAndExecute_keeps_below env key dst dstOffset dstState src :
  preserves keeps_below (RecordAndExecute env key dst dstOffset dstState src).
Proof.
  intros s. unfold RecordAndExecute.
  wp_preserved keeps_below as r s1 Hs1; [|done]. destruct r as [chunk offsetInChunk].
  wp_steps; try done.
  all: wp_preserved keeps_below as back s2 Hs2; [|by etrans].
  all: wp_steps; [|by etrans].
  all: etrans; [done|]; etrans; [done|]; split; [|cbn; lia].
  all: intros [Ha Hn]; split; cbn.
  all: try (eapply Forall_impl; [done|]; cbn; lia).
  all: apply Forall_app; split; [|repeat constructor; cbn; lia].
  all: eapply Forall_impl; [done|]; cbn; lia.
Qed.

#[local] Hint Resolve BeginUploadToGpu_keeps_below Trim_keeps_below
  RecordAndExecute_keeps_below : preserves.

Lemma BeginReusableUploadToGpu_keeps_below env dst dstOffset dstState src :
  preserves keeps_below (BeginReusableUploadToGpu env dst dstOffset dstState src).
Proof. unfold BeginReusableUploadToGpu. preserving. Qed.

#[local] Hint Resolve BeginReusableUploadToGpu_keeps_below : preserves.

Lemma perform_keeps_below env op : preserves keeps_below (perform env op).
Proof. destruct op; cbn; preserving. Qed.

Lemma reachable_below_next h : reachable (fun _ => True) h -> below_next h.
Proof.
  induction 1 as [|h env op h' Hreach IH Hvalid Hfinal _].
  - split; constructor.
  - pose proof (perform_keeps_below env op (mkState h [])) as Hwp.
    unfold wp in Hwp. destruct (perform env op (mkState h [])) as [r s'|s'|];
      cbn in Hfinal; simplify_eq; by apply Hwp.
Qed.

(** ** The cached path *)

#[global] Instance settles_preorder key : PreOrder (settles key).
Proof.
  split.
  - by intros h.
  - intros h1 h2 h3 (H1 & H2 & H3 & H4) (H5 & H6 & H7 & H8).
    split_and!; [congruence|by etrans..|auto].
Qed.

Lemma settles_below key h h' : settles key h h' -> below_next h -> below_next h'.
Proof.
  intros (Hnext & Ha & Hl & _) [Hba Hbl].
  rewrite Forall_forall in Hba. rewrite Forall_forall in Hbl.
  split; apply Forall_forall; rewrite Hnext; [intros p Hp; by apply Hba, Ha|].
  intros e He. by apply Hbl, Hl.
Qed.

Lemma ReclaimAllocations_settles key env : preserves (settles key) (ReclaimAllocations env).
Proof.
  apply preserves_modify_heap. intros h. split_and!; [done| |done..].
  apply addresses_filter.
Qed.

Lemma EvictFront_settles key : preserves (settles key) (EvictFront key).
Proof.
  unfold EvictFront. preserving; apply preserves_modify_heap; intros h.
  - split_and!; [done| |done..]. cbn [m_chunks set_chunks]. by rewrite addresses_update.
  - split_and!; [done..| |done]. apply tail_subseteq.
  - split_and!; [done..|]. intros _. cbn. apply lookup_delete_eq.
Qed.

Lemma Reserve_settles key env size : preserves (settles key) (Reserve env size).
Proof.
  intros s. unfold Reserve, CreateChunk. wp_steps.
  destruct (Reserve_loop _ _ _) as [found|]; wp_steps; [done| |done].
  split_and!; [done| |done..]. cbn [m_chunks set_chunks set_totalCapacity].
  rewrite addresses_app. cbn. by rewrite (right_id_L [] (++)).
Qed.

#[local] Hint Resolve ReclaimAllocations_settles EvictFront_settles
  Reserve_settles : preserves.

(** *** Lookups through pointers *)

Lemma list_find_filter {A} (P Q : A -> Prop) `{!forall x, Decision (P x)}
    `{!forall x, Decision (Q x)} (l : list A) i x :
  list_find P l = Some (i, x) -> Q x -> exists j, list_find P (filter Q l) = Some (j, x).
Proof.
  revert i. induction l as [|y l IH]; intros i; [done|]. cbn [list_find].
  rewrite filter_cons. destruct (decide (P y)) as [HP|HP].
  - intros [= <- <-] HQ. rewrite decide_True by done. exists 0%nat. cbn.
    by rewrite decide_True.
  - destruct (list_find P l) as [[i' x']|] eqn:Hfind; [|done].
    intros [= <- <-] HQ. destruct (IH _ eq_refl HQ) as [j Hj].
    destruct (decide (Q y)).
    + exists (S j). cbn. by rewrite decide_False, Hj.
    + by exists j.
Qed.

Lemma find_allocation_reclaimed env p chunks a :
  find_allocation p chunks = Some a -> locked a = true ->
  find_allocation p (reclaimed env chunks) = Some a.
Proof.
  unfold find_allocation, reclaimed. rewrite allocations_filter.
  destruct (list_find _ (chunks ≫= allocations)) as [[i x]|] eqn:Hfind; [|done].
  intros [= ->] Hlocked.
  eapply (list_find_filter _ (fun allocation => ¬ reclaimable env allocation))
    in Hfind as [j ->]; [done|].
  unfold reclaimable. rewrite Hlocked. cbn. tauto.
Qed.

Lemma find_allocation_update p f chunks a :
  (forall a, address (f a) = address a) ->
  find_allocation p chunks = Some a ->
  find_allocation p (update_allocation p f chunks) = Some (f a).
Proof.
  intros Hf. unfold find_allocation, update_allocation.
  rewrite allocations_fmap, list_find_fmap.
  destruct (list_find _ (chunks ≫= allocations)) as [[i x]|] eqn:Hfind; [|done].
  intros [= ->].
  erewrite (list_find_ext _ (fun a => address a = p)), Hfind.
  - cbn. apply list_find_Some in Hfind as (_ & Hp & _). by rewrite decide_True.
  - intros b. cbn. case_decide; [|done]. by rewrite Hf.
Qed.

Lemma find_resource_fmap p (F : Chunk -> Chunk) chunks :
  (forall c, resource (F c) = resource c) ->
  is_Some (find_resource p chunks) -> is_Some (find_resource p (F <$> chunks)).
Proof.
  intros HF. unfold find_resource. rewrite list_find_fmap.
  rewrite (list_find_ext ((fun c => com_ptr (resource c) = p) ∘ F)
             (fun c => com_ptr (resource c) = p)).
  - rewrite !fmap_is_Some. done.
  - intros c. cbn. by rewrite HF.
Qed.

Lemma find_unique {A} (P : A -> Prop) `{!forall x, Decision (P x)} (l : list A) x :
  x ∈ l -> P x -> (forall y, y ∈ l -> P y -> y = x) ->
  snd <$> list_find P l = Some x.
Proof.
  intros Hx HP Huniq.
  destruct (list_find_elem_of P l x Hx HP) as [[i y] Hfind]. rewrite Hfind. cbn.
  apply list_find_Some in Hfind as (Hy & HPy & _). f_equal.
  apply Huniq; [by eapply list_elem_of_lookup_2|done].
Qed.

(** a call whose key is cached re-executes the cached command list *)
Lemma BeginReusableUploadToGpu_hit env dst dstOffset dstState src h submitted
    entry staging :
  cached (mkReusableCopyKey dst dstOffset (span_size src)) h entry staging ->
  BeginReusableUploadToGpu env dst dstOffset dstState src (mkState h submitted) =
    let res := chunkResource entry in
    let h' := set_chunks (reclaimed env) h in
    if env_Map env then
      let submitted' :=
        submitted ++ [Map res; Memcpy res (offsetInChunk staging) src; Unmap res;
                      ExecuteCommandList (commandList entry)] in
      if env_ExecuteCommandList env then
        let current := env_GetCurrentCompletionEvent env submitted' in
        Returns current
          (mkState (set_chunks (update_allocation (allocation entry)
                                  (set_doneEvent current)) h') submitted')
      else Throws (mkState h' submitted')
    else Throws (mkState h' (submitted ++ [Map res])).
Proof.
  intros (Hcache & Hnode & Halloc & Hlocked & [c Hres]).
  apply (find_allocation_reclaimed env) in Halloc; [|done].
  assert (is_Some (find_resource (chunkResource entry) (reclaimed env (m_chunks h))))
    as [c' Hres'].
  { apply find_resource_fmap; [done|by eexists]. }
  unfold BeginReusableUploadToGpu, ReExecute, ReclaimAllocations, MapCopyUnmap.
  unfold mbind, M_bind, get_heap, modify_heap, call, GetCurrentCompletionEvent, get_log.
  cbn [heap log]. rewrite Hcache.
  rewrite bool_decide_eq_false_2 by done. cbn [andb when mret M_ret].
  cbn [heap log m_chunks m_reusableCommandLists set_chunks].
  fold (reclaimed env (m_chunks h)).
  rewrite Hnode. cbn [deref mret M_ret]. rewrite Halloc. cbn [deref mret M_ret].
  rewrite Hres'. cbn [deref mret M_ret heap log].
  destruct (env_Map env); cbn; [|done].
  rewrite <- !(assoc_L (++)). cbn.
  destruct (env_ExecuteCommandList env); cbn; done.
Qed.

(** a call whose key is not cached allocates one staging slot, records a
    command list for it, executes it and caches it *)
Lemma RecordAndExecute_miss env key dst dstOffset dstState src s :
  below_next (heap s) ->
  m_reusableCommandListsCache (heap s) !! key = None ->
  wp (RecordAndExecute env key dst dstOffset dstState src)
     (fun _ s' => exists entry staging,
        cached key (heap s') entry staging
        /\ sizeInBytes staging = span_size src
        /\ address staging = allocation entry
        /\ allocation entry = next_address (heap s)
        /\ addresses (m_chunks (heap s')) ⊆ (next_address (heap s) :: addresses (m_chunks (heap s)))
        /\ ExecuteCommandList (commandList entry) ∈ log s')
     (fun _ => True) s.
Proof.
  intros Hbelow Hmiss. unfold RecordAndExecute.
  wp_preserved (settles key) as r s1 Hs1; [|done]. destruct r as [chunk offsetInChunk].
  pose proof (settles_below _ _ _ Hs1 Hbelow) as [Hba Hbl].
  destruct Hs1 as (Hnext & Haddr & _ & Hcache). specialize (Hcache Hmiss).
  destruct (needs_transition dstState); unfold push_back_allocation; wp_steps; try done.
  all: match goal with H : m_chunks _ !! _ = Some ?c |- _ =>
         rename H into Hchunk; rename c into c0 end.
  all: set (staging := mkAllocation (next_address (heap s1)) (span_size src)
                         offsetInChunk _ true).
  all: set (entry := mkCommandListState _ _ _ _ _).
  all: exists entry, staging.
  all: pose proof (allocations_push _ _ _ staging Hchunk) as Hperm.
  all: rewrite Forall_forall in Hba; rewrite Forall_forall in Hbl.
  all: split_and!; [split_and!|..]; cbn; try done.
  all: try (by rewrite Hcache, lookup_insert_eq).
  all: try (apply find_unique; [apply elem_of_app; right; by apply list_elem_of_singleton|done|];
            intros y [Hy| ->%list_elem_of_singleton]%elem_of_app Hnode; [|done];
            apply Hbl in Hy; cbn in Hnode; lia).
  all: try (apply find_unique; [rewrite Hperm; by left|done|];
            intros y Hy Hp; rewrite Hperm in Hy;
            apply elem_of_cons in Hy as [->|Hy]; [done|];
            assert (address y ∈ addresses (m_chunks (heap s1))) as Hin
              by (apply list_elem_of_fmap_2; exact Hy);
            apply Hba in Hin; lia).
  all: try (unfold find_resource; apply fmap_is_Some;
            apply (list_find_elem_of _ _
                     (set_allocations (fun l => l ++ [staging]) c0)); [|done];
            eapply list_elem_of_lookup_2; by rewrite list_lookup_alter_eq, Hchunk).
  all: try (unfold addresses; rewrite Hperm, fmap_cons; cbn; rewrite Hnext;
            intros p [->|Hp]%elem_of_cons; [by left|right; by apply Haddr]).
  all: try (apply elem_of_app; right; by apply list_elem_of_singleton).
Qed.

Lemma BeginReusableUploadToGpu_miss env dst dstOffset dstState src s :
  below_next (heap s) ->
  m_reusableCommandListsCache (heap s)
    !! mkReusableCopyKey dst dstOffset (span_size src) = None ->
  wp (BeginReusableUploadToGpu env dst dstOffset dstState src)
     (fun _ s' => exists entry staging,
        cached (mkReusableCopyKey dst dstOffset (span_size src)) (heap s') entry staging
        /\ sizeInBytes staging = span_size src
        /\ address staging = allocation entry
        /\ (allocation entry ∉ addresses (m_chunks (heap s)))
        /\ addresses (m_chunks (heap s')) ⊆ (allocation entry :: addresses (m_chunks (heap s)))
        /\ ExecuteCommandList (commandList entry) ∈ log s')
     (fun _ => True) s.
Proof.
  intros Hbelow Hmiss. unfold BeginReusableUploadToGpu. do 2 wp_step.
  rewrite Hmiss.
  wp_preserved (settles (mkReusableCopyKey dst dstOffset (span_size src))) as r s1 Hs1;
    [|done].
  wp_preserved (settles (mkReusableCopyKey dst dstOffset (span_size src))) as r2 s2 Hs2;
    [|done].
  assert (settles (mkReusableCopyKey dst dstOffset (span_size src)) (heap s) (heap s2))
    as Hs.
  { by etrans. }
  pose proof (settles_below _ _ _ Hs Hbelow) as Hbelow2.
  destruct Hs as (Hnext & Haddr & _ & Hcache). specialize (Hcache Hmiss).
  wp_use RecordAndExecute_miss; [|done].
  intros (entry & staging & Hcached & Hsize & Hstaging & Hfresh & Hsub & Hexec).
  wp_steps. exists entry, staging. split_and!; try done.
  - rewrite Hfresh, Hnext. destruct Hbelow as [Hba _]. rewrite Forall_forall in Hba.
    intros Hin%Hba. lia.
  - rewrite Hfresh. intros p [->|Hp]%Hsub%elem_of_cons; [by left|right; by apply Haddr].
Qed.

(** C4: two consecutive calls of [BeginReusableUploadToGpu] with the same key
    allocate a staging slot once. The first call, a miss, adds one allocation
    record and executes the command list it records. The second call adds no
    record: it copies to the stored offset, executes the stored command list
    without recording one, and leaves the stored allocation with the address,
    offset, size and lock it had and with a [doneEvent] that is the completion
    event the second call returns. *)
Theorem C4_second_call_reuses_staging_slot (h : PooledUploadHeap)
    (dst : Handle) (dstOffset : Z) (env1 env2 : Env) (dstState1 dstState2 : Z)
    (src1 src2 : Span) (event1 : GpuEvent) (s1 : State) :
  reachable (fun _ => True) h ->
  span_size src2 = span_size src1 ->
  m_reusableCommandListsCache h !! mkReusableCopyKey dst dstOffset (span_size src1) = None ->
  BeginReusableUploadToGpu env1 dst dstOffset dstState1 src1 (mkState h [])
    = Returns event1 s1 ->
  exists entry staging,
    find_allocation (allocation entry) (m_chunks (heap s1)) = Some staging
    /\ (address staging ∉ addresses (m_chunks h))
    /\ addresses (m_chunks (heap s1)) ⊆ (address staging :: addresses (m_chunks h))
    /\ ExecuteCommandList (commandList entry) ∈ log s1
    /\ let res := chunkResource entry in
       let submitted :=
         [Map res; Memcpy res (offsetInChunk staging) src2; Unmap res;
          ExecuteCommandList (commandList entry)] in
       let current := env_GetCurrentCompletionEvent env2 submitted in
       exists s2,
         BeginReusableUploadToGpu env2 dst dstOffset dstState2 src2 (mkState (heap s1) [])
           = (if env_Map env2 && env_ExecuteCommandList env2
              then Returns current s2 else Throws s2)
         /\ addresses (m_chunks (heap s2)) ⊆ addresses (m_chunks (heap s1))
         /\ (env_Map env2 = true -> env_ExecuteCommandList env2 = true ->
             log s2 = submitted
             /\ exists staging',
                  find_allocation (allocation entry) (m_chunks (heap s2)) = Some staging'
                  /\ doneEvent staging' = current
                  /\ address staging' = address staging
                  /\ offsetInChunk staging' = offsetInChunk staging
                  /\ sizeInBytes staging' = sizeInBytes staging
                  /\ locked staging' = locked staging).
Proof.
  intros Hreach Hsize Hmiss Hcall1.
  pose proof (BeginReusableUploadToGpu_miss env1 dst dstOffset dstState1 src1
                (mkState h []) (reachable_below_next h Hreach) Hmiss) as Hwp.
  unfold wp in Hwp. rewrite Hcall1 in Hwp. cbn [heap] in Hwp.
  destruct Hwp as (entry & staging & Hcached & _ & Hstaging & Hfresh & Hsub & Hexec).
  exists entry, staging. rewrite Hstaging.
  pose proof Hcached as (_ & _ & Hfind & Hlocked & _).
  split_and!; [done..|]. cbn zeta.
  rewrite <- Hsize in Hcached.
  rewrite (BeginReusableUploadToGpu_hit env2 dst dstOffset dstState2 src2 (heap s1) []
             entry staging Hcached). cbn zeta. cbn [app].
  assert (addresses (reclaimed env2 (m_chunks (heap s1))) ⊆ addresses (m_chunks (heap s1)))
    as Hreclaimed by apply addresses_filter.
  destruct (env_Map env2); cbn [andb].
  - destruct (env_ExecuteCommandList env2); eexists; (split; [reflexivity|]);
      cbn [heap log m_chunks set_chunks].
    + split; [by rewrite addresses_update|]. intros _ _. split; [done|].
      eexists. split.
      { apply find_allocation_update; [done|]. by apply find_allocation_reclaimed. }
      split_and!; [reflexivity|exact Hstaging|reflexivity..].
    + split; [done|]. by intros _ [=].
  - eexists. split; [reflexivity|]. cbn [heap log m_chunks set_chunks].
    split; [done|]. by intros [=].
Qed.

(** ** What eviction and failures leave behind *)


(** when [BeginUploadToGpu] throws, it has added no allocation record *)
Lemma BeginUploadToGpu_throws_no_allocation env dst dstOffset dstState src s :
  wp (BeginUploadToGpu env dst dstOffset dstState src)
     (fun _ _ => True)
     (fun s' => addresses (m_chunks (heap s')) ⊆ addresses (m_chunks (heap s))) s.
Proof.
  unfold BeginUploadToGpu.
  wp_preserved (settles (mkReusableCopyKey dst dstOffset (span_size src))) as r s1 Hs1;
    [|by destruct Hs1 as (_ & ? & _)].
  wp_preserved (settles (mkReusableCopyKey dst dstOffset (span_size src))) as r2 s2 Hs2;
    assert (settles (mkReusableCopyKey dst dstOffset (span_size src)) (heap s) (heap s2))
      as (_ & Hsub & _) by (by etrans); [|done].
  destruct r2 as [chunk offsetInChunk]. wp_steps; done.
Qed.

(** ** Further properties of the code

    *** [Align] *)

(** X1: for a power-of-two alignment, and as long as the offset plus the
    alignment stays in the range of [size_t], [Align] returns the least
    multiple of the alignment that is not below the offset. *)
Theorem X1_Align_least_multiple (x a : Z) :
  power_of_two a -> 0 <= x -> x + a <= SizeT.modulus ->
  Align x a mod a = 0
  /\ x <= Align x a < x + a
  /\ forall m, m mod a = 0 -> x <= m -> Align x a <= m.
Proof.
  intros (k & Hk & ->) Hx Hsum. pose proof (pow2_le_modulus k Hk) as Hp.
  rewrite Align_align by done.
  pose proof (align_bounds x (2 ^ k) ltac:(lia)) as Hb.
  pose proof (align_mod x (2 ^ k) ltac:(lia)) as Hm.
  split_and!; [done|lia|lia|].
  intros m Hmm Hxm.
  apply Z.mod_divide in Hm as [q Hq]; [|lia].
  apply Z.mod_divide in Hmm as [q' Hq']; [|lia].
  destruct (decide (q <= q')); [nia|].
  assert (q' + 1 <= q) by lia. nia.
Qed.

(** X2: within one alignment unit of the top of the range of [size_t] the
    addition in [Align] wraps around, and [Align] returns 0, an offset below
    the one it was given. *)
Theorem X2_Align_wraps_to_zero (x a : Z) :
  power_of_two a -> SizeT.modulus - a < x < SizeT.modulus ->
  Align x a = 0.
Proof.
  intros (k & Hk & ->) Hx. pose proof (pow2_le_modulus k Hk) as Hp.
  unfold Align, SizeT.sub, SizeT.add. rewrite wrap_wrap_sub.
  rewrite (wrap_small (2 ^ k - 1)) by lia.
  assert (SizeT.wrap (x + 2 ^ k - 1) = x + 2 ^ k - 1 - SizeT.modulus) as ->.
  { unfold SizeT.wrap. symmetry. apply (Z.mod_unique_pos _ _ 1); lia. }
  rewrite land_lnot_ones by (done || lia).
  rewrite Z.div_small by lia. done.
Qed.

(** *** [FindOffsetForAllocation] *)

(** X3: in the chunks of a heap the public operations can reach, the offset
    [FindOffsetForAllocation] returns is a multiple of the alignment, the
    requested bytes lie within the chunk from there, and they have no byte in
    common with an allocation of the chunk. *)
Theorem X3_FindOffsetForAllocation_free_bytes (h : PooledUploadHeap) (chunk : Chunk)
    (size offset : Z) :
  power_of_two c_allocationAlignment ->
  reachable fits_address_space h ->
  chunk ∈ m_chunks h ->
  0 < size < SizeT.modulus ->
  FindOffsetForAllocation chunk size = Some offset ->
  offset mod c_allocationAlignment = 0
  /\ 0 <= offset /\ offset + size <= capacityInBytes chunk
  /\ forall a, a ∈ allocations chunk ->
       offset + size <= offsetInChunk a \/ offsetInChunk a + sizeInBytes a <= offset.
Proof.
  intros HA Hreach Hchunk Hsize Hfind.
  destruct (reachable_wf h HA Hreach) as (Hall & _ & _).
  pose proof (reachable_holds _ _ Hreach) as Hfits. unfold fits_address_space in Hfits.
  pose proof (sum_capacity_bounds _ _ Hall Hchunk) as Hcap.
  assert (chunk_wf chunk) as Hwf by (rewrite Forall_forall in Hall; by apply Hall).
  destruct (FindOffsetForAllocation_sound chunk size offset 0%nat 0 false HA Hsize Hwf
              ltac:(lia) Hfind) as (_ & _ & Hallocs & Hring).
  cbn in Hallocs, Hring.
  apply Forall_app in Hallocs as [_ Hnew]. apply Forall_inv in Hnew.
  unfold allocation_wf in Hnew. cbn in Hnew. destruct Hnew as (H0 & _ & Hend & Hmod).
  split_and!; [done..|]. intros a Ha.
  apply ring_no_overlap in Hring.
  apply list_elem_of_lookup in Ha as [i Hi].
  pose proof (lookup_lt_Some _ _ _ Hi) as Hlt.
  specialize (Hring i (length (allocations chunk)) a
                (mkAllocation 0%nat size offset 0 false) ltac:(lia)).
  rewrite lookup_app_l, lookup_app_r, Nat.sub_diag in Hring by lia.
  specialize (Hring Hi eq_refl). unfold overlap in Hring. cbn in Hring. lia.
Qed.

(** *** [Trim] *)

Lemma reclaimed_idempotent env chunks :
  reclaimed env (reclaimed env chunks) = reclaimed env chunks.
Proof.
  unfold reclaimed. rewrite <- list_fmap_compose. apply list_fmap_ext.
  intros i c _. destruct c as [capacity res l]. cbn. unfold set_allocations. cbn.
  f_equal. rewrite list_filter_filter. apply list_filter_iff. tauto.
Qed.

Lemma reclaimed_filter env (P : Chunk -> Prop) `{!forall c, Decision (P c)} chunks :
  reclaimed env (filter P (reclaimed env chunks)) = filter P (reclaimed env chunks).
Proof.
  rewrite <- (list_fmap_id (filter P (reclaimed env chunks))) at 2.
  apply list_fmap_ext. intros i c Hc. cbn.
  apply list_elem_of_lookup_2, list_elem_of_filter in Hc as [_ Hc].
  unfold reclaimed in Hc. apply list_elem_of_fmap in Hc as (c0 & -> & _).
  destruct c0 as [capacity res l]. unfold set_allocations. cbn.
  f_equal. rewrite list_filter_filter. apply list_filter_iff. tauto.
Qed.

(** X4: [Trim] always returns, and a second [Trim] in the same state of the
    GPU events leaves the heap as the first one left it. *)
Theorem X4_Trim_idempotent (env : Env) (s : State) :
  exists s', Trim env s = Returns tt s' /\ Trim env s' = Returns tt s'.
Proof.
  eexists. split; [apply Trim_returns|]. rewrite Trim_returns. cbn.
  fold (reclaimed env (m_chunks (heap s))).
  fold (reclaimed env (filter (fun c => ¬ empty (allocations c))
                         (reclaimed env (m_chunks (heap s))))).
  rewrite reclaimed_filter, list_filter_filter.
  rewrite (list_filter_iff _ (fun c => ¬ empty (allocations c))) by tauto.
  done.
Qed.

(** X5: after [Trim], the chunks left are chunks the heap had, in their
    order; each still holds an allocation, and every allocation left is
    locked or waits for an event that is not signaled; [m_totalCapacity] is
    the sum of the capacities of the chunks left, in [size_t]. [Trim] calls
    neither the device nor the execution context and leaves the cached
    command lists alone. *)
Theorem X5_Trim_result (env : Env) (s : State) :
  exists s',
    Trim env s = Returns tt s'
    /\ log s' = log s
    /\ same_lists (heap s) (heap s')
    /\ m_chunks (heap s') `sublist_of` reclaimed env (m_chunks (heap s))
    /\ Forall (fun c =>
         allocations c <> []
         /\ Forall (fun a => locked a = true \/ env_IsSignaled env (doneEvent a) = false)
              (allocations c)) (m_chunks (heap s'))
    /\ m_totalCapacity (heap s') = SizeT.wrap (sum_capacity (m_chunks (heap s'))).
Proof.
  eexists. split; [apply Trim_returns|]. cbn.
  fold (reclaimed env (m_chunks (heap s))).
  split_and!; [done|done|apply sublist_filter| |apply calculatedCapacity_wrap].
  apply Forall_forall. intros c [Hne Hc]%list_elem_of_filter. split.
  - intros E. rewrite E in Hne. cbn in Hne. tauto.
  - unfold reclaimed in Hc. apply list_elem_of_fmap in Hc as (c0 & -> & _). cbn.
    apply Forall_forall. intros a [Ha _]%list_elem_of_filter.
    unfold reclaimable in Ha.
    destruct (locked a), (env_IsSignaled env (doneEvent a)); cbn in Ha; tauto.
Qed.

(** X6: when every allocation of the heap is unlocked and its event is
    signaled, [Trim] releases every chunk and sets [m_totalCapacity] to 0. *)
Theorem X6_Trim_releases_idle_pool (env : Env) (s : State) :
  Forall (fun c =>
    Forall (fun a => locked a = false /\ env_IsSignaled env (doneEvent a) = true)
      (allocations c)) (m_chunks (heap s)) ->
  exists s',
    Trim env s = Returns tt s'
    /\ m_chunks (heap s') = [] /\ m_totalCapacity (heap s') = 0.
Proof.
  intros Hidle. eexists. split; [apply Trim_returns|]. cbn.
  assert (filter (fun c => ¬ empty (allocations c))
            (set_allocations (filter (fun allocation => ¬ reclaimable env allocation))
               <$> m_chunks (heap s)) = []) as ->; [|done].
  induction Hidle as [|c chunks Hc _ IH]; [done|].
  rewrite fmap_cons, filter_cons_False; [done|].
  cbn. assert (filter (fun allocation => ¬ reclaimable env allocation) (allocations c) = [])
    as ->; [|cbn; tauto].
  induction Hc as [|a l [Ha1 Ha2] _ IHl]; [done|].
  rewrite filter_cons_False; [done|]. unfold reclaimable. rewrite Ha1, Ha2. cbn. tauto.
Qed.

(** *** Calls whose behaviour is defined *)

Lemma total_bind {A B} (m : M A) (f : A -> M B) Q T s :
  total m (fun a s' => total (f a) Q T s') T s -> total (m ≫= f) Q T s.
Proof. unfold total, mbind, M_bind. by destruct (m s). Qed.

Lemma total_mono {A} (m : M A) (Q Q' : A -> State -> Prop) (T T' : State -> Prop) s :
  total m Q T s -> (forall a s', Q a s' -> Q' a s') -> (forall s', T s' -> T' s') ->
  total m Q' T' s.
Proof. unfold total. destruct (m s); auto. Qed.

Lemma total_wp {A} (m : M A) (Q Q' : A -> State -> Prop) (T T' : State -> Prop) s :
  total m Q T s -> wp m Q' T' s ->
  total m (fun a s' => Q a s' /\ Q' a s') (fun s' => T s' /\ T' s') s.
Proof. unfold total, wp. destruct (m s); auto. Qed.

Lemma total_ret {A} (a : A) Q T s : Q a s -> total (mret a) Q T s.
Proof. done. Qed.

Lemma total_get_heap Q T s : Q (heap s) s -> total get_heap Q T s.
Proof. done. Qed.

Lemma total_get_log Q T s : Q (log s) s -> total get_log Q T s.
Proof. done. Qed.

Lemma total_modify_heap f Q T s :
  Q tt (mkState (f (heap s)) (log s)) -> total (modify_heap f) Q T s.
Proof. done. Qed.

Lemma total_call c Q T s : Q tt (mkState (heap s) (log s ++ [c])) -> total (call c) Q T s.
Proof. done. Qed.

Lemma total_throw {A} (Q : A -> State -> Prop) T s : T s -> total throw Q T s.
Proof. done. Qed.

Lemma total_ORT_THROW_IF_FAILED b Q T s :
  (b = true -> Q tt s) -> (b = false -> T s) -> total (ORT_THROW_IF_FAILED b) Q T s.
Proof. destruct b; cbn; auto. Qed.

Lemma total_ORT_THROW_IF_NULL {A} (o : option A) Q T s :
  (forall a, o = Some a -> Q a s) -> (o = None -> T s) -> total (ORT_THROW_IF_NULL o) Q T s.
Proof. destruct o; cbn; auto. Qed.

(** a pointer that is dereferenced has to point to something *)
Lemma total_deref {A} (o : option A) (a : A) Q T s :
  o = Some a -> Q a s -> total (deref o) Q T s.
Proof. by intros ->. Qed.

Lemma total_when b m Q T s :
  (b = true -> total m Q T s) -> (b = false -> Q tt s) -> total (when b m) Q T s.
Proof. destruct b; cbn; auto. Qed.

Lemma total_MapCopyUnmap env res offset src Q T s :
  (env_Map env = true ->
   Q tt (mkState (heap s) (log s ++ [Map res; Memcpy res offset src; Unmap res]))) ->
  (env_Map env = false -> T (mkState (heap s) (log s ++ [Map res]))) ->
  total (MapCopyUnmap env res offset src) Q T s.
Proof.
  intros HQ HT. unfold total, MapCopyUnmap, mbind, M_bind, call, ORT_THROW_IF_FAILED.
  cbn. destruct (env_Map env); cbn.
  - rewrite <- !(assoc_L (++)). by apply HQ.
  - by apply HT.
Qed.

Lemma total_GetCurrentCompletionEvent env Q T s :
  Q (env_GetCurrentCompletionEvent env (log s)) s ->
  total (GetCurrentCompletionEvent env) Q T s.
Proof. done. Qed.

Ltac total_step :=
  lazymatch goal with
  | |- total (mbind _ _) _ _ _ => simple apply total_bind
  | |- total (mret _) _ _ _ => simple apply total_ret
  | |- total get_heap _ _ _ => simple apply total_get_heap
  | |- total get_log _ _ _ => simple apply total_get_log
  | |- total (call _) _ _ _ => simple apply total_call
  | |- total (modify_heap _) _ _ _ => simple apply total_modify_heap
  | |- total (GetCurrentCompletionEvent _) _ _ _ =>
      simple apply total_GetCurrentCompletionEvent
  | |- total throw _ _ _ => simple apply total_throw
  | |- total (ORT_THROW_IF_FAILED _) _ _ _ =>
      simple apply total_ORT_THROW_IF_FAILED; intros ?
  | |- total (ORT_THROW_IF_NULL _) _ _ _ =>
      simple apply total_ORT_THROW_IF_NULL; [intros ? ?|intros ?]
  | |- total (MapCopyUnmap _ _ _ _) _ _ _ => simple apply total_MapCopyUnmap; intros ?
  | |- total (when _ _) _ _ _ => simple apply total_when; intros ?; try discriminate
  end;
  cbn [heap log].

Ltac total_steps := repeat total_step.

(** a call that returns or throws satisfies what is known of its outcomes *)
Tactic Notation "total_use" constr(Hdefined) constr(Hwp) :=
  try simple apply total_bind;
  eapply total_mono;
    [exact (total_wp _ _ _ _ _ _ Hdefined Hwp)
    |intros ? ? [_ ?]; cbn beta|intros ? [_ ?]; cbn beta].

(** [Reserve] returns a pointer to a chunk of the heap, or throws *)
Lemma Reserve_total env size s :
  total (Reserve env size)
        (fun r s' => is_Some (m_chunks (heap s') !! r.1)
                     /\ (is_Some (env_CreateCommittedResource env)
                         \/ is_Some (Reserve_loop (m_chunks (heap s)) 0 size)))
        (fun _ => env_CreateCommittedResource env = None) s.
Proof.
  unfold Reserve. total_steps.
  destruct (Reserve_loop _ _ _) as [[i offset]|] eqn:Hloop.
  - total_steps. split; [|right; by eexists]. cbn.
    apply Reserve_loop_Some in Hloop as (c & Hc & _).
    rewrite Nat.sub_0_r in Hc. by eexists.
  - unfold CreateChunk. total_steps; [|done]. cbn. split; [|left; by eexists].
    rewrite length_app. cbn. rewrite Nat.add_1_r. cbn.
    rewrite lookup_app_r, Nat.sub_diag by lia. by eexists.
Qed.

(** *** The cached command lists never dangle *)

#[global] Instance keeps_live_preorder : PreOrder keeps_live.
Proof. split; unfold keeps_live; [by intros h|intros h1 h2 h3; auto]. Qed.

(** chunks that keep the buffers and the locked allocations keep the cached
    command lists alive *)
Lemma entry_live_chunks chunks chunks' e :
  (forall c staging,
     c ∈ chunks -> staging ∈ allocations c ->
     address staging = allocation e -> locked staging = true ->
     exists c' staging',
       c' ∈ chunks' /\ com_ptr (resource c') = com_ptr (resource c)
       /\ staging' ∈ allocations c' /\ address staging' = address staging
       /\ locked staging' = true) ->
  entry_live chunks e -> entry_live chunks' e.
Proof.
  intros Hkeep (c & staging & Hc & Hres & Hstaging & Haddr & Hlocked).
  destruct (Hkeep c staging Hc Hstaging Haddr Hlocked)
    as (c' & staging' & Hc' & Hres' & Hstaging' & Haddr' & Hlocked').
  exists c', staging'. split_and!; [done|congruence|done|congruence|done].
Qed.

Lemma entry_live_reclaimed env chunks e :
  entry_live chunks e -> entry_live (reclaimed env chunks) e.
Proof.
  apply entry_live_chunks. intros c staging Hc Hstaging _ Hlocked.
  exists (set_allocations (filter (fun a => ¬ reclaimable env a)) c), staging.
  split_and!; [|done| |done..].
  - unfold reclaimed. by apply list_elem_of_fmap_2.
  - cbn. apply list_elem_of_filter. split; [|done].
    unfold reclaimable. rewrite Hlocked. cbn. tauto.
Qed.

Lemma entry_live_update p (f : Allocation -> Allocation) chunks e :
  (forall a, address (f a) = address a) ->
  (p = allocation e -> forall a, locked a = true -> locked (f a) = true) ->
  entry_live chunks e -> entry_live (update_allocation p f chunks) e.
Proof.
  intros Haddr Hf. apply entry_live_chunks. intros c staging Hc Hstaging Hp Hlocked.
  set (g := fun a : Allocation => if decide (address a = p) then f a else a).
  exists (set_allocations (fmap g) c), (g staging).
  split_and!; [|done| |..].
  - unfold update_allocation. by apply (list_elem_of_fmap_2 (set_allocations (fmap g))).
  - cbn. by apply list_elem_of_fmap_2.
  - unfold g. case_decide; [apply Haddr|done].
  - unfold g. case_decide; [|done]. apply Hf; [congruence|done].
Qed.

Lemma entry_live_app chunks chunks' e :
  entry_live chunks e -> entry_live (chunks ++ chunks') e.
Proof.
  apply entry_live_chunks. intros c staging Hc Hstaging _ Hlocked.
  exists c, staging. split_and!; try done. apply elem_of_app. by left.
Qed.

Lemma entry_live_push i x chunks e :
  entry_live chunks e ->
  entry_live (alter (set_allocations (fun l => l ++ [x])) i chunks) e.
Proof.
  apply entry_live_chunks. intros c staging Hc Hstaging _ Hlocked.
  apply list_elem_of_lookup in Hc as [j Hj].
  destruct (decide (j = i)) as [->|Hne].
  - exists (set_allocations (fun l => l ++ [x]) c), staging. split_and!; try done.
    + eapply list_elem_of_lookup_2. by rewrite list_lookup_alter_eq, Hj.
    + cbn. apply elem_of_app. by left.
  - exists c, staging. split_and!; try done.
    eapply list_elem_of_lookup_2. by rewrite list_lookup_alter_ne.
Qed.

Lemma entry_live_trim chunks e :
  entry_live chunks e ->
  entry_live (filter (fun c => ¬ empty (allocations c)) chunks) e.
Proof.
  apply entry_live_chunks. intros c staging Hc Hstaging _ Hlocked.
  exists c, staging. split_and!; try done.
  apply list_elem_of_filter. split; [|done].
  destruct (allocations c); [by apply elem_of_nil in Hstaging|cbn; tauto].
Qed.

(** the allocation of a live command list is one of the heap's *)
Lemma entry_live_address chunks e :
  entry_live chunks e -> allocation e ∈ addresses chunks.
Proof.
  intros (c & staging & Hc & _ & Hstaging & <- & _).
  unfold addresses. apply list_elem_of_fmap_2, list_elem_of_bind. by exists c.
Qed.

Lemma entry_live_find chunks e :
  entry_live chunks e ->
  is_Some (find_allocation (allocation e) chunks)
  /\ is_Some (find_resource (chunkResource e) chunks).
Proof.
  intros (c & staging & Hc & Hres & Hstaging & Haddr & _). split.
  - unfold find_allocation. apply fmap_is_Some.
    apply (list_find_elem_of _ _ staging); [|done].
    apply list_elem_of_bind. by exists c.
  - unfold find_resource. apply fmap_is_Some. by apply (list_find_elem_of _ _ c).
Qed.

Lemma wp_and {A} (m : M A) (Q Q' : A -> State -> Prop) (T T' : State -> Prop) s :
  wp m Q T s -> wp m Q' T' s ->
  wp m (fun a s' => Q a s' /\ Q' a s') (fun s' => T s' /\ T' s') s.
Proof. unfold wp. destruct (m s); auto. Qed.

Lemma live_chunks (f : list Chunk -> list Chunk) h :
  (forall e, entry_live (m_chunks h) e -> entry_live (f (m_chunks h)) e) ->
  keeps_live h (set_chunks f h).
Proof.
  intros Hf [Hnodup Hall]. split; [done|]. cbn.
  eapply Forall_impl; [done|]. apply Hf.
Qed.

Lemma ReclaimAllocations_keeps_live env : preserves keeps_live (ReclaimAllocations env).
Proof.
  unfold ReclaimAllocations. apply preserves_modify_heap. intros h.
  apply live_chunks. intros e. apply entry_live_reclaimed.
Qed.

Lemma Reserve_keeps_live env size : preserves keeps_live (Reserve env size).
Proof.
  intros s. unfold Reserve, CreateChunk. wp_steps.
  destruct (Reserve_loop _ _ _) as [[i offset]|]; wp_steps; try done.
  intros [Hnodup Hall]. split; [done|]. cbn.
  eapply Forall_impl; [done|]. intros e. apply entry_live_app.
Qed.

Lemma push_back_allocation_keeps_live chunk size offset event lock :
  preserves keeps_live (push_back_allocation chunk size offset event lock).
Proof.
  intros s. unfold push_back_allocation. wp_steps.
  intros [Hnodup Hall]. split; [done|]. cbn.
  eapply Forall_impl; [done|]. intros e. apply entry_live_push.
Qed.

Lemma ReExecute_keeps_live env it src : preserves keeps_live (ReExecute env it src).
Proof.
  intros s. unfold ReExecute. wp_steps; try done.
  apply (live_chunks (update_allocation _ _)). intros e.
  apply entry_live_update; [done|]. by intros _ [].
Qed.

Lemma Trim_keeps_live env : preserves keeps_live (Trim env).
Proof.
  intros s. unfold wp. rewrite Trim_returns. cbn.
  intros [Hnodup Hall]. split; [done|]. cbn.
  eapply Forall_impl; [done|]. intros e He.
  by apply entry_live_trim, entry_live_reclaimed.
Qed.

Lemma EvictFront_keeps_live key : preserves keeps_live (EvictFront key).
Proof.
  intros s. unfold EvictFront. wp_steps.
  match goal with H : head _ = Some ?x |- _ => rename H into Hfront; rename x into front end.
  intros [Hnodup Hall]. cbn.
  destruct (m_reusableCommandLists (heap s)) as [|e l] eqn:El; [done|].
  cbn in Hfront. simplify_eq. cbn in *.
  apply NoDup_cons in Hnodup as [Hfresh Hnodup]. apply Forall_cons in Hall as [_ Hall].
  split; cbn; [by rewrite El|]. rewrite El. cbn.
  apply Forall_forall. intros e He. apply entry_live_update; [done| |].
  - intros Hp. exfalso. apply Hfresh. rewrite Hp. by apply list_elem_of_fmap_2.
  - rewrite Forall_forall in Hall. by apply Hall.
Qed.

#[local] Hint Resolve ReclaimAllocations_keeps_live Reserve_keeps_live
  push_back_allocation_keeps_live ReExecute_keeps_live Trim_keeps_live
  EvictFront_keeps_live : preserves.

Lemma BeginUploadToGpu_keeps_live env dst dstOffset dstState src :
  preserves keeps_live (BeginUploadToGpu env dst dstOffset dstState src).
Proof. unfold BeginUploadToGpu. preserving. Qed.

Lemma RecordAndExecute_live env key dst dstOffset dstState src s :
  below_next (heap s) -> live (heap s) ->
  wp (RecordAndExecute env key dst dstOffset dstState src)
     (fun _ s' => live (heap s')) (fun s' => live (heap s')) s.
Proof.
  intros Hbelow Hlive. unfold RecordAndExecute. simple apply wp_bind.
  eapply wp_mono;
    [apply (wp_and _ _ _ _ _ _ (Reserve_keeps_live env (span_size src) s)
              (Reserve_settles key env (span_size src) s))
    |cbn beta|cbn beta]; [|intros s1 [Hl _]; by apply Hl].
  intros [chunk offsetInChunk] s1 [Hl Hs1]. specialize (Hl Hlive).
  pose proof (settles_below _ _ _ Hs1 Hbelow) as [Hba _].
  rewrite Forall_forall in Hba.
  destruct Hl as [Hnodup Hall].
  destruct (needs_transition dstState); unfold push_back_allocation; wp_steps; try done.
  all: match goal with H : m_chunks _ !! _ = Some ?c |- _ =>
         rename H into Hchunk; rename c into c0 end.
  all: split; cbn;
    [first
       [done
       |rewrite fmap_app; apply NoDup_app; split_and!; [done| |apply NoDup_singleton];
        intros p (e & -> & He)%list_elem_of_fmap Hp%list_elem_of_singleton;
        rewrite Forall_forall in Hall;
        pose proof (Hba _ (entry_live_address _ _ (Hall e He))) as Hlt;
        cbn in Hp; lia]
    |first
       [eapply Forall_impl; [exact Hall|]; intros e; apply entry_live_push
       |apply Forall_app; split;
        [eapply Forall_impl; [exact Hall|]; intros e; apply entry_live_push|];
        apply Forall_singleton;
        eexists (set_allocations (fun l => l ++ [_]) c0), _;
        split_and!;
          [eapply list_elem_of_lookup_2; by rewrite list_lookup_alter_eq, Hchunk
          |done
          |cbn; apply elem_of_app; right; by apply list_elem_of_singleton
          |done|done]]].
Qed.

Lemma preserves_wp2 {A} R1 R2 (m : M A) (Q : A -> State -> Prop) (T : State -> Prop) s :
  preserves R1 m -> preserves R2 m ->
  (forall a s', R1 (heap s) (heap s') -> R2 (heap s) (heap s') -> Q a s') ->
  (forall s', R1 (heap s) (heap s') -> R2 (heap s) (heap s') -> T s') ->
  wp m Q T s.
Proof.
  intros H1 H2 HQ HT. eapply wp_mono; [exact (wp_and _ _ _ _ _ _ (H1 s) (H2 s))|..];
    cbn; intuition.
Qed.

(** a call that is known to preserve [R1] and [R2] *)
Tactic Notation "wp_preserved" constr(R1) constr(R2) "as"
    ident(a) ident(s) ident(H1) ident(H2) :=
  try simple apply wp_bind;
  simple apply (preserves_wp2 R1 R2);
    [solve [auto 3 with preserves typeclass_instances]
    |solve [auto 3 with preserves typeclass_instances]|..];
  [intros a s H1 H2|intros s H1 H2].

Lemma BeginReusableUploadToGpu_live env dst dstOffset dstState src s :
  below_next (heap s) -> live (heap s) ->
  wp (BeginReusableUploadToGpu env dst dstOffset dstState src)
     (fun _ s' => live (heap s')) (fun s' => live (heap s')) s.
Proof.
  intros Hbelow Hlive. unfold BeginReusableUploadToGpu. do 2 wp_step.
  set (key := mkReusableCopyKey dst dstOffset (span_size src)).
  wp_preserved keeps_live keeps_below as r1 s1 Hl1 Hb1; [|by apply Hl1].
  specialize (Hl1 Hlive). destruct Hb1 as [Hb1 _]. specialize (Hb1 Hbelow).
  wp_preserved keeps_live keeps_below as r2 s2 Hl2 Hb2; [|by apply Hl2].
  specialize (Hl2 Hl1). destruct Hb2 as [Hb2 _]. specialize (Hb2 Hb1).
  simple apply wp_bind.
  destruct (m_reusableCommandListsCache (heap s) !! key) as [it|].
  - wp_preserved keeps_live as r s3 Hl3; [|by apply Hl3].
    wp_steps. by apply Hl3.
  - eapply wp_mono; [by apply RecordAndExecute_live|cbn beta|done].
    intros _ s3 Hl3. by wp_steps.
Qed.

Lemma perform_live env op s :
  below_next (heap s) -> live (heap s) ->
  wp (perform env op) (fun _ s' => live (heap s')) (fun s' => live (heap s')) s.
Proof.
  intros Hbelow Hlive.
  destruct op as [dst dstOffset dstState src|dst dstOffset dstState src|]; cbn.
  - simple apply wp_bind.
    eapply wp_mono; [apply BeginUploadToGpu_keeps_live|cbn beta|cbn beta];
      [|intros s' Hl; by apply Hl].
    intros ev s' Hl. wp_steps. by apply Hl.
  - simple apply wp_bind.
    eapply wp_mono; [by apply BeginReusableUploadToGpu_live|cbn beta|done].
    intros ev s' Hl. by wp_steps.
  - simple apply wp_bind.
    eapply wp_mono; [apply Trim_keeps_live|cbn beta|cbn beta];
      [|intros s' Hl; by apply Hl].
    intros ev s' Hl. wp_steps. by apply Hl.
Qed.

Lemma empty_heap_live : live empty_heap.
Proof. split; constructor. Qed.

Lemma reachable_live h : reachable (fun _ => True) h -> live h.
Proof.
  induction 1 as [|h env op h' Hreach IH Hvalid Hfinal _]; [apply empty_heap_live|].
  pose proof (perform_live env op (mkState h []) (reachable_below_next h Hreach) IH) as Hwp.
  unfold wp in Hwp. destruct (perform env op (mkState h [])) as [r s'|s'|];
    cbn in Hfinal; by simplify_eq.
Qed.

(** *** Distinct nodes have distinct addresses *)

#[global] Instance keeps_distinct_preorder : PreOrder keeps_distinct.
Proof. split; unfold keeps_distinct; [by intros h|intros h1 h2 h3; auto]. Qed.

Lemma keeps_distinct_chunks f h :
  addresses (f (m_chunks h)) `sublist_of` addresses (m_chunks h) ->
  keeps_distinct h (set_chunks f h).
Proof.
  intros Hsub ([Ha Hn] & Hd & Hl). split_and!; [split; [|done]|exact (sublist_NoDup _ _ Hd Hsub)|done].
  rewrite Forall_forall in *. intros p Hp. eapply Ha, sublist_subseteq; [done|]. exact Hp.
Qed.

Lemma keeps_distinct_lists f h :
  f (m_reusableCommandLists h) `sublist_of` m_reusableCommandLists h ->
  keeps_distinct h (set_reusableCommandLists f h).
Proof.
  intros Hsub ([Ha Hn] & Hd & Hl). split_and!; [split; [done|]|done|].
  - rewrite Forall_forall in *. intros e He. eapply Hn, sublist_subseteq; [done|]. exact He.
  - eapply sublist_NoDup; [exact Hl|]. cbn. by apply fmap_sublist.
Qed.

Lemma keeps_distinct_other f g h :
  keeps_distinct h (set_totalCapacity f h)
  /\ keeps_distinct h (set_reusableCommandListsCache g h).
Proof. split; intros H; exact H. Qed.

Lemma addresses_reclaimed_sublist env chunks :
  addresses (reclaimed env chunks) `sublist_of` addresses chunks.
Proof.
  unfold addresses, reclaimed. rewrite allocations_filter.
  apply fmap_sublist, sublist_filter.
Qed.

Lemma addresses_trim_sublist (P : Chunk -> Prop) `{!forall c, Decision (P c)} chunks :
  addresses (filter P chunks) `sublist_of` addresses chunks.
Proof.
  unfold addresses. apply fmap_sublist.
  induction chunks as [|c chunks IH]; [done|].
  rewrite filter_cons. case_decide; rewrite !bind_cons.
  - by apply sublist_app.
  - by apply sublist_inserts_l.
Qed.

Lemma ReclaimAllocations_keeps_distinct env :
  preserves keeps_distinct (ReclaimAllocations env).
Proof.
  apply preserves_modify_heap. intros h.
  apply keeps_distinct_chunks, addresses_reclaimed_sublist.
Qed.

Lemma EvictFront_keeps_distinct key : preserves keeps_distinct (EvictFront key).
Proof.
  unfold EvictFront. preserving; apply preserves_modify_heap; intros h.
  - apply keeps_distinct_chunks. by rewrite addresses_update.
  - apply keeps_distinct_lists. destruct (m_reusableCommandLists h); [done|]. by constructor.
  - apply keeps_distinct_other; exact id.
Qed.

Lemma ReExecute_keeps_distinct env it src :
  preserves keeps_distinct (ReExecute env it src).
Proof.
  unfold ReExecute. preserving. apply preserves_modify_heap. intros h.
  apply keeps_distinct_chunks. by rewrite addresses_update.
Qed.

Lemma Reserve_keeps_distinct env size : preserves keeps_distinct (Reserve env size).
Proof.
  intros s. unfold Reserve, CreateChunk. wp_steps.
  destruct (Reserve_loop _ _ _) as [found|]; wp_steps; [done| |done].
  etrans; [|apply keeps_distinct_other; exact id].
  apply keeps_distinct_chunks. rewrite addresses_app. cbn. by rewrite (right_id_L [] (++)).
Qed.

Lemma push_back_allocation_keeps_distinct chunk size offset event lock :
  preserves keeps_distinct (push_back_allocation chunk size offset event lock).
Proof.
  intros s. pose proof (push_back_allocation_keeps_below chunk size offset event lock s) as Hb.
  revert Hb. unfold push_back_allocation, wp, mbind, M_bind, get_heap, modify_heap. cbn.
  intros [Hb _] (Hbelow & Hd & Hl). split_and!; [by apply Hb| |done]. cbn.
  destruct (m_chunks (heap s) !! chunk) as [c|] eqn:Hc.
  - unfold addresses. rewrite (allocations_push _ _ c) by done.
    rewrite fmap_cons. apply NoDup_cons. split; [|done]. cbn.
    destruct Hbelow as [Ha _]. rewrite Forall_forall in Ha. intros Hin%Ha. lia.
  - by rewrite alter_None.
Qed.

#[local] Hint Resolve ReclaimAllocations_keeps_distinct EvictFront_keeps_distinct
  ReExecute_keeps_distinct Reserve_keeps_distinct push_back_allocation_keeps_distinct
  : preserves.

Lemma BeginUploadToGpu_keeps_distinct env dst dstOffset dstState src :
  preserves keeps_distinct (BeginUploadToGpu env dst dstOffset dstState src).
Proof. unfold BeginUploadToGpu. preserving. Qed.

Lemma Trim_keeps_distinct env : preserves keeps_distinct (Trim env).
Proof.
  unfold Trim. preserving; apply preserves_modify_heap; intros h.
  - apply keeps_distinct_chunks, addresses_trim_sublist.
  - apply keeps_distinct_other; exact id.
  - apply keeps_distinct_other; exact id.
Qed.

Lemma RecordAndExecute_keeps_distinct env key dst dstOffset dstState src :
  preserves keeps_distinct (RecordAndExecute env key dst dstOffset dstState src).
Proof.
  intros s. unfold RecordAndExecute.
  wp_preserved keeps_distinct as r s1 Hs1; [|done]. destruct r as [chunk offsetInChunk].
  wp_steps; try done.
  all: wp_preserved keeps_distinct as back s2 Hs2; [|by etrans].
  all: wp_steps; [|by etrans].
  all: etrans; [done|]; etrans; [done|].
  all: intros ([Ha Hn] & Hd & Hl); split_and!; [split|..]; cbn; try done.
  all: try (eapply Forall_impl; [done|]; cbn; lia).
  all: try (apply Forall_app; split; [|repeat constructor; cbn; lia];
            eapply Forall_impl; [done|]; cbn; lia).
  all: rewrite fmap_app; apply NoDup_app; split_and!; [done| |apply NoDup_singleton].
  all: intros p (e & -> & He)%list_elem_of_fmap Hp%list_elem_of_singleton.
  all: rewrite Forall_forall in Hn; apply Hn in He; cbn in Hp; lia.
Qed.

#[local] Hint Resolve BeginUploadToGpu_keeps_distinct Trim_keeps_distinct
  RecordAndExecute_keeps_distinct : preserves.

Lemma BeginReusableUploadToGpu_keeps_distinct env dst dstOffset dstState src :
  preserves keeps_distinct (BeginReusableUploadToGpu env dst dstOffset dstState src).
Proof. unfold BeginReusableUploadToGpu. preserving. Qed.

#[local] Hint Resolve BeginReusableUploadToGpu_keeps_distinct : preserves.

Lemma perform_keeps_distinct env op : preserves keeps_distinct (perform env op).
Proof. destruct op; cbn; preserving. Qed.

Lemma reachable_distinct h : reachable (fun _ => True) h -> distinct h.
Proof.
  induction 1 as [|h env op h' Hreach IH Hvalid Hfinal _].
  - split_and!; [split|..]; constructor.
  - pose proof (perform_keeps_distinct env op (mkState h [])) as Hwp.
    unfold wp in Hwp. destruct (perform env op (mkState h [])) as [r s'|s'|];
      cbn in Hfinal; simplify_eq; by apply Hwp.
Qed.

(** in a list without two equal addresses, an address finds its node *)
Lemma find_distinct {A} (f : A -> nat) (l : list A) (x : A) :
  NoDup (f <$> l) -> x ∈ l ->
  snd <$> list_find (fun y => f y = f x) l = Some x.
Proof.
  intros Hnodup Hx. apply find_unique; [done..|].
  intros y Hy Hf. apply list_elem_of_lookup in Hx as [i Hi], Hy as [j Hj].
  assert (i = j) as ->; [|congruence].
  eapply (NoDup_lookup (f <$> l) i j (f x)); [done|..];
    rewrite list_lookup_fmap; [by rewrite Hi|rewrite Hj; cbn; by rewrite Hf].
Qed.

Lemma NoDup_fmap_eq {A B} (f : A -> B) (l : list A) (x y : A) :
  NoDup (f <$> l) -> x ∈ l -> y ∈ l -> f x = f y -> x = y.
Proof.
  intros Hnodup [i Hi]%list_elem_of_lookup [j Hj]%list_elem_of_lookup Hf.
  assert (i = j) as ->; [|congruence].
  eapply (NoDup_lookup (f <$> l) i j (f x)); [done|..];
    rewrite list_lookup_fmap; [by rewrite Hi|rewrite Hj; cbn; by rewrite Hf].
Qed.

(** X7: in every heap the public operations reach, a cached command list
    does not dangle. Its iterator finds it; its allocation pointer points to
    an allocation that is locked, in a chunk of the heap whose buffer is the
    one the command list copies from; and no other cached command list has
    the same allocation. *)
Theorem X7_cached_command_lists_never_dangle (h : PooledUploadHeap)
    (e : ReusableCopyCommandListState) :
  reachable (fun _ => True) h ->
  e ∈ m_reusableCommandLists h ->
  find_node (node e) (m_reusableCommandLists h) = Some e
  /\ (exists staging c,
        find_allocation (allocation e) (m_chunks h) = Some staging
        /\ locked staging = true
        /\ c ∈ m_chunks h /\ staging ∈ allocations c
        /\ com_ptr (resource c) = chunkResource e)
  /\ forall e', e' ∈ m_reusableCommandLists h -> allocation e' = allocation e -> e' = e.
Proof.
  intros Hreach He.
  destruct (reachable_live h Hreach) as [Hshare Hlive].
  destruct (reachable_distinct h Hreach) as (_ & Haddr & Hnode).
  rewrite Forall_forall in Hlive.
  destruct (Hlive e He) as (c & staging & Hc & Hres & Hstaging & Hp & Hlocked).
  split_and!.
  - by apply (find_distinct node).
  - exists staging, c. split_and!; try done.
    unfold find_allocation. rewrite <- Hp. apply (find_distinct address); [done|].
    apply list_elem_of_bind. by exists c.
  - intros e' He' Hsame. by apply (NoDup_fmap_eq allocation (m_reusableCommandLists h)).
Qed.

(** *** Undefined behaviour *)

Lemma BeginUploadToGpu_defined env dst dstOffset dstState src s :
  total (BeginUploadToGpu env dst dstOffset dstState src)
        (fun _ _ => True) (fun _ => True) s.
Proof.
  unfold BeginUploadToGpu, ReclaimAllocations. total_steps.
  eapply total_mono; [apply Reserve_total|cbn beta|done].
  intros [chunk offsetInChunk] s1 [[c Hc] _]. total_steps.
  eapply total_deref; [exact Hc|].
  unfold push_back_allocation. by total_steps.
Qed.

Lemma RecordAndExecute_defined env key dst dstOffset dstState src s :
  total (RecordAndExecute env key dst dstOffset dstState src)
        (fun _ _ => True) (fun _ => True) s.
Proof.
  unfold RecordAndExecute. total_steps.
  eapply total_mono; [apply Reserve_total|cbn beta|done].
  intros [chunk offsetInChunk] s1 [[c Hc] _]. total_steps.
  eapply total_deref; [exact Hc|].
  unfold push_back_allocation. by total_steps.
Qed.

Lemma EvictFront_defined key s :
  m_reusableCommandLists (heap s) <> [] -> live (heap s) ->
  total (EvictFront key) (fun _ _ => True) (fun _ => True) s.
Proof.
  intros Hne [_ Hlive]. unfold EvictFront. total_steps.
  destruct (m_reusableCommandLists (heap s)) as [|front l]; [done|].
  apply Forall_cons in Hlive as [Hfront _].
  destruct (entry_live_find _ _ Hfront) as [[staging Hstaging] _].
  eapply total_deref; [done|]. total_steps.
  eapply total_deref; [exact Hstaging|]. by total_steps.
Qed.

Lemma ReExecute_defined env it src s :
  is_Some (find_node it (m_reusableCommandLists (heap s))) -> live (heap s) ->
  total (ReExecute env it src) (fun _ _ => True) (fun _ => True) s.
Proof.
  intros [entry Hentry] [_ Hlive]. unfold ReExecute. total_steps.
  eapply total_deref; [exact Hentry|].
  assert (entry ∈ m_reusableCommandLists (heap s)) as Hin.
  { unfold find_node in Hentry.
    destruct (list_find _ _) as [[i x]|] eqn:Hfind; [|done]. cbn in Hentry. simplify_eq.
    apply list_find_Some in Hfind as (Hi & _). by eapply list_elem_of_lookup_2. }
  rewrite Forall_forall in Hlive.
  destruct (entry_live_find _ _ (Hlive entry Hin)) as [[staging Hstaging] [c Hc]].
  total_steps. eapply total_deref; [exact Hstaging|]. total_steps.
  eapply total_deref; [exact Hc|]. by total_steps.
Qed.

Lemma total_defined {A} (m : M A) s :
  total m (fun _ _ => True) (fun _ => True) s <-> m s <> Undefined.
Proof. unfold total. destruct (m s); naive_solver. Qed.

(** a cached iterator that points to no node is dereferenced all the same *)
Lemma BeginReusableUploadToGpu_stale env dst dstOffset dstState src h submitted it :
  m_reusableCommandListsCache h !! mkReusableCopyKey dst dstOffset (span_size src) = Some it ->
  find_node it (m_reusableCommandLists h) = None ->
  BeginReusableUploadToGpu env dst dstOffset dstState src (mkState h submitted) = Undefined.
Proof.
  intros Hit Hnone.
  unfold BeginReusableUploadToGpu, ReclaimAllocations, ReExecute, mbind, M_bind, get_heap.
  cbn [heap]. rewrite Hit. rewrite bool_decide_eq_false_2 by done.
  unfold find_node in *. cbn. by rewrite Hnone.
Qed.

(** X8: as long as [maxReusableCommandLists] is not 0, a public operation
    on a heap that the public operations reach has undefined behaviour in
    one case only: a reusable upload whose key the cache maps to an iterator
    that points to no node of [m_reusableCommandLists]. Otherwise the
    operation returns or throws, whatever the device and the execution
    context answer. *)
Theorem X8_undefined_behaviour_only_by_stale_iterator (h : PooledUploadHeap)
    (env : Env) (op : Operation) (submitted : list Call) :
  (0 < maxReusableCommandLists)%nat ->
  reachable (fun _ => True) h ->
  perform env op (mkState h submitted) <> Undefined <-> iterator_valid h op.
Proof.
  intros Hmax Hreach. pose proof (reachable_live h Hreach) as Hlive.
  split.
  - destruct op as [dst dstOffset dstState src|dst dstOffset dstState src|]; [done| |done].
    intros Hdefined it Hit. cbn in Hdefined.
    destruct (find_node it (m_reusableCommandLists h)) eqn:Hnode; [by eexists|].
    exfalso. apply Hdefined. unfold mbind, M_bind at 1.
    by rewrite (BeginReusableUploadToGpu_stale env dst dstOffset dstState src h submitted it).
  - intros Hvalid. apply total_defined.
    destruct op as [dst dstOffset dstState src|dst dstOffset dstState src|]; cbn.
    + total_steps. eapply total_mono; [apply BeginUploadToGpu_defined|..]; [|done].
      intros ev s' _. by total_steps.
    + total_step. unfold BeginReusableUploadToGpu. do 2 total_step.
      cbn in Hvalid.
      set (key := mkReusableCopyKey dst dstOffset (span_size src)) in *.
      destruct (m_reusableCommandListsCache h !! key) as [it|] eqn:Hit.
      * rewrite bool_decide_eq_false_2 by done. cbn [andb].
        unfold ReclaimAllocations. total_steps.
        eapply total_mono; [apply ReExecute_defined|..]; cbn; [by apply Hvalid| | |done].
        -- revert Hlive. apply (live_chunks (fmap _)). intros e.
           apply entry_live_reclaimed.
        -- intros _ s' _. by total_steps.
      * total_steps.
        -- eapply total_mono; [apply EvictFront_defined|..]; cbn; [|done| |done].
           ++ match goal with H : _ && _ = true |- _ =>
                apply andb_true_iff in H as [_ Hlen%Nat.eqb_eq] end.
              intros E. rewrite E in Hlen. cbn in Hlen. lia.
           ++ intros _ s1 _. unfold ReclaimAllocations. total_steps.
              eapply total_mono; [apply RecordAndExecute_defined|..]; [|done].
              intros _ s2 _. by total_steps.
        -- unfold ReclaimAllocations. total_steps.
           eapply total_mono; [apply RecordAndExecute_defined|..]; [|done].
           intros _ s2 _. by total_steps.
    + total_steps. unfold total. rewrite Trim_returns. by total_steps.
Qed.

(** *** The cache of command lists *)

#[global] Instance keeps_cache_preorder : PreOrder keeps_cache.
Proof. split; unfold keeps_cache; [by intros h|intros h1 h2 h3 ??; by etrans]. Qed.

Lemma keeps_cache_same h h' :
  m_reusableCommandListsCache h' = m_reusableCommandListsCache h -> keeps_cache h h'.
Proof. unfold keeps_cache. by intros ->. Qed.

Lemma ReclaimAllocations_keeps_cache env : preserves keeps_cache (ReclaimAllocations env).
Proof. apply preserves_modify_heap. intros h. by apply keeps_cache_same. Qed.

Lemma Reserve_keeps_cache env size : preserves keeps_cache (Reserve env size).
Proof.
  intros s. unfold Reserve, CreateChunk. wp_steps.
  destruct (Reserve_loop _ _ _) as [found|]; wp_steps; by apply keeps_cache_same.
Qed.

Lemma push_back_allocation_keeps_cache chunk size offset event lock :
  preserves keeps_cache (push_back_allocation chunk size offset event lock).
Proof. intros s. unfold push_back_allocation. wp_steps. by apply keeps_cache_same. Qed.

Lemma ReExecute_keeps_cache env it src : preserves keeps_cache (ReExecute env it src).
Proof.
  unfold ReExecute. preserving. apply preserves_modify_heap. intros h.
  by apply keeps_cache_same.
Qed.

Lemma Trim_keeps_cache env : preserves keeps_cache (Trim env).
Proof. intros s. unfold wp. rewrite Trim_returns. by apply keeps_cache_same. Qed.

#[local] Hint Resolve ReclaimAllocations_keeps_cache Reserve_keeps_cache
  push_back_allocation_keeps_cache ReExecute_keeps_cache Trim_keeps_cache : preserves.

Lemma BeginUploadToGpu_keeps_cache env dst dstOffset dstState src :
  preserves keeps_cache (BeginUploadToGpu env dst dstOffset dstState src).
Proof. unfold BeginUploadToGpu. preserving. Qed.

Lemma RecordAndExecute_keeps_cache env key dst dstOffset dstState src :
  preserves keeps_cache (RecordAndExecute env key dst dstOffset dstState src).
Proof.
  intros s. unfold RecordAndExecute.
  wp_preserved keeps_cache as r s1 Hs1; [|done]. destruct r as [chunk offsetInChunk].
  wp_steps; try done.
  all: wp_preserved keeps_cache as back s2 Hs2; [|by etrans].
  all: wp_steps; [|by etrans].
  all: etrans; [done|]; etrans; [done|]; unfold keeps_cache; cbn.
  all: destruct (_ !! key) eqn:Hkey; [done|by apply insert_subseteq].
Qed.

(** the eviction erases the key of the request, which the cache does not hold *)
Lemma EvictFront_keeps_cache key s :
  m_reusableCommandListsCache (heap s) !! key = None ->
  wp (EvictFront key) (fun _ s' => keeps_cache (heap s) (heap s')) (fun _ => False) s.
Proof.
  intros Hmiss. unfold EvictFront. wp_steps. unfold keeps_cache. cbn.
  by rewrite delete_id.
Qed.

#[local] Hint Resolve BeginUploadToGpu_keeps_cache RecordAndExecute_keeps_cache : preserves.

Lemma BeginReusableUploadToGpu_keeps_cache env dst dstOffset dstState src :
  preserves keeps_cache (BeginReusableUploadToGpu env dst dstOffset dstState src).
Proof.
  intros s. unfold BeginReusableUploadToGpu. do 2 wp_step.
  set (key := mkReusableCopyKey dst dstOffset (span_size src)).
  destruct (m_reusableCommandListsCache (heap s) !! key) as [it|] eqn:Hit.
  - rewrite bool_decide_eq_false_2 by done. cbn [andb]. do 2 wp_step.
    wp_preserved keeps_cache as r1 s1 H1; [|done].
    wp_preserved keeps_cache as r2 s2 H2; [|by etrans].
    wp_steps. by etrans.
  - simple apply wp_bind.
    eapply wp_mono with (Q := fun _ s1 => keeps_cache (heap s) (heap s1)) (T := fun _ => False);
      [| |done].
    + wp_step; [|reflexivity]. by apply EvictFront_keeps_cache.
    + cbn beta. intros _ s1 H1.
      wp_preserved keeps_cache as r2 s2 H2; [|by etrans].
      wp_preserved keeps_cache as r3 s3 H3; [|by do 2 (etrans; [done|])].
      wp_steps. by do 2 (etrans; [done|]).
Qed.

(** X9: no public operation removes an entry of
    [m_reusableCommandListsCache] or changes the iterator it holds, whether
    the operation returns or throws: the eviction erases the key of the
    request that misses, not the key of the command list it evicts. *)
Theorem X9_cache_entries_are_never_removed (h h' : PooledUploadHeap) (env : Env)
    (op : Operation) (submitted : list Call) (key : ReusableCopyKey) (it : nat) :
  final_heap (perform env op (mkState h submitted)) = Some h' ->
  m_reusableCommandListsCache h !! key = Some it ->
  m_reusableCommandListsCache h' !! key = Some it.
Proof.
  intros Hfinal Hkey.
  assert (preserves keeps_cache (perform env op)) as Hkeeps.
  { destruct op; cbn; preserving. apply BeginReusableUploadToGpu_keeps_cache. }
  specialize (Hkeeps (mkState h submitted)). unfold wp in Hkeeps.
  destruct (perform env op (mkState h submitted)) as [r s'|s'|];
    cbn in Hfinal; simplify_eq; cbn in Hkeeps;
    by eapply (lookup_weaken (m_reusableCommandListsCache h)).
Qed.

(** *** Eviction *)

#[global] Instance same_allocations_preorder : PreOrder same_allocations.
Proof.
  split; [by intros h|]. intros h1 h2 h3 [H1 H2] [H3 H4]. split; congruence.
Qed.

Lemma Reserve_same_allocations env size : preserves same_allocations (Reserve env size).
Proof.
  intros s. unfold Reserve, CreateChunk. wp_steps.
  destruct (Reserve_loop _ _ _) as [found|]; wp_steps; try done.
  split; [|done]. cbn. rewrite bind_app. cbn. by rewrite !(right_id_L [] (++)).
Qed.

#[local] Hint Resolve Reserve_same_allocations : preserves.



(** *** A reusable upload that misses the cache *)

Lemma RecordAndExecute_recorded env dst dstOffset dstState src s :
  m_reusableCommandListsCache (heap s)
    !! mkReusableCopyKey dst dstOffset (span_size src) = None ->
  wp (RecordAndExecute env (mkReusableCopyKey dst dstOffset (span_size src))
        dst dstOffset dstState src)
     (fun _ s' => recorded env (mkReusableCopyKey dst dstOffset (span_size src))
                    dstState src s')
     (fun _ => True) s.
Proof.
  intros Hmiss. unfold RecordAndExecute.
  set (key := mkReusableCopyKey dst dstOffset (span_size src)) in *.
  wp_preserved (settles key) as r s1 Hs1; [|done]. destruct r as [chunk offsetInChunk].
  destruct Hs1 as (_ & _ & _ & Hcache). specialize (Hcache Hmiss).
  unfold recorded, recorded_copy.
  destruct (needs_transition dstState); unfold push_back_allocation; wp_steps; try done.
  all: match goal with H : m_chunks _ !! _ = Some ?c |- _ =>
         rename H into Hchunk; rename c into c0 end.
  all: match goal with H : env_CreateCommandAllocator _ = Some ?a |- _ => rename a into ca end.
  all: eexists (mkCommandListState _ _ _ _ _), (mkAllocation _ _ _ _ _),
         (set_allocations (fun l => l ++ [_]) c0),
         (log s1 ++ [CreateCommandAllocator; CreateCommandList ca]).
  all: cbn; split_and!;
    [apply last_snoc
    |by rewrite Hcache, lookup_insert_eq
    |eapply list_elem_of_lookup_2; by rewrite list_lookup_alter_eq, Hchunk
    |done
    |cbn; apply last_snoc
    |done|done|done
    |by rewrite <- !(assoc_L (++))
    |by rewrite <- !(assoc_L (++))].
Qed.

(** X11: a reusable upload whose key is not cached, when it returns, has
    staged the bytes in an allocation at the back of a chunk, locked, of the
    size of the source, and has recorded, closed and executed a command list
    that copies from there to the destination, between a transition of the
    destination to the copy state and back unless it is in that state
    already; the command list is at the back of the list and in the cache
    under the key. The [doneEvent] of the allocation is the completion event
    read before the execution of the command list; the event the call
    returns is read after it. *)
Theorem X11_miss_records_and_executes (h : PooledUploadHeap) (env : Env)
    (dst : Handle) (dstOffset dstState : Z) (src : Span) (submitted : list Call)
    (event : GpuEvent) (s' : State) :
  m_reusableCommandListsCache h !! mkReusableCopyKey dst dstOffset (span_size src) = None ->
  BeginReusableUploadToGpu env dst dstOffset dstState src (mkState h submitted)
    = Returns event s' ->
  recorded env (mkReusableCopyKey dst dstOffset (span_size src)) dstState src s'
  /\ event = env_GetCurrentCompletionEvent env (log s').
Proof.
  intros Hmiss Hcall.
  set (key := mkReusableCopyKey dst dstOffset (span_size src)) in *.
  assert (wp (BeginReusableUploadToGpu env dst dstOffset dstState src)
            (fun ev s' => recorded env key dstState src s'
                          /\ ev = env_GetCurrentCompletionEvent env (log s'))
            (fun _ => True) (mkState h submitted)) as Hwp.
  { unfold BeginReusableUploadToGpu. do 2 wp_step. fold key. cbn [heap]. rewrite Hmiss.
    wp_preserved (settles key) as r1 s1 Hs1; [|done].
    wp_preserved (settles key) as r2 s2 Hs2; [|done].
    assert (settles key h (heap s2)) as (_ & _ & _ & Hcache) by (by etrans).
    specialize (Hcache Hmiss).
    simple apply wp_bind.
    eapply wp_mono; [by apply RecordAndExecute_recorded|cbn beta|done].
    intros _ s3 Hrecorded. by wp_steps. }
  unfold wp in Hwp. by rewrite Hcall in Hwp.
Qed.

(** *** [BeginUploadToGpu] *)

(** [Reserve] leaves the chunks as they are, or adds one without allocations *)
Lemma Reserve_chunks env size s :
  wp (Reserve env size)
     (fun _ s' =>
        m_chunks (heap s') = m_chunks (heap s)
        \/ exists c, m_chunks (heap s') = m_chunks (heap s) ++ [c] /\ allocations c = [])
     (fun s' => heap s' = heap s /\ env_CreateCommittedResource env = None) s.
Proof.
  unfold Reserve, CreateChunk. wp_steps.
  destruct (Reserve_loop _ _ _) as [found|]; wp_steps; [by left| |done].
  right. by eexists.
Qed.

(** X12: when the device and the execution context succeed,
    [BeginUploadToGpu] returns. It has copied the source bytes to an offset
    of a chunk's buffer and submitted the copy from there to the destination.
    The event it returns is the completion event read after that
    submission, and it has added one allocation record, at the back of that
    chunk: of the size of the source, at that offset, not locked, with the
    returned event as its [doneEvent]. The cached command lists are the
    same. *)
Theorem X12_BeginUploadToGpu_returns (env : Env) (dst : Handle) (dstOffset dstState : Z)
    (src : Span) (s : State) :
  is_Some (env_CreateCommittedResource env) ->
  env_Map env = true -> env_CopyBufferRegion env = true ->
  exists event s' c staging pre,
    BeginUploadToGpu env dst dstOffset dstState src s = Returns event s'
    /\ c ∈ m_chunks (heap s') /\ last (allocations c) = Some staging
    /\ sizeInBytes staging = span_size src /\ locked staging = false
    /\ doneEvent staging = event
    /\ log s' = pre ++ [Map (com_ptr (resource c));
                        Memcpy (com_ptr (resource c)) (offsetInChunk staging) src;
                        Unmap (com_ptr (resource c));
                        CopyBufferRegion dst dstOffset dstState (com_ptr (resource c))
                          (offsetInChunk staging) D3D12_RESOURCE_STATE_GENERIC_READ
                          (span_size src)]
    /\ event = env_GetCurrentCompletionEvent env (log s')
    /\ same_lists (heap s) (heap s')
    /\ length (m_chunks (heap s') ≫= allocations)
       = S (length (reclaimed env (m_chunks (heap s)) ≫= allocations)).
Proof.
  intros [buffer Hdevice] Hmap Hcopy.
  assert (total (BeginUploadToGpu env dst dstOffset dstState src)
            (fun event s' => exists c staging pre,
               c ∈ m_chunks (heap s') /\ last (allocations c) = Some staging
               /\ sizeInBytes staging = span_size src /\ locked staging = false
               /\ doneEvent staging = event
               /\ log s' = pre ++ [Map (com_ptr (resource c));
                                   Memcpy (com_ptr (resource c)) (offsetInChunk staging) src;
                                   Unmap (com_ptr (resource c));
                                   CopyBufferRegion dst dstOffset dstState
                                     (com_ptr (resource c)) (offsetInChunk staging)
                                     D3D12_RESOURCE_STATE_GENERIC_READ (span_size src)]
               /\ event = env_GetCurrentCompletionEvent env (log s')
               /\ same_lists (heap s) (heap s')
               /\ length (m_chunks (heap s') ≫= allocations)
                  = S (length (reclaimed env (m_chunks (heap s)) ≫= allocations)))
            (fun _ => False) s) as Htotal.
  { unfold BeginUploadToGpu, ReclaimAllocations. total_steps.
    fold (reclaimed env (m_chunks (heap s))).
    set (s0 := mkState _ _).
    pose proof (wp_and _ _ _ _ _ _ (Reserve_chunks env (span_size src) s0)
                  (Reserve_same_lists env (span_size src) s0)) as Hwp.
    eapply total_mono; [exact (total_wp _ _ _ _ _ _ (Reserve_total env (span_size src) s0) Hwp)
                       |cbn beta|cbn beta]; [|intros s1 [Hnone _]; congruence].
    intros [chunk offsetInChunk] s1 [[[c Hc] _] [Hchunks Hlists]]. cbn in Hc. total_steps.
    eapply total_deref; [exact Hc|]. unfold push_back_allocation.
    total_steps; try congruence.
    eexists (set_allocations (fun l => l ++ [_]) c), (mkAllocation _ _ _ _ _), (log s1).
    cbn. split_and!; try done.
    - eapply list_elem_of_lookup_2. by rewrite list_lookup_alter_eq, Hc.
    - apply last_snoc.
    - by rewrite <- !(assoc_L (++)).
    - rewrite (allocations_push _ _ c) by done. cbn. f_equal.
      destruct Hchunks as [E|(c' & E & Hc')]; rewrite E; [done|].
      rewrite bind_app. cbn. by rewrite Hc', !(right_id_L [] (++)). }
  unfold total in Htotal.
  destruct (BeginUploadToGpu env dst dstOffset dstState src s) as [event s'|s'|];
    [|done..].
  destruct Htotal as (c & staging & pre & H). by exists event, s', c, staging, pre.
Qed.

(** X13: when [BeginUploadToGpu] throws, the device, the mapping or the
    submission of the copy has failed, and the call has added no allocation
    record: the chunks are left as [ReclaimAllocations] leaves them, with at
    most one new chunk without allocations at the back, and the cached
    command lists are the same. *)
Theorem X13_BeginUploadToGpu_throws (env : Env) (dst : Handle) (dstOffset dstState : Z)
    (src : Span) (s s' : State) :
  BeginUploadToGpu env dst dstOffset dstState src s = Throws s' ->
  (env_CreateCommittedResource env = None \/ env_Map env = false
   \/ env_CopyBufferRegion env = false)
  /\ (m_chunks (heap s') = reclaimed env (m_chunks (heap s))
      \/ exists c, m_chunks (heap s') = reclaimed env (m_chunks (heap s)) ++ [c]
                   /\ allocations c = [])
  /\ same_lists (heap s) (heap s').
Proof.
  intros Hcall.
  assert (wp (BeginUploadToGpu env dst dstOffset dstState src) (fun _ _ => True)
            (fun s' =>
               (env_CreateCommittedResource env = None \/ env_Map env = false
                \/ env_CopyBufferRegion env = false)
               /\ (m_chunks (heap s') = reclaimed env (m_chunks (heap s))
                   \/ exists c, m_chunks (heap s') = reclaimed env (m_chunks (heap s)) ++ [c]
                                /\ allocations c = [])
               /\ same_lists (heap s) (heap s')) s) as Hwp.
  { unfold BeginUploadToGpu, ReclaimAllocations. wp_steps.
    fold (reclaimed env (m_chunks (heap s))).
    set (s0 := mkState _ _).
    eapply wp_mono; [exact (wp_and _ _ _ _ _ _ (Reserve_chunks env (span_size src) s0)
                              (Reserve_same_lists env (span_size src) s0))
                    |cbn beta|cbn beta].
    - intros [chunk offsetInChunk] s1 [Hchunks Hlists].
      unfold push_back_allocation. wp_steps; auto.
    - intros s1 [[-> Hnone] _]. split_and!; [by left|by left|done]. }
  unfold wp in Hwp. by rewrite Hcall in Hwp.
Qed.

(** *** What [AssertInvariants] checks *)

Lemma is_sorted_ascending chunks : is_sorted chunks = true -> ascending_capacity chunks.
Proof.
  induction chunks as [|lhs [|rhs chunks] IH]; [constructor|repeat constructor|].
  change (is_sorted (lhs :: rhs :: chunks))
    with (negb (capacityInBytes rhs <? capacityInBytes lhs) && is_sorted (rhs :: chunks)).
  intros [Hle%negb_true_iff%Z.ltb_ge Hrest%IH]%andb_true_iff.
  apply StronglySorted_cons. split; [|done].
  apply StronglySorted_cons in Hrest as [Hall _].
  constructor; [done|]. eapply Forall_impl; [done|]. cbn. lia.
Qed.

#[global] Instance not_after_transitive : Transitive not_after.
Proof. intros a b c. unfold not_after, allocOffsetComparer. lia. Qed.

(** in a list sorted by offset it is enough to compare neighbours *)
Lemma no_overlap_sorted_separate (l : list Allocation) :
  Forall (fun a => 0 <= offsetInChunk a /\ 0 <= sizeInBytes a
                   /\ offsetInChunk a + sizeInBytes a < SizeT.modulus) l ->
  StronglySorted not_after l ->
  no_overlap_sorted l = true -> StronglySorted separate l.
Proof.
  intros Hall Hsorted.
  induction l as [|a [|b l] IH]; [constructor|repeat constructor|].
  change (no_overlap_sorted (a :: b :: l))
    with ((SizeT.add (offsetInChunk a) (sizeInBytes a) <=? offsetInChunk b)
          && no_overlap_sorted (b :: l)).
  apply Forall_cons in Hall as [Ha Hall].
  apply StronglySorted_cons in Hsorted as [_ Hsorted].
  intros [Hab%Z.leb_le Hrest]%andb_true_iff.
  unfold SizeT.add in Hab. rewrite wrap_small in Hab by lia.
  apply StronglySorted_cons. split; [|by apply IH].
  pose proof Hsorted as [Hb _]%StronglySorted_cons.
  constructor.
  - left. unfold before, extent. cbn. lia.
  - eapply Forall_impl; [exact Hb|]. intros y Hy. left.
    unfold before, extent, not_after, allocOffsetComparer in *. cbn. lia.
Qed.

Lemma separate_no_overlap (l : list Allocation) :
  StronglySorted separate l -> no_overlap l.
Proof.
  intros Hsep i j a b Hij Ha Hb [Hab Hba].
  assert (separate a b) as [H|H].
  { destruct (decide (i < j)%nat).
    - by eapply (StronglySorted_lookup _ l i j).
    - symmetry. eapply (StronglySorted_lookup _ l j i); [done|lia|done..]. }
  all: unfold before, extent in H; cbn in H; lia.
Qed.

(** X14: the assertions of [AssertInvariants] are enough for the five
    invariants: on a heap whose sizes do not reach beyond the range of
    [size_t], with an alignment that is not 0, every assertion passing means
    that the chunks are sorted by ascending capacity, that the capacity of a
    chunk is the width of its buffer, that every allocation lies within its
    chunk at an aligned offset, that no two allocations of a chunk overlap
    (the assertions compare the neighbours in the order of the offsets
    only), and that [m_totalCapacity] is the sum of the capacities. *)
Theorem X14_AssertInvariants_sound (h : PooledUploadHeap) :
  0 < c_allocationAlignment ->
  no_wrap h ->
  AssertInvariants h = true -> Invariants h.
Proof.
  intros HA [Hrange Hsum]. unfold AssertInvariants. rewrite !andb_true_iff.
  intros ((((Hsorted & Hres) & Halloc) & Hoverlap) & Htotal).
  rewrite forallb_forall in Hres, Halloc, Hoverlap.
  rewrite Forall_forall in Hrange.
  split.
  - by apply is_sorted_ascending.
  - apply Forall_forall. intros c Hc%list_elem_of_In%Hres. by apply Z.eqb_eq.
  - apply Forall_forall. intros c Hc. apply Forall_forall. intros a Ha.
    destruct (Hrange c Hc) as [_ Hallocs]. rewrite Forall_forall in Hallocs.
    specialize (Hallocs a Ha).
    apply list_elem_of_In, Halloc in Hc. rewrite forallb_forall in Hc.
    apply list_elem_of_In, Hc in Ha.
    apply andb_true_iff in Ha as [Hend%Z.leb_le Hmod%Z.eqb_eq].
    unfold SizeT.add in Hend. rewrite wrap_small in Hend by lia. done.
  - apply Forall_forall. intros c Hc.
    destruct (Hrange c Hc) as [_ Hallocs].
    apply list_elem_of_In, Hoverlap in Hc.
    apply separate_no_overlap.
    eapply StronglySorted_Permutation; [apply _|apply (merge_sort_Permutation not_after)|].
    apply no_overlap_sorted_separate; [|apply StronglySorted_merge_sort; apply _|exact Hc].
    by rewrite merge_sort_Permutation.
  - apply Z.eqb_eq in Htotal. rewrite calculatedCapacity_wrap in Htotal.
    rewrite <- Htotal. apply wrap_small. split; [|done].
    clear -Hrange. induction (m_chunks h) as [|c chunks IH]; [done|].
    rewrite sum_capacity_cons.
    assert (0 <= capacityInBytes c) by (apply Hrange; by left).
    assert (0 <= sum_capacity chunks); [|lia].
    apply IH. intros c' Hc'. apply Hrange. by right.
Qed.

(** *** The growth of the pool *)

Lemma doubling_from_capacities base chunks chunks' :
  capacityInBytes <$> chunks' = capacityInBytes <$> chunks ->
  doubling_from base chunks -> doubling_from base chunks'.
Proof.
  revert base chunks'. induction chunks as [|c chunks IH]; intros base [|c' chunks'];
    cbn; try done.
  intros [= Hc Hrest] (? & ? & ?). rewrite Hc. split_and!; [done..|]. by apply IH.
Qed.

Lemma doubling_from_app base chunks c :
  doubling_from base chunks ->
  c_minChunkSize <= capacityInBytes c ->
  base + sum_capacity chunks <= capacityInBytes c ->
  doubling_from base (chunks ++ [c]).
Proof.
  revert base. induction chunks as [|c' chunks IH]; intros base; cbn [doubling_from app].
  - unfold sum_capacity. cbn. intros _ ? ?. split_and!; [done|lia|done].
  - rewrite sum_capacity_cons. intros (? & ? & ?) ? ?. split_and!; [done..|].
    apply IH; [done..|lia].
Qed.

Lemma doubling_from_mono base base' chunks :
  base' <= base -> doubling_from base chunks -> doubling_from base' chunks.
Proof.
  revert base base'. induction chunks as [|c chunks IH]; intros base base' Hle; cbn; [done|].
  intros (? & ? & ?). split_and!; [done|lia|]. eapply IH; [|done]. lia.
Qed.

Lemma doubling_from_sublist base chunks chunks' :
  chunks' `sublist_of` chunks ->
  Forall (fun c => 0 <= capacityInBytes c) chunks ->
  doubling_from base chunks -> doubling_from base chunks'.
Proof.
  intros Hsub. revert base.
  induction Hsub as [|c l1 l2 _ IH|c l1 l2 _ IH]; intros base; [done|..];
    intros [Hc Hall]%Forall_cons; cbn; intros (? & ? & Hrest).
  - split_and!; [done..|]. by apply IH.
  - eapply doubling_from_mono; [|by apply IH]. lia.
Qed.

Lemma doubling_from_lookup base chunks i c :
  doubling_from base chunks -> chunks !! i = Some c ->
  c_minChunkSize <= capacityInBytes c
  /\ base + sum_capacity (take i chunks) <= capacityInBytes c.
Proof.
  revert base i. induction chunks as [|c' chunks IH]; intros base i; [done|].
  cbn [doubling_from]. intros (? & ? & Hrest) Hi. destruct i as [|i]; cbn in Hi.
  - simplify_eq. unfold sum_capacity. cbn. lia.
  - destruct (IH _ _ Hrest Hi) as [? ?]. cbn [take]. rewrite sum_capacity_cons. lia.
Qed.

#[global] Instance keeps_capacities_preorder : PreOrder keeps_capacities.
Proof.
  split; unfold keeps_capacities; [by intros h|intros h1 h2 h3 ??; congruence].
Qed.

Lemma keeps_capacities_doubling h h' :
  keeps_capacities h h' -> doubling h -> doubling h'.
Proof. intros Hcaps. by apply doubling_from_capacities. Qed.

Lemma keeps_capacities_fmap (F : Chunk -> Chunk) h :
  (forall c, capacityInBytes (F c) = capacityInBytes c) ->
  keeps_capacities h (set_chunks (fmap F) h).
Proof.
  intros HF. unfold keeps_capacities, capacities. cbn.
  rewrite <- list_fmap_compose. apply list_fmap_ext. intros _ c _. apply HF.
Qed.

Lemma push_back_allocation_keeps_capacities chunk size offset event lock :
  preserves keeps_capacities (push_back_allocation chunk size offset event lock).
Proof.
  intros s. unfold push_back_allocation. wp_steps.
  unfold keeps_capacities, capacities. cbn. apply list_eq. intros i.
  rewrite !list_lookup_fmap, list_lookup_alter. case_decide; [|done].
  subst i. by destruct (m_chunks (heap s) !! chunk).
Qed.

#[local] Hint Resolve push_back_allocation_keeps_capacities : preserves.

(** a new chunk is at least as large as the pool *)
Lemma Reserve_doubling env size s :
  power_of_two c_allocationAlignment ->
  heap_wf (heap s) -> fits_address_space (heap s) -> doubling (heap s) ->
  wp (Reserve env size) (fun _ s' => doubling (heap s')) (fun s' => doubling (heap s')) s.
Proof.
  intros (k & Hk & HA) (Hall & _ & Htotal) Hfits Hdoubling.
  pose proof (pow2_le_modulus k Hk) as Hp.
  pose proof (sum_capacity_nonneg _ Hall) as Hsum.
  unfold fits_address_space in Hfits.
  unfold Reserve, CreateChunk. wp_steps.
  destruct (Reserve_loop _ _ _) as [found|]; wp_steps; try done.
  unfold doubling. cbn. apply doubling_from_app; cbn; [done|lia|].
  rewrite Htotal, wrap_small by lia. lia.
Qed.

Lemma BeginUploadToGpu_doubling env dst dstOffset dstState src s :
  power_of_two c_allocationAlignment ->
  heap_wf (heap s) -> fits_address_space (heap s) -> doubling (heap s) ->
  wp (BeginUploadToGpu env dst dstOffset dstState src)
     (fun _ s' => doubling (heap s')) (fun s' => doubling (heap s')) s.
Proof.
  intros HA Hwf Hfits Hdoubling. unfold BeginUploadToGpu.
  wp_preserved keeps_wf as r s1 Hs1; destruct Hs1 as [Hwf1 Hcaps];
    [|by eapply keeps_capacities_doubling].
  wp_use Reserve_doubling;
    [by eapply fits_address_space_capacities|by eapply keeps_capacities_doubling| |done].
  intros Hdoubling2. destruct a as [chunk offsetInChunk]. wp_steps; try done.
  wp_preserved keeps_capacities as back s3 Hs3; [|by eapply keeps_capacities_doubling].
  wp_steps. by eapply keeps_capacities_doubling.
Qed.

Lemma RecordAndExecute_doubling env key dst dstOffset dstState src s :
  power_of_two c_allocationAlignment ->
  heap_wf (heap s) -> fits_address_space (heap s) -> doubling (heap s) ->
  wp (RecordAndExecute env key dst dstOffset dstState src)
     (fun _ s' => doubling (heap s')) (fun s' => doubling (heap s')) s.
Proof.
  intros HA Hwf Hfits Hdoubling. unfold RecordAndExecute.
  wp_use Reserve_doubling; [|done].
  intros Hdoubling2. destruct a as [chunk offsetInChunk]. wp_steps; try done.
  all: wp_preserved keeps_capacities as back s3 Hs3; [|by eapply keeps_capacities_doubling].
  all: wp_steps; by eapply keeps_capacities_doubling.
Qed.

Lemma BeginReusableUploadToGpu_doubling env dst dstOffset dstState src s :
  power_of_two c_allocationAlignment ->
  heap_wf (heap s) -> fits_address_space (heap s) -> doubling (heap s) ->
  wp (BeginReusableUploadToGpu env dst dstOffset dstState src)
     (fun _ s' => doubling (heap s')) (fun s' => doubling (heap s')) s.
Proof.
  intros HA Hwf Hfits Hdoubling. unfold BeginReusableUploadToGpu. do 2 wp_step.
  wp_preserved keeps_wf as r s1 Hs1; destruct Hs1 as [Hwf1 Hcaps1];
    [|by eapply keeps_capacities_doubling].
  wp_preserved keeps_wf as r2 s2 Hs2; destruct Hs2 as [Hwf2 Hcaps2];
    [|eapply keeps_capacities_doubling; [|done]; unfold keeps_capacities; congruence].
  assert (keeps_capacities (heap s) (heap s2)) as Hcaps
    by (unfold keeps_capacities; congruence).
  destruct (m_reusableCommandListsCache (heap s) !! _) as [it|].
  - wp_preserved keeps_wf as r3 s3 Hs3; destruct Hs3 as [_ Hcaps3].
    all: try wp_steps.
    all: eapply keeps_capacities_doubling; [|done]; unfold keeps_capacities in *; congruence.
  - wp_use RecordAndExecute_doubling;
      [by eapply fits_address_space_capacities
      |by eapply keeps_capacities_doubling| |done].
    intros Hdoubling3. by wp_steps.
Qed.

Lemma Trim_doubling env s :
  heap_wf (heap s) -> doubling (heap s) ->
  wp (Trim env) (fun _ s' => doubling (heap s')) (fun s' => doubling (heap s')) s.
Proof.
  intros (Hall & _) Hdoubling. unfold wp. rewrite Trim_returns. cbn.
  unfold doubling. cbn.
  eapply doubling_from_sublist; [apply sublist_filter| |].
  - apply Forall_fmap. eapply Forall_impl; [done|]. by intros c [? _].
  - eapply doubling_from_capacities; [|done].
    rewrite <- list_fmap_compose. by apply list_fmap_ext.
Qed.

Lemma reachable_doubling h :
  power_of_two c_allocationAlignment ->
  reachable fits_address_space h -> doubling h.
Proof.
  intros HA. induction 1 as [|h env op h' Hreach IH Hvalid Hfinal _]; [done|].
  pose proof (reachable_wf h HA Hreach) as Hwf.
  pose proof (reachable_holds _ _ Hreach) as Hfits.
  assert (wp (perform env op) (fun _ s' => doubling (heap s'))
            (fun s' => doubling (heap s')) (mkState h [])) as Hwp.
  { destruct op as [dst dstOffset dstState src|dst dstOffset dstState src|]; cbn.
    - wp_use BeginUploadToGpu_doubling; [|done]. intros ?. by wp_steps.
    - wp_use BeginReusableUploadToGpu_doubling; [|done]. intros ?. by wp_steps.
    - wp_use Trim_doubling; [|done]. intros ?. by wp_steps. }
  unfold wp in Hwp. destruct (perform env op (mkState h [])) as [r s'|s'|];
    cbn in Hfinal; by simplify_eq.
Qed.

(** X15: the pool grows by doubling, and [Trim] does not undo it: in every
    heap the public operations reach, every chunk has at least the minimal
    chunk size and is at least as large as all the chunks before it
    together. *)
Theorem X15_chunks_double (h : PooledUploadHeap) (i : nat) (c : Chunk) :
  power_of_two c_allocationAlignment ->
  reachable fits_address_space h ->
  m_chunks h !! i = Some c ->
  c_minChunkSize <= capacityInBytes c
  /\ sum_capacity (take i (m_chunks h)) <= capacityInBytes c.
Proof.
  intros HA Hreach Hc.
  destruct (doubling_from_lookup 0 _ i c (reachable_doubling h HA Hreach) Hc). split; [done|lia].
Qed.

(** *** Allocations whose event is not signaled *)

#[global] Instance keeps_busy_preorder env : PreOrder (keeps_busy env).
Proof.
  split.
  - intros h c a Hc Ha _. by exists c, a.
  - intros h1 h2 h3 H12 H23 c a Hc Ha Hbusy.
    destruct (H12 c a Hc Ha Hbusy) as (c' & a' & Hc' & ? & ? & Ha' & ? & ? & ? & Hevent).
    destruct (H23 c' a' Hc' Ha' ltac:(by rewrite Hevent))
      as (c'' & a'' & ? & ? & ? & ? & ? & ? & ? & ?).
    exists c'', a''. split_and!; [done|congruence..].
Qed.

Lemma keeps_busy_kept env h h' c a :
  keeps_busy env h h' -> c ∈ m_chunks h -> a ∈ allocations c ->
  env_IsSignaled env (doneEvent a) = false -> kept h' c a.
Proof.
  intros Hkeeps Hc Ha Hbusy.
  destruct (Hkeeps c a Hc Ha Hbusy) as (c' & a' & ? & ? & ? & ? & ? & ? & ? & _).
  by exists c', a'.
Qed.

Lemma keeps_busy_same env h h' : m_chunks h' = m_chunks h -> keeps_busy env h h'.
Proof. intros E c a Hc Ha _. exists c, a. by rewrite E. Qed.

Lemma keeps_busy_reclaimed env h : keeps_busy env h (set_chunks (reclaimed env) h).
Proof.
  intros c a Hc Ha Hbusy.
  exists (set_allocations (filter (fun a => ¬ reclaimable env a)) c), a.
  split_and!; try done.
  - unfold reclaimed. cbn. by apply list_elem_of_fmap_2.
  - cbn. apply list_elem_of_filter. split; [|done].
    unfold reclaimable. rewrite Hbusy, andb_false_r. cbn. tauto.
Qed.

Lemma keeps_busy_update env p (f : Allocation -> Allocation) h :
  (forall a, address (f a) = address a /\ offsetInChunk (f a) = offsetInChunk a
             /\ sizeInBytes (f a) = sizeInBytes a /\ doneEvent (f a) = doneEvent a) ->
  keeps_busy env h (set_chunks (update_allocation p f) h).
Proof.
  intros Hf c a Hc Ha _.
  set (g := fun a : Allocation => if decide (address a = p) then f a else a).
  exists (set_allocations (fmap g) c), (g a). split_and!; try done.
  - unfold update_allocation. cbn. by apply (list_elem_of_fmap_2 (set_allocations (fmap g))).
  - cbn. by apply list_elem_of_fmap_2.
  - unfold g. case_decide; [apply Hf|done].
  - unfold g. case_decide; [apply Hf|done].
  - unfold g. case_decide; [apply Hf|done].
  - unfold g. case_decide; [apply Hf|done].
Qed.

Lemma keeps_busy_push env i x h :
  keeps_busy env h (set_chunks (alter (set_allocations (fun l => l ++ [x])) i) h).
Proof.
  intros c a Hc Ha _. apply list_elem_of_lookup in Hc as [j Hj].
  destruct (decide (j = i)) as [->|Hne].
  - exists (set_allocations (fun l => l ++ [x]) c), a. split_and!; try done.
    + cbn. eapply list_elem_of_lookup_2. by rewrite list_lookup_alter_eq, Hj.
    + cbn. apply elem_of_app. by left.
  - exists c, a. split_and!; try done.
    cbn. eapply list_elem_of_lookup_2. by rewrite list_lookup_alter_ne.
Qed.

Lemma ReclaimAllocations_keeps_busy env : preserves (keeps_busy env) (ReclaimAllocations env).
Proof. apply preserves_modify_heap. intros h. apply keeps_busy_reclaimed. Qed.

Lemma EvictFront_keeps_busy env key : preserves (keeps_busy env) (EvictFront key).
Proof.
  unfold EvictFront. preserving; apply preserves_modify_heap; intros h.
  - by apply keeps_busy_update.
  - by apply keeps_busy_same.
  - by apply keeps_busy_same.
Qed.

Lemma Reserve_keeps_busy env' env size : preserves (keeps_busy env') (Reserve env size).
Proof.
  intros s. unfold Reserve, CreateChunk. wp_steps.
  destruct (Reserve_loop _ _ _) as [found|]; wp_steps; try done.
  intros c0 x Hc Hx _. exists c0, x. split_and!; try done. cbn. apply elem_of_app. by left.
Qed.

Lemma push_back_allocation_keeps_busy env chunk size offset event lock :
  preserves (keeps_busy env) (push_back_allocation chunk size offset event lock).
Proof.
  intros s. unfold push_back_allocation. wp_steps.
  etrans; [apply keeps_busy_push|]. by apply keeps_busy_same.
Qed.

#[local] Hint Resolve ReclaimAllocations_keeps_busy EvictFront_keeps_busy
  Reserve_keeps_busy push_back_allocation_keeps_busy : preserves.

Lemma BeginUploadToGpu_keeps_busy env dst dstOffset dstState src :
  preserves (keeps_busy env) (BeginUploadToGpu env dst dstOffset dstState src).
Proof. unfold BeginUploadToGpu. preserving. Qed.

Lemma RecordAndExecute_keeps_busy env key dst dstOffset dstState src :
  preserves (keeps_busy env) (RecordAndExecute env key dst dstOffset dstState src).
Proof.
  intros s. unfold RecordAndExecute.
  wp_preserved (keeps_busy env) as r s1 Hs1; [|done]. destruct r as [chunk offsetInChunk].
  wp_steps; try done.
  all: wp_preserved (keeps_busy env) as back s2 Hs2; [|by etrans].
  all: wp_steps; [|by etrans].
  all: etrans; [done|]; etrans; [done|]; by apply keeps_busy_same.
Qed.

Lemma Trim_keeps_busy env : preserves (keeps_busy env) (Trim env).
Proof.
  intros s. unfold wp. rewrite Trim_returns. cbn.
  intros c a Hc Ha Hbusy.
  destruct (keeps_busy_reclaimed env (heap s) c a Hc Ha Hbusy)
    as (c' & a' & Hc' & ? & ? & Ha' & ? & ? & ? & ?).
  exists c', a'. split_and!; try done. cbn.
  apply list_elem_of_filter. split; [|done].
  destruct (allocations c'); [by apply elem_of_nil in Ha'|cbn; tauto].
Qed.

(** a hit changes the event of the cached allocation and nothing else *)
Lemma ReExecute_kept env it src s c a :
  c ∈ m_chunks (heap s) -> a ∈ allocations c ->
  wp (ReExecute env it src) (fun _ s' => kept (heap s') c a) (fun s' => kept (heap s') c a) s.
Proof.
  intros Hc Ha. unfold ReExecute. wp_steps; try by exists c, a.
  match goal with |- kept (set_chunks (update_allocation ?p ?f) _) _ _ =>
    set (g := fun a : Allocation => if decide (address a = p) then f a else a) end.
  exists (set_allocations (fmap g) c), (g a). split_and!; try done.
  - unfold update_allocation. cbn. by apply (list_elem_of_fmap_2 (set_allocations (fmap g))).
  - cbn. by apply list_elem_of_fmap_2.
  - unfold g. by case_decide.
  - unfold g. by case_decide.
  - unfold g. by case_decide.
Qed.

#[local] Hint Resolve BeginUploadToGpu_keeps_busy RecordAndExecute_keeps_busy
  Trim_keeps_busy : preserves.

(** X16: a public operation keeps every allocation record whose stored
    [doneEvent] is not signaled when the operation runs: whether the operation
    returns or throws, the record is still in the heap afterwards, in a chunk
    with the same buffer and capacity, with the same address, offset and
    size. What is kept is decided by the stored event alone: an unlocked
    record whose stored event is signaled is released, and
    [BeginReusableUploadToGpu], when it records a command list, stores the
    event it reads before it executes the command list. *)
Theorem X16_unsignaled_allocations_are_kept (h h' : PooledUploadHeap) (env : Env)
    (op : Operation) (submitted : list Call) (c : Chunk) (a : Allocation) :
  final_heap (perform env op (mkState h submitted)) = Some h' ->
  c ∈ m_chunks h -> a ∈ allocations c ->
  env_IsSignaled env (doneEvent a) = false ->
  kept h' c a.
Proof.
  intros Hfinal Hc Ha Hbusy.
  assert (wp (perform env op) (fun _ s' => kept (heap s') c a)
            (fun s' => kept (heap s') c a) (mkState h submitted)) as Hwp.
  { destruct op as [dst dstOffset dstState src|dst dstOffset dstState src|]; cbn.
    - wp_preserved (keeps_busy env) as r s1 Hs1; [|by eapply keeps_busy_kept].
      wp_steps. by eapply keeps_busy_kept.
    - simple apply wp_bind. unfold BeginReusableUploadToGpu. do 2 wp_step.
      wp_preserved (keeps_busy env) as r1 s1 Hs1; [|by eapply keeps_busy_kept].
      wp_preserved (keeps_busy env) as r2 s2 Hs2;
        [|eapply keeps_busy_kept; [|done..]; by etrans].
      assert (keeps_busy env h (heap s2)) as Hs by (by etrans).
      destruct (m_reusableCommandListsCache h !! _) as [it|].
      + destruct (Hs c a Hc Ha Hbusy) as (c' & a' & Hc' & ? & ? & Ha' & ? & ? & ? & _).
        simple apply wp_bind.
        eapply wp_mono; [by apply (ReExecute_kept env it src s2 c' a')|..]; cbn beta.
        * intros _ s3 (c'' & a'' & ? & ? & ? & ? & ? & ? & ?). wp_steps.
          exists c'', a''. split_and!; [done|congruence..].
        * intros s3 (c'' & a'' & ? & ? & ? & ? & ? & ? & ?).
          exists c'', a''. split_and!; [done|congruence..].
      + wp_preserved (keeps_busy env) as r3 s3 Hs3;
          [|eapply keeps_busy_kept; [|done..]; by etrans].
        wp_steps. eapply keeps_busy_kept; [|done..]. by etrans.
    - wp_preserved (keeps_busy env) as r s1 Hs1; [|by eapply keeps_busy_kept].
      wp_steps. by eapply keeps_busy_kept. }
  unfold wp in Hwp. destruct (perform env op (mkState h submitted)) as [r s'|s'|];
    cbn in Hfinal; by simplify_eq.
Qed.

(** *** Memory the GPU has finished with *)

Lemma all_reclaimed_reclaimed env n h : all_reclaimed env n (set_chunks (reclaimed env) h).
Proof.
  intros a. unfold reclaimed. cbn. rewrite allocations_filter.
  intros [Hkeep _]%list_elem_of_filter. unfold reclaimable in Hkeep.
  destruct (locked a), (env_IsSignaled env (doneEvent a)); cbn in Hkeep; tauto.
Qed.

Lemma all_reclaimed_same env n h h' :
  m_chunks h' ≫= allocations = m_chunks h ≫= allocations ->
  all_reclaimed env n h -> all_reclaimed env n h'.
Proof. intros E H a. rewrite E. apply H. Qed.

Lemma all_reclaimed_push env n h h' i x :
  m_chunks h' = alter (set_allocations (fun l => l ++ [x])) i (m_chunks h) ->
  locked x = true \/ address x = n ->
  all_reclaimed env n h -> all_reclaimed env n h'.
Proof.
  intros E Hx H a. rewrite E.
  destruct (m_chunks h !! i) as [c|] eqn:Hc.
  - rewrite (allocations_push _ _ c) by done.
    intros [->|Ha]%elem_of_cons; [tauto|by apply H].
  - rewrite alter_None by done. apply H.
Qed.

(** an allocation that a cached command list points to is locked *)
Lemma cached_allocation_locked h e a :
  live h -> distinct h ->
  e ∈ m_reusableCommandLists h -> a ∈ m_chunks h ≫= allocations ->
  address a = allocation e -> locked a = true.
Proof.
  intros [_ Hlive] (_ & Hnodup & _) He Ha Haddr.
  rewrite Forall_forall in Hlive.
  destruct (Hlive e He) as (c & staging & Hc & _ & Hstaging & Hp & Hlocked).
  assert (a = staging) as ->; [|done].
  apply (NoDup_fmap_eq address (m_chunks h ≫= allocations)); [done..| |congruence].
  apply list_elem_of_bind. by exists c.
Qed.

Lemma RecordAndExecute_all_reclaimed env env' n key dst dstOffset dstState src s :
  all_reclaimed env' n (heap s) ->
  wp (RecordAndExecute env key dst dstOffset dstState src)
     (fun _ s' => all_reclaimed env' n (heap s'))
     (fun s' => all_reclaimed env' n (heap s')) s.
Proof.
  intros Hs. unfold RecordAndExecute.
  wp_preserved same_allocations as r s1 Hs1; destruct Hs1 as [Hs1 _];
    [|by eapply all_reclaimed_same].
  destruct r as [chunk offsetInChunk].
  assert (all_reclaimed env' n (heap s1)) as H1 by (by eapply all_reclaimed_same).
  unfold push_back_allocation. wp_steps; try done.
  all: eapply all_reclaimed_push; [cbn; reflexivity|by left|exact H1].
Qed.

(** X17: every public operation reclaims what can be reclaimed. In a heap
    the public operations reach, after an operation that returns or throws,
    every allocation is locked or waits for an event that is not signaled;
    the only exception is the allocation that the operation itself has
    added. *)
Theorem X17_idle_allocations_are_reclaimed (h h' : PooledUploadHeap) (env : Env)
    (op : Operation) (submitted : list Call) (c : Chunk) (a : Allocation) :
  reachable (fun _ => True) h ->
  final_heap (perform env op (mkState h submitted)) = Some h' ->
  c ∈ m_chunks h' -> a ∈ allocations c ->
  locked a = true \/ env_IsSignaled env (doneEvent a) = false
  \/ address a = next_address h.
Proof.
  intros Hreach Hfinal Hc Ha.
  pose proof (reachable_live h Hreach) as Hlive.
  pose proof (reachable_distinct h Hreach) as Hdistinct.
  set (n := next_address h).
  assert (wp (perform env op) (fun _ s' => all_reclaimed env n (heap s'))
            (fun s' => all_reclaimed env n (heap s')) (mkState h submitted)) as Hwp.
  { destruct op as [dst dstOffset dstState src|dst dstOffset dstState src|]; cbn.
    - unfold BeginUploadToGpu, ReclaimAllocations. wp_steps.
      fold (reclaimed env (m_chunks h)).
      wp_preserved same_allocations as r s1 Hs1; destruct Hs1 as [Hs1 Hnext];
        [|eapply all_reclaimed_same; [done|apply all_reclaimed_reclaimed]].
      destruct r as [chunk offsetInChunk].
      assert (all_reclaimed env n (heap s1)) as H1
        by (eapply all_reclaimed_same; [done|apply all_reclaimed_reclaimed]).
      unfold push_back_allocation. wp_steps; try done.
      eapply all_reclaimed_push; [cbn; reflexivity|by right|exact H1].
    - simple apply wp_bind. unfold BeginReusableUploadToGpu. do 2 wp_step.
      destruct (m_reusableCommandListsCache h !! _) as [it|] eqn:Hit.
      + rewrite bool_decide_eq_false_2 by done. cbn [andb].
        unfold ReclaimAllocations, ReExecute. wp_steps.
        all: try apply (all_reclaimed_reclaimed env n h).
        match goal with H : find_node _ _ = Some ?e |- _ =>
          rename H into Hnode; rename e into entry end.
        assert (entry ∈ m_reusableCommandLists h) as Hentry.
        { unfold find_node in Hnode. cbn in Hnode.
          destruct (list_find _ _) as [[i x]|] eqn:Hfind; [|done]. cbn in Hnode.
          simplify_eq. apply list_find_Some in Hfind as (Hi & _).
          by eapply list_elem_of_lookup_2. }
        intros a'. cbn. unfold update_allocation. rewrite allocations_fmap.
        intros (a0 & -> & Ha0)%list_elem_of_fmap.
        pose proof (all_reclaimed_reclaimed env n h a0 Ha0) as H0.
        case_decide as Hp; [|done]. left. cbn.
        apply (cached_allocation_locked h entry a0); [done..| |done].
        revert Ha0. cbn. unfold reclaimed. rewrite allocations_filter.
        by intros [_ ?]%list_elem_of_filter.
      + simple apply wp_bind.
        eapply wp_mono with (Q := fun _ _ => True) (T := fun _ => False); [| |done].
        { wp_step; [|done]. unfold EvictFront. by wp_steps. }
        cbn beta. intros _ s1 _. unfold ReclaimAllocations. wp_steps.
        eapply wp_mono;
          [apply RecordAndExecute_all_reclaimed, (all_reclaimed_reclaimed env n (heap s1))
          |cbn beta|done].
        intros _ s3 H3. by wp_steps.
    - simple apply wp_bind.
      eapply wp_mono with (Q := fun _ s' => all_reclaimed env n (heap s'))
                          (T := fun _ => False); [| |done].
      + unfold wp. rewrite Trim_returns. cbn. intros a'. cbn.
        intros (c' & Ha' & [_ Hc']%list_elem_of_filter)%list_elem_of_bind.
        apply (all_reclaimed_reclaimed env n h). cbn.
        apply list_elem_of_bind. by exists c'.
      + cbn beta. intros _ s1 H1. by wp_steps. }
  unfold wp in Hwp. destruct (perform env op (mkState h submitted)) as [r s'|s'|];
    cbn in Hfinal; simplify_eq; apply Hwp; apply list_elem_of_bind; by exists c.
Qed.

(** *** Failures before the execution of a command list *)

Lemma Reserve_addresses env size s :
  wp (Reserve env size)
     (fun _ s' =>
        addresses (m_chunks (heap s')) = addresses (m_chunks (heap s))
        /\ m_reusableCommandListsCache (heap s') = m_reusableCommandListsCache (heap s))
     (fun s' => heap s' = heap s /\ env_CreateCommittedResource env = None) s.
Proof.
  unfold Reserve, CreateChunk. wp_steps.
  destruct (Reserve_loop _ _ _) as [found|]; wp_steps; [done| |done].
  split; [|done]. cbn [heap m_chunks set_chunks set_totalCapacity].
  rewrite addresses_app. cbn. by rewrite (right_id_L [] (++)).
Qed.

(** X18: as long as the execution of a command list does not fail, a
    reusable upload that throws has added no allocation record and has left
    the cache as it was: the device could not create the buffer, the command
    allocator or the command list, or the buffer could not be mapped, and
    all of that comes before the allocation is recorded. *)
Theorem X18_reusable_upload_throws_before_recording (env : Env) (dst : Handle)
    (dstOffset dstState : Z) (src : Span) (s s' : State) :
  env_ExecuteCommandList env = true ->
  BeginReusableUploadToGpu env dst dstOffset dstState src s = Throws s' ->
  (env_CreateCommittedResource env = None \/ env_CreateCommandAllocator env = None
   \/ env_CreateCommandList env = None \/ env_Map env = false)
  /\ addresses (m_chunks (heap s')) ⊆ addresses (m_chunks (heap s))
  /\ m_reusableCommandListsCache (heap s') = m_reusableCommandListsCache (heap s).
Proof.
  intros Hexec Hcall.
  set (key := mkReusableCopyKey dst dstOffset (span_size src)).
  set (T := fun s' : State =>
    (env_CreateCommittedResource env = None \/ env_CreateCommandAllocator env = None
     \/ env_CreateCommandList env = None \/ env_Map env = false)
    /\ addresses (m_chunks (heap s')) ⊆ addresses (m_chunks (heap s))
    /\ m_reusableCommandListsCache (heap s') = m_reusableCommandListsCache (heap s)).
  assert (wp (BeginReusableUploadToGpu env dst dstOffset dstState src)
            (fun _ _ => True) T s) as Hwp.
  { unfold BeginReusableUploadToGpu. do 2 wp_step. fold key.
    destruct (m_reusableCommandListsCache (heap s) !! key) as [it|] eqn:Hit.
    - rewrite bool_decide_eq_false_2 by done. cbn [andb].
      unfold ReclaimAllocations, ReExecute. wp_steps; try done; try congruence.
      unfold T. cbn. split_and!; [tauto| |done]. apply addresses_filter.
    - simple apply wp_bind.
      eapply wp_mono with
        (Q := fun _ s1 => addresses (m_chunks (heap s1)) ⊆ addresses (m_chunks (heap s))
                          /\ m_reusableCommandListsCache (heap s1)
                             = m_reusableCommandListsCache (heap s))
        (T := fun _ => False); [| |done].
      + wp_step; [|done]. unfold EvictFront. wp_steps.
        cbn [heap m_chunks m_reusableCommandListsCache set_chunks set_reusableCommandLists
             set_reusableCommandListsCache].
        split; [by rewrite addresses_update|by apply delete_id].
      + cbn beta. intros _ s1 [Haddr1 Hcache1]. unfold ReclaimAllocations. wp_steps.
        assert (addresses (reclaimed env (m_chunks (heap s1))) ⊆ addresses (m_chunks (heap s)))
          as Haddr2 by (etrans; [apply addresses_filter|done]).
        unfold RecordAndExecute. simple apply wp_bind.
        eapply wp_mono; [apply Reserve_addresses|cbn beta|cbn beta].
        2:{ intros s2 [E Hnone]. unfold T. rewrite E. cbn [heap m_chunks set_chunks
              m_reusableCommandListsCache]. split_and!; [tauto|done|done]. }
        intros [chunk offsetInChunk] s2 [Haddr3 Hcache3]. cbn in Haddr3, Hcache3.
        unfold push_back_allocation. wp_steps; try done; try congruence.
        all: unfold T; cbn [heap log]; split_and!; [tauto| |congruence].
        all: by rewrite Haddr3. }
  unfold wp in Hwp. by rewrite Hcall in Hwp.
Qed.

(** *** What the operations assert after [Reserve] *)

(** X19: the assertions of the uploads after [Reserve] hold. In a heap the
    public operations reach, once the allocations are reclaimed, [Reserve]
    returns a pointer to a chunk of the heap and an offset in it that is a
    multiple of the alignment, and the requested bytes lie within the
    capacity of the chunk from there. *)
Theorem X19_Reserve_within_capacity (h : PooledUploadHeap) (env env' : Env)
    (submitted : list Call) (size : Z) (chunk : nat) (offset : Z) (s' : State) :
  power_of_two c_allocationAlignment ->
  reachable fits_address_space h ->
  0 < size < SizeT.modulus ->
  Reserve env size (mkState (set_chunks (reclaimed env') h) submitted)
    = Returns (chunk, offset) s' ->
  exists c,
    m_chunks (heap s') !! chunk = Some c
    /\ 0 <= offset /\ offset + size <= capacityInBytes c
    /\ offset mod c_allocationAlignment = 0.
Proof.
  intros HA Hreach Hsize Hcall.
  pose proof (reachable_wf h HA Hreach) as Hwf.
  pose proof (reachable_holds _ _ Hreach) as Hfits.
  pose proof (ReclaimAllocations_keeps_wf env' (mkState h submitted)) as Hreclaim.
  unfold wp in Hreclaim. rewrite ReclaimAllocations_returns in Hreclaim.
  cbn [heap] in Hreclaim. fold (reclaimed env' (m_chunks h)) in Hreclaim.
  destruct Hreclaim as [Hwf' Hcaps]. specialize (Hwf' Hwf).
  pose proof (fits_address_space_capacities _ _ Hcaps Hfits) as Hfits'.
  pose proof (Reserve_wf env size (mkState (set_chunks (reclaimed env') h) submitted)
                HA Hsize Hwf' Hfits') as Hwp.
  unfold wp in Hwp. rewrite Hcall in Hwp.
  destruct Hwp as (_ & (c & Hc & Hplace) & _). cbn in Hc.
  exists c. split; [done|].
  destruct (Hplace 0%nat 0 false) as (_ & _ & Hallocs & _). cbn in Hallocs.
  apply Forall_app in Hallocs as [_ Hnew]. apply Forall_inv in Hnew.
  unfold allocation_wf in Hnew. cbn in Hnew. tauto.
Qed.

(** *** Recycling *)

Lemma reclaimed_idle env chunks :
  Forall (fun c =>
    Forall (fun a => locked a = false /\ env_IsSignaled env (doneEvent a) = true)
      (allocations c)) chunks ->
  reclaimed env chunks = set_allocations (fun _ => []) <$> chunks.
Proof.
  intros Hidle. unfold reclaimed. apply list_fmap_ext. intros _ c Hc%list_elem_of_lookup_2.
  rewrite Forall_forall in Hidle. specialize (Hidle c Hc).
  unfold set_allocations. f_equal.
  induction Hidle as [|a l [Ha1 Ha2] _ IHl]; [done|].
  rewrite filter_cons_False; [done|]. unfold reclaimable. rewrite Ha1, Ha2. cbn. tauto.
Qed.

(** among chunks without allocations, [Reserve] takes the first one that is
    large enough *)
Lemma Reserve_loop_empty chunks index size :
  Reserve_loop (set_allocations (fun _ => []) <$> chunks) index size
  = (fun found => ((index + found.1)%nat, 0))
      <$> list_find (fun c => size <= capacityInBytes c) chunks.
Proof.
  revert index. induction chunks as [|c chunks IH]; intros index; [done|].
  cbn [fmap list_fmap Reserve_loop list_find]. unfold FindOffsetForAllocation. cbn.
  destruct (Z.ltb_spec (capacityInBytes c) size); case_decide; try lia.
  - rewrite IH. destruct (list_find _ chunks) as [[i c']|]; cbn; [|done].
    do 2 f_equal. lia.
  - cbn. by rewrite Nat.add_0_r.
Qed.

Lemma alter_lookup_insert {A} (f : A -> A) (l : list A) (i : nat) (x : A) :
  l !! i = Some x -> alter f i l = <[i := f x]> l.
Proof.
  intros Hi. apply list_eq. intros j. rewrite list_lookup_alter.
  case_decide as Hj.
  - subst j. rewrite list_lookup_insert_eq by (by eapply lookup_lt_Some). by rewrite Hi.
  - rewrite list_lookup_insert_ne by done. done.
Qed.

(** X20: memory the GPU has finished with is used again. When every
    allocation of the heap is unlocked and its event is signaled,
    [BeginUploadToGpu] reclaims them all and stages the source bytes at the
    beginning of the first chunk that is large enough; it creates no
    buffer. *)
Theorem X20_idle_pool_is_recycled (env : Env) (dst : Handle) (dstOffset dstState : Z)
    (src : Span) (s : State) (i : nat) (c : Chunk) :
  Forall (fun c =>
    Forall (fun a => locked a = false /\ env_IsSignaled env (doneEvent a) = true)
      (allocations c)) (m_chunks (heap s)) ->
  list_find (fun c => span_size src <= capacityInBytes c) (m_chunks (heap s)) = Some (i, c) ->
  env_Map env = true -> env_CopyBufferRegion env = true ->
  let res := com_ptr (resource c) in
  let submitted :=
    log s ++ [Map res; Memcpy res 0 src; Unmap res;
              CopyBufferRegion dst dstOffset dstState res 0
                D3D12_RESOURCE_STATE_GENERIC_READ (span_size src)] in
  let event := env_GetCurrentCompletionEvent env submitted in
  exists s',
    BeginUploadToGpu env dst dstOffset dstState src s = Returns event s'
    /\ log s' = submitted
    /\ m_chunks (heap s')
       = <[i := mkChunk (capacityInBytes c) (resource c)
                  [mkAllocation (next_address (heap s)) (span_size src) 0 event false]]>
           (set_allocations (fun _ => []) <$> m_chunks (heap s))
    /\ m_totalCapacity (heap s') = m_totalCapacity (heap s).
Proof.
  intros Hidle Hfind Hmap Hcopy res submitted event.
  assert (total (BeginUploadToGpu env dst dstOffset dstState src)
            (fun ev s' =>
               ev = event /\ log s' = submitted
               /\ m_chunks (heap s')
                  = <[i := mkChunk (capacityInBytes c) (resource c)
                             [mkAllocation (next_address (heap s)) (span_size src) 0
                                event false]]>
                      (set_allocations (fun _ => []) <$> m_chunks (heap s))
               /\ m_totalCapacity (heap s') = m_totalCapacity (heap s))
            (fun _ => False) s) as Htotal.
  { pose proof Hfind as (Hi & _ & _)%list_find_Some.
    pose proof (reclaimed_idle env _ Hidle) as Hr. unfold reclaimed in Hr.
    unfold BeginUploadToGpu, ReclaimAllocations. total_steps.
    unfold Reserve. total_steps.
    cbn [m_chunks set_chunks]. rewrite Hr, Reserve_loop_empty, Hfind.
    cbn [fmap option_fmap option_map]. total_steps. cbn [fst snd Nat.add].
    eapply total_deref.
    { cbn [m_chunks set_chunks]. rewrite Hr, list_lookup_fmap, Hi. reflexivity. }
    unfold push_back_allocation. total_steps; try congruence.
    cbn [heap log m_chunks m_totalCapacity set_chunks set_next_address resource
         set_allocations com_ptr next_address].
    fold res. rewrite <- !(assoc_L (++)). cbn [app]. fold submitted. fold event.
    split_and!; [done..| |done].
    rewrite Hr. erewrite alter_lookup_insert; [|by rewrite list_lookup_fmap, Hi]. done. }
  unfold total in Htotal.
  destruct (BeginUploadToGpu env dst dstOffset dstState src s) as [ev s'|s'|]; [|done..].
  destruct Htotal as (-> & ? & ? & ?). by exists s'.
Qed.

(** *** The lifetime of the buffers *)

#[global] Instance same_buffers_preorder : PreOrder same_buffers.
Proof.
  split; unfold same_buffers; [by intros h|intros h1 h2 h3 ??; congruence].
Qed.

Lemma same_buffers_fmap (F : Chunk -> Chunk) h :
  (forall c, resource (F c) = resource c /\ capacityInBytes (F c) = capacityInBytes c) ->
  same_buffers h (set_chunks (fmap F) h).
Proof.
  intros HF. unfold same_buffers, buffers. cbn.
  rewrite <- list_fmap_compose. apply list_fmap_ext. intros _ c _. cbn.
  by destruct (HF c) as [-> ->].
Qed.

Lemma same_buffers_same h h' : m_chunks h' = m_chunks h -> same_buffers h h'.
Proof. unfold same_buffers, buffers. by intros ->. Qed.

Lemma ReclaimAllocations_same_buffers env : preserves same_buffers (ReclaimAllocations env).
Proof. apply preserves_modify_heap. intros h. by apply same_buffers_fmap. Qed.

Lemma EvictFront_same_buffers key : preserves same_buffers (EvictFront key).
Proof.
  unfold EvictFront. preserving; apply preserves_modify_heap; intros h.
  - by apply same_buffers_fmap.
  - by apply same_buffers_same.
  - by apply same_buffers_same.
Qed.

Lemma ReExecute_same_buffers env it src : preserves same_buffers (ReExecute env it src).
Proof.
  unfold ReExecute. preserving. apply preserves_modify_heap. intros h.
  by apply same_buffers_fmap.
Qed.

Lemma push_back_allocation_same_buffers chunk size offset event lock :
  preserves same_buffers (push_back_allocation chunk size offset event lock).
Proof.
  intros s. unfold push_back_allocation. wp_steps.
  unfold same_buffers, buffers. cbn. apply list_eq. intros i.
  rewrite !list_lookup_fmap, list_lookup_alter. case_decide; [|done].
  subst i. by destruct (m_chunks (heap s) !! chunk).
Qed.

#[local] Hint Resolve ReclaimAllocations_same_buffers EvictFront_same_buffers
  ReExecute_same_buffers push_back_allocation_same_buffers : preserves.

(** [Reserve] creates at most one buffer and releases none *)
Lemma Reserve_buffers env size s :
  wp (Reserve env size)
     (fun _ s' => exists new, buffers (heap s') = buffers (heap s) ++ new
                              /\ (length new <= 1)%nat)
     (fun s' => heap s' = heap s) s.
Proof.
  unfold Reserve, CreateChunk. wp_steps.
  destruct (Reserve_loop _ _ _) as [found|]; wp_steps; try done.
  - exists []. split; [by rewrite (right_id_L [] (++))|cbn; lia].
  - eexists [_]. split; [|done]. unfold buffers. cbn. by rewrite fmap_app.
Qed.

Lemma buffers_grow h1 h2 h3 new :
  same_buffers h1 h2 ->
  buffers h3 = buffers h2 ++ new ->
  buffers h3 = buffers h1 ++ new.
Proof. unfold same_buffers. by intros ->. Qed.

(** X21: only [Trim] releases buffers. An upload, whether it returns or
    throws, keeps every chunk's buffer and capacity, in their order, and
    creates at most one new buffer, at the back; [Trim] creates none and
    keeps the buffers that are left in their order. *)
Theorem X21_buffers_outlive_uploads (h h' : PooledUploadHeap) (env : Env)
    (op : Operation) (submitted : list Call) :
  final_heap (perform env op (mkState h submitted)) = Some h' ->
  match op with
  | OpTrim => buffers h' `sublist_of` buffers h
  | _ => exists new, buffers h' = buffers h ++ new /\ (length new <= 1)%nat
  end.
Proof.
  intros Hfinal.
  set (grown := fun s' : State =>
    exists new, buffers (heap s') = buffers h ++ new /\ (length new <= 1)%nat).
  assert (forall s', same_buffers h (heap s') -> grown s') as Hsame.
  { intros s' Hs. exists []. split; [by rewrite (right_id_L [] (++))|cbn; lia]. }
  destruct op as [dst dstOffset dstState src|dst dstOffset dstState src|].
  - assert (wp (perform env (OpBeginUploadToGpu dst dstOffset dstState src))
              (fun _ => grown) grown (mkState h submitted)) as Hwp.
    { cbn. unfold BeginUploadToGpu. wp_step.
      wp_preserved same_buffers as r1 s1 H1; [|by apply Hsame].
      simple apply wp_bind.
      eapply wp_mono; [apply Reserve_buffers|cbn beta|cbn beta];
        [|intros s2 E; apply Hsame; by rewrite E].
      intros [chunk offsetInChunk] s2 (new & Hnew & Hlen).
      assert (forall s3, same_buffers (heap s2) (heap s3) -> grown s3) as Hgrown.
      { intros s3 Hs3. exists new. split; [|done].
        eapply buffers_grow; [exact H1|]. unfold same_buffers in Hs3. by rewrite Hs3. }
      wp_steps; try (by apply Hgrown).
      wp_preserved same_buffers as back s3 Hback; [|by apply Hgrown].
      wp_steps. by apply Hgrown. }
    unfold wp in Hwp. destruct (perform _ _ _) as [r s'|s'|]; cbn in Hfinal; by simplify_eq.
  - assert (wp (perform env (OpBeginReusableUploadToGpu dst dstOffset dstState src))
              (fun _ => grown) grown (mkState h submitted)) as Hwp.
    { cbn. unfold BeginReusableUploadToGpu. do 3 wp_step.
      wp_preserved same_buffers as r1 s1 H1; [|by apply Hsame].
      wp_preserved same_buffers as r2 s2 H2; [|apply Hsame; by etrans].
      assert (same_buffers h (heap s2)) as H12 by (by etrans).
      destruct (m_reusableCommandListsCache h !! _) as [it|].
      + wp_preserved same_buffers as r3 s3 H3; [|apply Hsame; by etrans].
        wp_steps. apply Hsame. by etrans.
      + unfold RecordAndExecute. do 2 simple apply wp_bind.
        eapply wp_mono; [apply Reserve_buffers|cbn beta|cbn beta];
          [|intros s3 E; apply Hsame; by rewrite E].
        intros [chunk offsetInChunk] s3 (new & Hnew & Hlen).
        assert (forall s4, same_buffers (heap s3) (heap s4) -> grown s4) as Hgrown.
        { intros s4 Hs4. exists new. split; [|done].
          eapply buffers_grow; [exact H12|]. unfold same_buffers in Hs4. by rewrite Hs4. }
        wp_steps; try (by apply Hgrown).
        all: wp_preserved same_buffers as back s4 Hback; [|by apply Hgrown].
        all: wp_steps; apply Hgrown; try done.
        all: etrans; [exact Hback|]; by apply same_buffers_same. }
    unfold wp in Hwp. destruct (perform _ _ _) as [r s'|s'|]; cbn in Hfinal; by simplify_eq.
  - revert Hfinal. cbn. unfold mbind, M_bind. rewrite Trim_returns. cbn. intros [= <-].
    unfold buffers. cbn.
    assert ((fun c => (resource c, capacityInBytes c)) <$> m_chunks h
            = (fun c => (resource c, capacityInBytes c))
                <$> (set_allocations (filter (fun a => ¬ reclaimable env a)) <$> m_chunks h))
      as -> by (rewrite <- list_fmap_compose; by apply list_fmap_ext).
    apply fmap_sublist, sublist_filter.
Qed.

(** X22: a hit that fails can be tried again. When the key is cached and
    the call throws, mapping the buffer or executing the command list has
    failed; the key is still cached afterwards, with the same command list
    and the same allocation, locked and with the event it had. *)
Theorem X22_failed_hit_stays_cached (h : PooledUploadHeap) (env : Env) (dst : Handle)
    (dstOffset dstState : Z) (src : Span) (submitted : list Call)
    (entry : ReusableCopyCommandListState) (staging : Allocation) (s' : State) :
  cached (mkReusableCopyKey dst dstOffset (span_size src)) h entry staging ->
  BeginReusableUploadToGpu env dst dstOffset dstState src (mkState h submitted) = Throws s' ->
  (env_Map env = false \/ env_ExecuteCommandList env = false)
  /\ cached (mkReusableCopyKey dst dstOffset (span_size src)) (heap s') entry staging.
Proof.
  intros Hcached.
  rewrite (BeginReusableUploadToGpu_hit env dst dstOffset dstState src h submitted
             entry staging Hcached). cbn zeta.
  destruct Hcached as (Hcache & Hnode & Halloc & Hlocked & Hres).
  assert (cached (mkReusableCopyKey dst dstOffset (span_size src))
            (set_chunks (reclaimed env) h) entry staging) as Hcached'.
  { split_and!; [done..| |done|].
    - by apply find_allocation_reclaimed.
    - by apply find_resource_fmap. }
  destruct (env_Map env); [destruct (env_ExecuteCommandList env)|]; [done|..];
    intros [= <-]; (split; [tauto|done]).
Qed.

End Placement.



(** ** Scenarios

    The constants are those of the specification's scenarios: chunks of at
    least 1024 bytes, an alignment of 16 bytes, and at most two cached
    command lists. *)

Local Abbreviation upload := (BeginReusableUploadToGpu 1024 16 2).
Local Abbreviation run call h := (call (mkState h [])).
Local Abbreviation key7 := (mkReusableCopyKey 7%nat 0 64).

(** three uploads with three keys, one after the other *)
Local Abbreviation after_7 := (heap_after (run (upload (env_ok 0) 7%nat 0 0 (bytes 64)) empty_heap)).
Local Abbreviation after_7_8 := (heap_after (run (upload (env_ok 10) 8%nat 0 0 (bytes 64)) after_7)).
Local Abbreviation after_7_8_9 :=
  (heap_after (run (upload (env_ok 20) 9%nat 0 0 (bytes 64)) after_7_8)).

(** C3 at its failing input: with room for two command lists, the third key
    evicts the command list of the first key, yet the cache keeps the entry of
    the first key, whose iterator now dangles; the next upload with the first
    key dereferences it. *)
Lemma C3_evicted_key_stays_cached :
  node <$> m_reusableCommandLists after_7_8 = [1; 3]%nat
  /\ m_reusableCommandListsCache after_7_8 !! key7 = Some 1%nat
  /\ node <$> m_reusableCommandLists after_7_8_9 = [3; 5]%nat
  /\ m_reusableCommandListsCache after_7_8_9 !! key7 = Some 1%nat
  /\ find_node 1 (m_reusableCommandLists after_7_8_9) = None
  /\ run (upload (env_ok 30) 7%nat 0 0 (bytes 64)) after_7_8_9 = Undefined.
Proof. vm_compute. repeat split. Qed.

(** two keys, then the first key again, then a third key *)
Local Abbreviation after_7_8_7 := (heap_after (run (upload (env_ok 20) 7%nat 0 0 (bytes 64)) after_7_8)).
Local Abbreviation fourth := (run (upload (env_ok 30) 9%nat 0 0 (bytes 64)) after_7_8_7).

(** C5 at its failing input: the hit on the first key leaves its command list
    at the front, and the miss that follows evicts it, although the command
    list of the second key was used longer ago. *)
Lemma C5_hit_keeps_position :
  commandList <$> m_reusableCommandLists after_7_8 = [300; 310]%nat
  /\ commandList <$> m_reusableCommandLists after_7_8_7 = [300; 310]%nat
  /\ take 2 (log_after fourth) = [QueueReference 300%nat; QueueReference 200%nat]
  /\ commandList <$> m_reusableCommandLists (heap_after fourth) = [310; 330]%nat.
Proof. vm_compute. repeat split. Qed.

(** C8 at its failing input: when the execution of the recorded command list
    fails, the call throws after it has added the allocation to the chunk; no
    cached command list refers to the allocation, which stays locked. *)
Lemma C8_failed_execution_keeps_allocation :
  exists s,
    run (upload (env_execute_fails 0) 7%nat 0 0 (bytes 64)) empty_heap = Throws s
    /\ allocations <$> m_chunks (heap s) = [[mkAllocation 0 64 0 10 true]]
    /\ m_reusableCommandLists (heap s) = []
    /\ m_reusableCommandListsCache (heap s) = ∅.
Proof. eexists. split; [vm_compute; reflexivity|]. vm_compute. repeat split. Qed.
(** ** The theorems at concrete inputs *)

(** a chunk whose live span wraps: the request is placed between its two runs *)
Local Abbreviation wrapped :=
  (mkHeap [mkChunk 1024 (mkResource 100%nat 1024)
             [mkAllocation 0 200 600 5 false; mkAllocation 1 100 0 6 false]]
          1024 [] ∅ 2%nat).

Lemma C1_Reserve_placement_witness :
  power_of_two 16
  /\ 0 < 400 < SizeT.modulus
  /\ Forall (chunk_in_range 16) (m_chunks wrapped)
  /\ Reserve 1024 16 (env_ok 0) 400 (mkState wrapped []) = Returns (0%nat, 112) (mkState wrapped []).
Proof.
  assert (power_of_two 16) as Hpow by (exists 4; split; [unfold SizeT.bits; lia|reflexivity]).
  assert (0 < 400 < SizeT.modulus) as Hsize by (split; reflexivity).
  assert (Forall (chunk_in_range 16) (m_chunks wrapped)) as Hrange.
  { repeat constructor; cbn; unfold SizeT.modulus, SizeT.bits; lia. }
  split_and!; [done..|].
  rewrite (C1_Reserve_placement 1024 16 (env_ok 0) wrapped [] 400 Hpow Hsize Hrange).
  vm_compute. reflexivity.
Defined.

(** the heap after the upload of 300 bytes and of 200 bytes *)
Local Abbreviation first_upload := (OpBeginUploadToGpu 7%nat 0 0 (bytes 300)).
Local Abbreviation second_upload := (OpBeginUploadToGpu 7%nat 512 0 (bytes 200)).
Local Abbreviation after_300 :=
  (heap_after (perform 1024 16 2 (env_ok 0) first_upload (mkState empty_heap []))).
Local Abbreviation after_300_200 :=
  (heap_after (perform 1024 16 2 (env_ok 10) second_upload (mkState after_300 []))).

Lemma reachable_after_300_200 :
  reachable 1024 16 2 (fits_address_space 16) after_300_200.
Proof.
  eapply (reachable_perform _ _ _ _ after_300 (env_ok 10) second_upload).
  - eapply (reachable_perform _ _ _ _ empty_heap (env_ok 0) first_upload).
    + apply reachable_empty. vm_compute. discriminate.
    + split; reflexivity.
    + vm_compute. reflexivity.
    + vm_compute. discriminate.
  - split; reflexivity.
  - vm_compute. reflexivity.
  - vm_compute. discriminate.
Defined.

Lemma C2_invariants_after_every_operation_witness :
  (offsetInChunk <$> (m_chunks after_300_200 ≫= allocations) = [0; 304])
  /\ Invariants 16 after_300_200
  /\ AssertInvariants 16 after_300_200 = true.
Proof.
  split; [vm_compute; reflexivity|].
  apply (C2_invariants_after_every_operation 1024 16 2 after_300_200).
  - exists 4. split; [unfold SizeT.bits; lia|reflexivity].
  - apply reachable_after_300_200.
Defined.

(** the record an [Allocation] pointer finds is one of the heap's records *)
Lemma find_allocation_elem_of p chunks a :
  find_allocation p chunks = Some a -> a ∈ chunks ≫= allocations.
Proof.
  unfold find_allocation.
  destruct (list_find _ _) as [[i a']|] eqn:Hfind; [|done]. intros [= <-].
  apply list_find_Some in Hfind as (Hi & _). by eapply list_elem_of_lookup_2.
Qed.

Lemma C4_second_call_reuses_staging_slot_witness :
  exists entry staging,
    find_allocation (allocation entry) (m_chunks after_7) = Some staging
    /\ doneEvent staging = 10
    /\ (address staging ∉ addresses (m_chunks empty_heap))
    /\ exists s2 staging',
         run (upload (env_ok 0) 7%nat 0 0 (bytes 64)) empty_heap
           = Returns 11 (mkState after_7 (log_after (run (upload (env_ok 0) 7%nat 0 0 (bytes 64)) empty_heap)))
         /\ run (upload (env_ok 10) 7%nat 0 0 (bytes 64)) after_7 = Returns 14 s2
         /\ addresses (m_chunks (heap s2)) ⊆ addresses (m_chunks after_7)
         /\ find_allocation (allocation entry) (m_chunks (heap s2)) = Some staging'
         /\ doneEvent staging' = 14
         /\ offsetInChunk staging' = offsetInChunk staging
         /\ m_chunks (heap s2) ≫= allocations = [mkAllocation 0 64 0 14 true].
Proof.
  assert (run (upload (env_ok 0) 7%nat 0 0 (bytes 64)) empty_heap
          = Returns 11 (mkState after_7
              (log_after (run (upload (env_ok 0) 7%nat 0 0 (bytes 64)) empty_heap))))
    as Hfirst by (vm_compute; reflexivity).
  destruct (C4_second_call_reuses_staging_slot 1024 16 2 empty_heap 7%nat 0
              (env_ok 0) (env_ok 10) 0 0 (bytes 64) (bytes 64) 11
              (mkState after_7 (log_after (run (upload (env_ok 0) 7%nat 0 0 (bytes 64)) empty_heap))))
    as (entry & staging & Hfind & Hfresh & _ & _ & s2 & Hcall & Hsub & Hsecond).
  - apply reachable_empty. exact I.
  - reflexivity.
  - vm_compute. reflexivity.
  - exact Hfirst.
  - destruct (Hsecond eq_refl eq_refl)
      as (_ & staging' & Hfind' & Hdone & _ & Hoffset & _ & _).
    assert (run (upload (env_ok 10) 7%nat 0 0 (bytes 64)) after_7 = Returns 14 s2) as Hrun.
    { etrans; [exact Hcall|]. vm_compute. reflexivity. }
    exists entry, staging. split; [exact Hfind|]. split.
    { assert (m_chunks after_7 ≫= allocations = [mkAllocation 0 64 0 10 true]) as Hone
        by (vm_compute; reflexivity).
      assert (staging ∈ [mkAllocation 0 64 0 10 true]) as Hin.
      { rewrite <- Hone. exact (find_allocation_elem_of _ _ _ Hfind). }
      apply list_elem_of_singleton in Hin. rewrite Hin. reflexivity. }
    split; [exact Hfresh|]. exists s2, staging'.
    split; [exact Hfirst|]. split; [exact Hrun|]. split; [exact Hsub|].
    split; [exact Hfind'|]. split; [exact Hdone|]. split; [exact Hoffset|].
    transitivity (m_chunks (heap_after (Returns 14 s2)) ≫= allocations); [reflexivity|].
    rewrite <- Hrun. vm_compute. reflexivity.
Defined.

Local Abbreviation reusable dst := (OpBeginReusableUploadToGpu dst 0 0 (bytes 64)).

Lemma reachable_after_7_8_9 : reachable 1024 16 2 (fun _ => True) after_7_8_9.
Proof.
  eapply (reachable_perform _ _ _ _ after_7_8 (env_ok 20) (reusable 9%nat)).
  - eapply (reachable_perform _ _ _ _ after_7 (env_ok 10) (reusable 8%nat)).
    + eapply (reachable_perform _ _ _ _ empty_heap (env_ok 0) (reusable 7%nat)).
      * apply reachable_empty. exact I.
      * split; reflexivity.
      * vm_compute. reflexivity.
      * exact I.
    + split; reflexivity.
    + vm_compute. reflexivity.
    + exact I.
  - split; reflexivity.
  - vm_compute. reflexivity.
  - exact I.
Defined.

Lemma C6_reusable_command_lists_bounded_witness :
  length (m_reusableCommandLists after_7_8) = 2%nat
  /\ (length (m_reusableCommandLists after_7_8_9) <= 2)%nat.
Proof.
  split; [vm_compute; reflexivity|].
  apply (C6_reusable_command_lists_bounded 1024 16 2 after_7_8_9).
  apply reachable_after_7_8_9.
Defined.

(** a chunk whose only allocation is locked, and whose event is signaled *)
Local Abbreviation locked_allocation := (mkAllocation 0 64 0 5 true).
Local Abbreviation locked_chunk := (mkChunk 1024 (mkResource 100%nat 1024) [locked_allocation]).
Local Abbreviation all_signaled :=
  (mkEnv (fun _ => true) (fun _ => 0) None None None true true true).

Lemma C7_Trim_keeps_locked_chunks_witness :
  exists h' chunk',
    Trim all_signaled (mkState (mkHeap [locked_chunk] 1024 [] ∅ 1%nat) [])
      = Returns tt (mkState h' [])
    /\ chunk' ∈ m_chunks h'
    /\ resource chunk' = resource locked_chunk
    /\ locked_allocation ∈ allocations chunk'.
Proof.
  destruct (C7_Trim_keeps_locked_chunks all_signaled
              (mkHeap [locked_chunk] 1024 [] ∅ 1%nat) [] locked_chunk locked_allocation)
    as (h' & chunk' & Htrim & Hchunk & Hres & _ & _ & Ha).
  - left.
  - left.
  - reflexivity.
  - exists h', chunk'. repeat split; assumption.
Defined.


(** ** The further properties at concrete inputs *)

Lemma power_of_two_16 : power_of_two 16.
Proof. exists 4. split; [unfold SizeT.bits; lia|reflexivity]. Qed.

Lemma X1_Align_least_multiple_witness :
  Align 504 16 = 512
  /\ Align 504 16 mod 16 = 0
  /\ 504 <= Align 504 16 < 504 + 16
  /\ forall m, m mod 16 = 0 -> 504 <= m -> Align 504 16 <= m.
Proof.
  split; [reflexivity|].
  apply (X1_Align_least_multiple 504 16 power_of_two_16); [lia|].
  unfold SizeT.modulus, SizeT.bits. lia.
Defined.

Lemma X2_Align_wraps_to_zero_witness : Align (SizeT.modulus - 1) 16 = 0.
Proof.
  apply (X2_Align_wraps_to_zero (SizeT.modulus - 1) 16 power_of_two_16).
  unfold SizeT.modulus, SizeT.bits. lia.
Defined.

(** the chunk after the upload of 300 bytes and of 200 bytes *)
Local Abbreviation chunk_300_200 :=
  (mkChunk 1024 (mkResource 100%nat 1024)
     [mkAllocation 0 300 0 5 false; mkAllocation 1 200 304 14 false]).

Lemma X3_FindOffsetForAllocation_free_bytes_witness :
  FindOffsetForAllocation 16 chunk_300_200 100 = Some 512
  /\ 512 mod 16 = 0
  /\ 0 <= 512 /\ 512 + 100 <= capacityInBytes chunk_300_200
  /\ forall a, a ∈ allocations chunk_300_200 ->
       512 + 100 <= offsetInChunk a \/ offsetInChunk a + sizeInBytes a <= 512.
Proof.
  split; [reflexivity|].
  apply (X3_FindOffsetForAllocation_free_bytes 1024 16 2 after_300_200 chunk_300_200 100 512
           power_of_two_16 reachable_after_300_200).
  - vm_compute. left.
  - split; reflexivity.
  - reflexivity.
Defined.

(** a heap whose only allocation is unlocked, and whose event is signaled *)
Local Abbreviation idle_heap :=
  (mkHeap [mkChunk 1024 (mkResource 100%nat 1024) [mkAllocation 0 64 0 5 false]]
          1024 [] ∅ 1%nat).

Lemma X6_Trim_releases_idle_pool_witness :
  exists s',
    Trim all_signaled (mkState idle_heap []) = Returns tt s'
    /\ m_chunks (heap s') = [] /\ m_totalCapacity (heap s') = 0.
Proof.
  apply (X6_Trim_releases_idle_pool all_signaled (mkState idle_heap [])).
  repeat constructor.
Defined.

Local Abbreviation entry_8 := (mkCommandListState 3 210%nat 310%nat 2 100%nat).

Lemma X7_cached_command_lists_never_dangle_witness :
  find_node (node entry_8) (m_reusableCommandLists after_7_8_9) = Some entry_8
  /\ (exists staging c,
        find_allocation (allocation entry_8) (m_chunks after_7_8_9) = Some staging
        /\ locked staging = true
        /\ c ∈ m_chunks after_7_8_9 /\ staging ∈ allocations c
        /\ com_ptr (resource c) = chunkResource entry_8)
  /\ forall e', e' ∈ m_reusableCommandLists after_7_8_9 ->
       allocation e' = allocation entry_8 -> e' = entry_8.
Proof.
  apply (X7_cached_command_lists_never_dangle 1024 16 2 after_7_8_9 entry_8
           reachable_after_7_8_9).
  vm_compute. left.
Defined.

Lemma X8_undefined_behaviour_only_by_stale_iterator_witness :
  perform 1024 16 2 (env_ok 30) (reusable 7%nat) (mkState after_7_8_9 []) <> Undefined
  <-> iterator_valid after_7_8_9 (reusable 7%nat).
Proof.
  apply (X8_undefined_behaviour_only_by_stale_iterator 1024 16 2 after_7_8_9 (env_ok 30)
           (reusable 7%nat) []); [lia|].
  apply reachable_after_7_8_9.
Defined.

Lemma X9_cache_entries_are_never_removed_witness :
  m_reusableCommandListsCache after_7_8 !! key7 = Some 1%nat
  /\ m_reusableCommandListsCache after_7_8_9 !! key7 = Some 1%nat.
Proof.
  split; [vm_compute; reflexivity|].
  apply (X9_cache_entries_are_never_removed 1024 16 2 after_7_8 after_7_8_9 (env_ok 20)
           (reusable 9%nat) [] key7 1%nat).
  - vm_compute. reflexivity.
  - vm_compute. reflexivity.
Defined.


Local Abbreviation entry_7 := (mkCommandListState 1 200%nat 300%nat 0 100%nat).


Local Abbreviation first_7 := (run (upload (env_ok 0) 7%nat 0 0 (bytes 64)) empty_heap).

Lemma X11_miss_records_and_executes_witness :
  recorded (env_ok 0) key7 0 (bytes 64) (mkState after_7 (log_after first_7))
  /\ 11 = env_GetCurrentCompletionEvent (env_ok 0) (log_after first_7).
Proof.
  apply (X11_miss_records_and_executes 1024 16 2 empty_heap (env_ok 0) 7%nat 0 0 (bytes 64)
           [] 11 (mkState after_7 (log_after first_7))).
  - vm_compute. reflexivity.
  - vm_compute. reflexivity.
Defined.

Lemma X12_BeginUploadToGpu_returns_witness :
  exists event s' c staging pre,
    BeginUploadToGpu 1024 16 (env_ok 0) 7%nat 0 0 (bytes 300) (mkState empty_heap [])
      = Returns event s'
    /\ c ∈ m_chunks (heap s') /\ last (allocations c) = Some staging
    /\ sizeInBytes staging = 300 /\ locked staging = false
    /\ doneEvent staging = event
    /\ log s' = pre ++ [Map (com_ptr (resource c));
                        Memcpy (com_ptr (resource c)) (offsetInChunk staging) (bytes 300);
                        Unmap (com_ptr (resource c));
                        CopyBufferRegion 7%nat 0 0 (com_ptr (resource c))
                          (offsetInChunk staging) D3D12_RESOURCE_STATE_GENERIC_READ 300]
    /\ event = env_GetCurrentCompletionEvent (env_ok 0) (log s')
    /\ same_lists empty_heap (heap s')
    /\ length (m_chunks (heap s') ≫= allocations)
       = S (length (reclaimed (env_ok 0) (m_chunks empty_heap) ≫= allocations)).
Proof.
  apply (X12_BeginUploadToGpu_returns 1024 16 (env_ok 0) 7%nat 0 0 (bytes 300)
           (mkState empty_heap [])).
  - by eexists.
  - reflexivity.
  - reflexivity.
Defined.

(** an environment in which the buffer cannot be mapped *)
Local Abbreviation env_map_fails :=
  (mkEnv (fun _ => false) (fun submitted => Z.of_nat (length submitted))
         (Some 100%nat) (Some 200%nat) (Some 300%nat) false true true).
Local Abbreviation failed_upload :=
  (BeginUploadToGpu 1024 16 env_map_fails 7%nat 0 0 (bytes 300) (mkState empty_heap [])).

Lemma X13_BeginUploadToGpu_throws_witness :
  (env_CreateCommittedResource env_map_fails = None \/ env_Map env_map_fails = false
   \/ env_CopyBufferRegion env_map_fails = false)
  /\ (m_chunks (heap_after failed_upload) = reclaimed env_map_fails (m_chunks empty_heap)
      \/ exists c, m_chunks (heap_after failed_upload)
                   = reclaimed env_map_fails (m_chunks empty_heap) ++ [c]
                   /\ allocations c = [])
  /\ same_lists empty_heap (heap_after failed_upload).
Proof.
  apply (X13_BeginUploadToGpu_throws 1024 16 env_map_fails 7%nat 0 0 (bytes 300)
           (mkState empty_heap []) (mkState (heap_after failed_upload) (log_after failed_upload))).
  vm_compute. reflexivity.
Defined.

Lemma X14_AssertInvariants_sound_witness :
  AssertInvariants 16 after_300_200 = true /\ Invariants 16 after_300_200.
Proof.
  split; [vm_compute; reflexivity|].
  apply (X14_AssertInvariants_sound 16 after_300_200); [lia| |vm_compute; reflexivity].
  split; [|vm_compute; reflexivity].
  assert (m_chunks after_300_200 = [chunk_300_200]) as -> by (vm_compute; reflexivity).
  repeat constructor; cbn; unfold SizeT.modulus, SizeT.bits; lia.
Defined.

(** the heap after three uploads of 1024 bytes, none of which has completed:
    each upload needs a new chunk *)
Local Abbreviation full_upload := (OpBeginUploadToGpu 7%nat 0 0 (bytes 1024)).
Local Abbreviation after_1024 :=
  (heap_after (perform 1024 16 2 (env_ok 0) full_upload (mkState empty_heap []))).
Local Abbreviation after_2048 :=
  (heap_after (perform 1024 16 2 (env_ok 10) full_upload (mkState after_1024 []))).
Local Abbreviation after_3072 :=
  (heap_after (perform 1024 16 2 (env_ok 20) full_upload (mkState after_2048 []))).
Local Abbreviation third_chunk :=
  (mkChunk 2048 (mkResource 120%nat 2048) [mkAllocation 2 1024 0 25 false]).

Lemma reachable_after_3072 :
  reachable 1024 16 2 (fits_address_space 16) after_3072.
Proof.
  eapply (reachable_perform _ _ _ _ after_2048 (env_ok 20) full_upload).
  - eapply (reachable_perform _ _ _ _ after_1024 (env_ok 10) full_upload).
    + eapply (reachable_perform _ _ _ _ empty_heap (env_ok 0) full_upload).
      * apply reachable_empty. vm_compute. discriminate.
      * split; reflexivity.
      * vm_compute. reflexivity.
      * vm_compute. discriminate.
    + split; reflexivity.
    + vm_compute. reflexivity.
    + vm_compute. discriminate.
  - split; reflexivity.
  - vm_compute. reflexivity.
  - vm_compute. discriminate.
Qed.

Lemma X15_chunks_double_witness :
  capacityInBytes <$> m_chunks after_3072 = [1024; 1024; 2048]
  /\ m_chunks after_3072 !! 2%nat = Some third_chunk
  /\ sum_capacity (take 2 (m_chunks after_3072)) = 2048
  /\ 1024 <= capacityInBytes third_chunk
  /\ sum_capacity (take 2 (m_chunks after_3072)) <= capacityInBytes third_chunk.
Proof.
  split; [vm_compute; reflexivity|]. split; [vm_compute; reflexivity|].
  split; [vm_compute; reflexivity|].
  apply (X15_chunks_double 1024 16 2 after_3072 2 third_chunk power_of_two_16
           reachable_after_3072).
  vm_compute. reflexivity.
Defined.

Local Abbreviation chunk_300 :=
  (mkChunk 1024 (mkResource 100%nat 1024) [mkAllocation 0 300 0 5 false]).

Lemma X16_unsignaled_allocations_are_kept_witness :
  kept after_300_200 chunk_300 (mkAllocation 0 300 0 5 false).
Proof.
  apply (X16_unsignaled_allocations_are_kept 1024 16 2 after_300 after_300_200 (env_ok 10)
           second_upload [] chunk_300 (mkAllocation 0 300 0 5 false)).
  - vm_compute. reflexivity.
  - vm_compute. left.
  - left.
  - reflexivity.
Defined.

(** an environment in which the events below 10 are signaled: of the two
    records of [after_300_200] the one of the first upload, with event 5, can
    be reclaimed, the one of the second, with event 14, cannot *)
Local Abbreviation env_5_signaled :=
  (mkEnv (fun event => event <? 10) (fun submitted => Z.of_nat (20 + length submitted))
         (Some 120%nat) (Some 220%nat) (Some 320%nat) true true true).
Local Abbreviation third_upload := (OpBeginUploadToGpu 7%nat 1024 0 (bytes 100)).
Local Abbreviation after_300_200_100 :=
  (heap_after (perform 1024 16 2 env_5_signaled third_upload (mkState after_300_200 []))).
Local Abbreviation chunk_200_100 :=
  (mkChunk 1024 (mkResource 100%nat 1024)
     [mkAllocation 1 200 304 14 false; mkAllocation 2 100 512 24 false]).

Lemma reachable_after_300_200_unconstrained :
  reachable 1024 16 2 (fun _ => True) after_300_200.
Proof.
  eapply (reachable_perform _ _ _ _ after_300 (env_ok 10) second_upload).
  - eapply (reachable_perform _ _ _ _ empty_heap (env_ok 0) first_upload).
    + apply reachable_empty. exact I.
    + split; reflexivity.
    + vm_compute. reflexivity.
    + exact I.
  - split; reflexivity.
  - vm_compute. reflexivity.
  - exact I.
Qed.

Lemma X17_idle_allocations_are_reclaimed_witness :
  m_chunks after_300_200 ≫= allocations
    = [mkAllocation 0 300 0 5 false; mkAllocation 1 200 304 14 false]
  /\ env_IsSignaled env_5_signaled 5 = true
  /\ env_IsSignaled env_5_signaled 14 = false
  /\ m_chunks after_300_200_100 = [chunk_200_100]
  /\ (locked (mkAllocation 1 200 304 14 false) = true
      \/ env_IsSignaled env_5_signaled (doneEvent (mkAllocation 1 200 304 14 false)) = false
      \/ address (mkAllocation 1 200 304 14 false) = next_address after_300_200)
  /\ (locked (mkAllocation 2 100 512 24 false) = true
      \/ env_IsSignaled env_5_signaled (doneEvent (mkAllocation 2 100 512 24 false)) = false
      \/ address (mkAllocation 2 100 512 24 false) = next_address after_300_200).
Proof.
  split; [vm_compute; reflexivity|]. split; [reflexivity|]. split; [reflexivity|].
  split; [vm_compute; reflexivity|]. split.
  - apply (X17_idle_allocations_are_reclaimed 1024 16 2 after_300_200 after_300_200_100
             env_5_signaled third_upload [] chunk_200_100 (mkAllocation 1 200 304 14 false)
             reachable_after_300_200_unconstrained).
    + vm_compute. reflexivity.
    + vm_compute. left.
    + left.
  - apply (X17_idle_allocations_are_reclaimed 1024 16 2 after_300_200 after_300_200_100
             env_5_signaled third_upload [] chunk_200_100 (mkAllocation 2 100 512 24 false)
             reachable_after_300_200_unconstrained).
    + vm_compute. reflexivity.
    + vm_compute. left.
    + right. left.
Defined.


Local Abbreviation failed_reusable :=
  (run (upload env_map_fails 7%nat 0 0 (bytes 64)) empty_heap).

Lemma X18_reusable_upload_throws_before_recording_witness :
  (env_CreateCommittedResource env_map_fails = None
   \/ env_CreateCommandAllocator env_map_fails = None
   \/ env_CreateCommandList env_map_fails = None \/ env_Map env_map_fails = false)
  /\ addresses (m_chunks (heap_after failed_reusable)) ⊆ addresses (m_chunks empty_heap)
  /\ m_reusableCommandListsCache (heap_after failed_reusable)
     = m_reusableCommandListsCache empty_heap.
Proof.
  apply (X18_reusable_upload_throws_before_recording 1024 16 2 env_map_fails 7%nat 0 0
           (bytes 64) (mkState empty_heap [])
           (mkState (heap_after failed_reusable) (log_after failed_reusable))).
  - reflexivity.
  - vm_compute. reflexivity.
Defined.

Lemma X19_Reserve_within_capacity_witness :
  exists c,
    m_chunks after_300_200 !! 0%nat = Some c
    /\ 0 <= 512 /\ 512 + 100 <= capacityInBytes c
    /\ 512 mod 16 = 0.
Proof.
  apply (X19_Reserve_within_capacity 1024 16 2 after_300_200 (env_ok 20) (env_ok 0) [] 100
           0%nat 512 (mkState after_300_200 []) power_of_two_16 reachable_after_300_200).
  - split; reflexivity.
  - vm_compute. reflexivity.
Defined.

Lemma X20_idle_pool_is_recycled_witness :
  exists s',
    BeginUploadToGpu 1024 16 all_signaled 7%nat 0 0 (bytes 64) (mkState idle_heap [])
      = Returns 0 s'
    /\ log s' = [Map 100%nat; Memcpy 100%nat 0 (bytes 64); Unmap 100%nat;
                 CopyBufferRegion 7%nat 0 0 100%nat 0 D3D12_RESOURCE_STATE_GENERIC_READ 64]
    /\ m_chunks (heap s')
       = [mkChunk 1024 (mkResource 100%nat 1024) [mkAllocation 1 64 0 0 false]]
    /\ m_totalCapacity (heap s') = 1024.
Proof.
  apply (X20_idle_pool_is_recycled 1024 16 all_signaled 7%nat 0 0 (bytes 64)
           (mkState idle_heap []) 0%nat
           (mkChunk 1024 (mkResource 100%nat 1024) [mkAllocation 0 64 0 5 false])).
  - repeat constructor.
  - reflexivity.
  - reflexivity.
  - reflexivity.
Defined.


Lemma X21_buffers_outlive_uploads_witness :
  exists new, buffers after_300_200 = buffers after_300 ++ new /\ (length new <= 1)%nat.
Proof.
  apply (X21_buffers_outlive_uploads 1024 16 2 after_300 after_300_200 (env_ok 10)
           second_upload []).
  vm_compute. reflexivity.
Defined.

Local Abbreviation failed_hit := (run (upload env_map_fails 7%nat 0 0 (bytes 64)) after_7).

Lemma X22_failed_hit_stays_cached_witness :
  (env_Map env_map_fails = false \/ env_ExecuteCommandList env_map_fails = false)
  /\ cached key7 (heap_after failed_hit) entry_7 (mkAllocation 0 64 0 10 true).
Proof.
  apply (X22_failed_hit_stays_cached 1024 16 2 after_7 env_map_fails 7%nat 0 0 (bytes 64) []
           entry_7 (mkAllocation 0 64 0 10 true)
           (mkState (heap_after failed_hit) (log_after failed_hit))).
  - split_and!; [vm_compute; reflexivity..|]. vm_compute. by eexists.
  - vm_compute. reflexivity.
Defined.

End UploadHeap.

(** ** Properties of the bucketized buffer allocator *)

Section BucketSizing.

Import BucketAllocator.

Lemma GetBucketSizeFromIndex_pow2 index :
  0 <= index -> GetBucketSizeFromIndex index = 2 ^ (16 + index).
Proof.
  intros Hi. unfold GetBucketSizeFromIndex, c_minResourceSizeExponent.
  rewrite Z.shiftl_1_l. done.
Qed.

Lemma GetBucketIndexFromSize_small size :
  size <= 2 ^ 16 -> GetBucketIndexFromSize size = 0.
Proof.
  intros Hs. unfold GetBucketIndexFromSize, c_minResourceSizeExponent.
  destruct (decide (0 < size)) as [Hpos|Hneg].
  - apply (Z.log2_up_le_pow2 size 16 Hpos) in Hs. lia.
  - rewrite Z.log2_up_nonpos by lia. lia.
Qed.

Lemma GetBucketIndexFromSize_large size :
  2 ^ 16 < size -> GetBucketIndexFromSize size = Z.log2_up size - 16.
Proof.
  intros Hs. unfold GetBucketIndexFromSize, c_minResourceSizeExponent.
  apply (Z.log2_up_lt_pow2 size 16) in Hs; lia.
Qed.

(** C9: for a size s > 0, [ComputeRequiredSize] returns 2^16 when s <= 2^16
    and the next power of two at or above s otherwise; the bucket index of s
    is max(0, ceil(log2 s) - 16), the index of the smallest bucket that holds
    s; [Alloc] of 100 bytes uses bucket 0 of 65536 bytes, of 65537 bytes
    bucket 1 of 131072 bytes, and of 1 << 20 bytes bucket 4 of 1048576 bytes. *)
Theorem C9_bucket_sizing (s : Z) :
  0 < s ->
  (s <= 2 ^ 16 -> ComputeRequiredSize s = 2 ^ 16)
  /\ (2 ^ 16 < s ->
      exists k, ComputeRequiredSize s = 2 ^ k /\ 2 ^ (k - 1) < s <= 2 ^ k)
  /\ GetBucketIndexFromSize s = Z.max 0 (Z.log2_up s - 16)
  /\ (s <= 1 -> Z.log2_up s = 0)
  /\ (1 < s -> 2 ^ (Z.log2_up s - 1) < s <= 2 ^ Z.log2_up s)
  /\ 0 <= GetBucketIndexFromSize s
  /\ s <= GetBucketSizeFromIndex (GetBucketIndexFromSize s)
  /\ (forall index, 0 <= index -> s <= GetBucketSizeFromIndex index ->
        GetBucketIndexFromSize s <= index)
  /\ (bucketIndex ∘ fst <$> Alloc 100 fresh = Some 0
      /\ backingSize ∘ fst <$> Alloc 100 fresh = Some 65536)
  /\ (bucketIndex ∘ fst <$> Alloc 65537 fresh = Some 1
      /\ backingSize ∘ fst <$> Alloc 65537 fresh = Some 131072)
  /\ (bucketIndex ∘ fst <$> Alloc (Z.shiftl 1 20) fresh = Some 4
      /\ backingSize ∘ fst <$> Alloc (Z.shiftl 1 20) fresh = Some 1048576).
Proof.
  intros Hs.
  assert (1 < s -> 2 ^ (Z.log2_up s - 1) < s <= 2 ^ Z.log2_up s) as Hlog.
  { intros H1. rewrite Z.sub_1_r. by apply Z.log2_up_spec. }
  assert (0 <= GetBucketIndexFromSize s) as Hnonneg.
  { unfold GetBucketIndexFromSize. lia. }
  split_and!; try done; try lia.
  - intros Hsmall. unfold ComputeRequiredSize.
    rewrite GetBucketIndexFromSize_small by done. done.
  - intros Hlarge. exists (Z.log2_up s). unfold ComputeRequiredSize.
    rewrite GetBucketIndexFromSize_large by done.
    assert (16 < Z.log2_up s) by (by apply Z.log2_up_lt_pow2).
    rewrite GetBucketSizeFromIndex_pow2 by lia.
    replace (16 + (Z.log2_up s - 16)) with (Z.log2_up s) by lia.
    split; [done|]. apply Hlog. lia.
  - intros Hle. by apply Z.log2_up_eqn0.
  - rewrite GetBucketSizeFromIndex_pow2 by done.
    apply Z.log2_up_le_pow2; [done|]. unfold GetBucketIndexFromSize,
      c_minResourceSizeExponent. lia.
  - intros index Hindex. rewrite GetBucketSizeFromIndex_pow2 by done.
    intros Hfit%Z.log2_up_le_pow2; [|done].
    unfold GetBucketIndexFromSize, c_minResourceSizeExponent. lia.
Qed.

Lemma C9_bucket_sizing_witness :
  0 < 70000
  /\ (exists k, ComputeRequiredSize 70000 = 2 ^ k /\ 2 ^ (k - 1) < 70000 <= 2 ^ k)
  /\ GetBucketIndexFromSize 70000 = Z.max 0 (Z.log2_up 70000 - 16).
Proof.
  assert (0 < 70000) as Hpos by reflexivity.
  destruct (C9_bucket_sizing 70000 Hpos) as (_ & Hlarge & Hindex & _).
  split; [exact Hpos|]. split; [|exact Hindex]. apply Hlarge. reflexivity.
Defined.

End BucketSizing.


Section AllocationIds.

Import BucketAllocator.












(** the allocator after a sequence of calls that all succeed *)
Local Abbreviation alloc a := (default fresh (snd <$> Alloc 100 a)).
Local Abbreviation free id a := (default fresh (Free id a)).
Local Abbreviation id_of a := (allocationId ∘ fst <$> Alloc 100 a).





End AllocationIds.
